(** * FeeWhisperer: the event scanner and its stores

    A shallow embedding of the scanning engine of the repository:
    [ScanProgress] and [FeeEvent] (the two persisted models),
    [BlockchainUtils], [FeeCollectorService] and [EventScanner], and the
    proofs of what the specification says about them; then the code
    around the engine: [DatabaseConfig.connect], the rate limiter of
    the application and [EventController.getEvents], with further
    properties of all of them.

    Conventions.
    - JavaScript numbers that hold block numbers, counters, delays and
      dates are integers here ([Z]); a [Date] is its epoch value.
    - An [async] method is a function from the state of the world to a
      completion and the next state: it returns, throws, or is still
      running when the loop budget of the model is used up.  A [try]
      block that throws leaves its changes of the state in place.
    - The chain RPC and the database are a script [Env]: the answer to a
      call depends on how many calls were made before it, so that a call
      may fail once and succeed when it is retried.
    - Every call to the outside is written to the history [trace] with
      its outcome; logging is not part of the state.
    - [String.prototype.toLowerCase] is modelled on ASCII text.
    - The models validate a document against its schema before they
      write it: every path of [FeeEvent] and [ScanProgress] is
      [required], which for a string means that it is not empty.
      [create] refuses a document that fails; an unordered
      [insertMany] leaves it out without an error. *)

From Stdlib Require Import ZArith List String Ascii Bool Lia DecimalString DecimalPos DecimalZ.
From Stdlib Require Import Sorted Permutation.
Import ListNotations.
Open Scope string_scope.
Open Scope list_scope.
Open Scope Z_scope.

(** ** Data model *)

Module ChainConfig.
Record t := {
  name : string;
  chainId : Z;
  rpcUrl : string;
  contractAddress : string;
  startBlock : Z
}.
End ChainConfig.

Module ScannerConfig.
Record t := {
  batchSize : Z;
  intervalMs : Z;
  maxRetries : Z;
  retryDelayMs : Z
}.
End ScannerConfig.

(** The arguments of a decoded [FeesCollected] log. *)
Module LogDescription.
Record t := {
  arg0 : string;
  arg1 : string;
  arg2 : Z;
  arg3 : Z
}.
End LogDescription.

(** An [ethers.Event] as the scanner reads it.  [parseLog] is what
    [contract.interface.parseLog] gives for the entry ([None]: it throws);
    [logIndex] may be undefined. *)
Module Event.
Record t := {
  blockNumber : Z;
  transactionHash : string;
  logIndex : option Z;
  parseLog : option LogDescription.t
}.
End Event.

Module ParsedFeeCollectedEvent.
Record t := {
  token : string;
  integrator : string;
  integratorFee : Z;
  lifiFee : Z;
  blockNumber : Z;
  transactionHash : string;
  logIndex : Z;
  timestamp : Z
}.
End ParsedFeeCollectedEvent.

Module FeeEvent.
Record t := {
  token : string;
  integrator : string;
  integratorFee : string;
  lifiFee : string;
  blockNumber : Z;
  transactionHash : string;
  logIndex : Z;
  timestamp : Z;
  chain : string
}.

(** The unique index [{ transactionHash: 1, logIndex: 1 }]. *)
Definition key (e : t) : string * Z := (transactionHash e, logIndex e).

Definition keyEqb (k1 k2 : string * Z) : bool :=
  String.eqb (fst k1) (fst k2) && (snd k1 =? snd k2).

Definition sameKey (a b : t) : bool := keyEqb (key a) (key b).

(** The [required: true] validators of the schema.  Every path is
    required; a number or a date is always present here, and a required
    string may not be empty. *)
Definition valid (e : t) : bool :=
  negb (String.eqb (token e) "")
  && negb (String.eqb (integrator e) "")
  && negb (String.eqb (integratorFee e) "")
  && negb (String.eqb (lifiFee e) "")
  && negb (String.eqb (transactionHash e) "")
  && negb (String.eqb (chain e) "").
End FeeEvent.

Module ScanProgress.
Record t := {
  chain : string;
  lastScannedBlock : Z;
  lastScanTime : Z;
  totalEventsFound : Z;
  totalBlocksScanned : Z;
  updatedAt : Z
}.

(** The [required: true] validators of the schema: the chain name, a
    required string, may not be empty. *)
Definition valid (this : t) : bool := negb (String.eqb (chain this) "").

(** [updateProgress]; [now] is the value of [new Date()]. *)
Definition updateProgress (this : t) (lastBlock eventsCount blocksScanned now : Z) : t :=
  {| chain := chain this;
     lastScannedBlock := Z.max (lastScannedBlock this) lastBlock;
     lastScanTime := now;
     totalEventsFound := totalEventsFound this + eventsCount;
     totalBlocksScanned := totalBlocksScanned this + blocksScanned;
     updatedAt := now |}.

Record Stats := {
  stats_chain : string;
  stats_lastScannedBlock : Z;
  totalEvents : Z;
  totalBlocks : Z;
  lastScan : Z
}.

Definition getStats (this : t) : Stats :=
  {| stats_chain := chain this;
     stats_lastScannedBlock := lastScannedBlock this;
     totalEvents := totalEventsFound this;
     totalBlocks := totalBlocksScanned this;
     lastScan := lastScanTime this |}.
End ScanProgress.

(** ** Completions and the state monad of the asynchronous methods *)

Inductive Exn :=
| Error (message : string)
| MongoBulkWriteError (code : Z) (writeErrors : nat).

(** [error.code]: undefined on a plain [Error]. *)
Definition exn_code (e : Exn) : option Z :=
  match e with
  | Error _ => None
  | MongoBulkWriteError c _ => Some c
  end.

(** [error.code === c]. *)
Definition code_is (e : Exn) (c : Z) : bool :=
  match exn_code e with
  | Some c' => c' =? c
  | None => false
  end.

Inductive Completion (A : Type) :=
| Returned (a : A)
| Thrown (e : Exn)
| Running.

Arguments Returned {A} a.
Arguments Thrown {A} e.
Arguments Running {A}.

Definition M (S A : Type) : Type := S -> Completion A * S.

Definition ret {S A} (a : A) : M S A := fun s => (Returned a, s).

Definition throw {S A} (e : Exn) : M S A := fun s => (Thrown e, s).

Definition bind {S A B} (m : M S A) (k : A -> M S B) : M S B :=
  fun s =>
    match m s with
    | (Returned a, s1) => k a s1
    | (Thrown e, s1) => (Thrown e, s1)
    | (Running, s1) => (Running, s1)
    end.

(** [try { m } catch (error) { handler error }]: the handler starts in the
    state the failed block left behind. *)
Definition try_catch {S A} (m : M S A) (handler : Exn -> M S A) : M S A :=
  fun s =>
    match m s with
    | (Thrown e, s1) => handler e s1
    | r => r
    end.

(** [try { m } finally { cleanup }]: the cleanup runs when [m] returns and
    when it throws, not while it is still running. *)
Definition try_finally {S A} (m : M S A) (cleanup : M S unit) : M S A :=
  fun s =>
    match m s with
    | (Running, s1) => (Running, s1)
    | (r, s1) =>
        match cleanup s1 with
        | (Returned _, s2) => (r, s2)
        | (Thrown e, s2) => (Thrown e, s2)
        | (Running, s2) => (Running, s2)
        end
    end.

Definition get {S} : M S S := fun s => (Returned s, s).

Definition modify {S} (f : S -> S) : M S unit := fun s => (Returned tt, f s).

Declare Scope monad_scope.
Delimit Scope monad_scope with monad.
Notation "x <- m ;; k" := (bind m (fun x => k))
  (at level 61, m at next level, right associativity) : monad_scope.
Notation "m ;; k" := (bind m (fun _ => k))
  (at level 61, right associativity) : monad_scope.
Open Scope monad_scope.

(** ** The world: scanner instance, database collections, call history *)

Inductive Call :=
| call_getCode
| call_getBlockNumber
| call_getBlock (blockNumber : Z)
| call_queryFilter (fromBlock toBlock : Z)
| call_insertMany (docs : list FeeEvent.t)
| call_findOne (chain : string)
| call_create (doc : ScanProgress.t)
| call_save (doc : ScanProgress.t)
| call_setTimeout (ms : Z).

Record World := {
  isScanning : bool;
  scanInterval : option Z;
  feeevents : list FeeEvent.t;
  scanprogresses : list ScanProgress.t;
  calls : nat;
  trace : list (Call * bool)
}.

Definition set_isScanning (b : bool) (w : World) : World :=
  {| isScanning := b; scanInterval := scanInterval w; feeevents := feeevents w;
     scanprogresses := scanprogresses w; calls := calls w; trace := trace w |}.

Definition set_scanInterval (i : option Z) (w : World) : World :=
  {| isScanning := isScanning w; scanInterval := i; feeevents := feeevents w;
     scanprogresses := scanprogresses w; calls := calls w; trace := trace w |}.

Definition set_feeevents (l : list FeeEvent.t) (w : World) : World :=
  {| isScanning := isScanning w; scanInterval := scanInterval w; feeevents := l;
     scanprogresses := scanprogresses w; calls := calls w; trace := trace w |}.

Definition set_scanprogresses (l : list ScanProgress.t) (w : World) : World :=
  {| isScanning := isScanning w; scanInterval := scanInterval w; feeevents := feeevents w;
     scanprogresses := l; calls := calls w; trace := trace w |}.

(** One more call in the history; [ok] tells whether it was answered. *)
Definition record (c : Call) (ok : bool) (w : World) : World :=
  {| isScanning := isScanning w; scanInterval := scanInterval w; feeevents := feeevents w;
     scanprogresses := scanprogresses w; calls := S (calls w);
     trace := trace w ++ [(c, ok)] |}.

(** The script of the outside world.  Every field indexed by [nat] is
    asked at the number of calls made so far. *)
Record Env := {
  provider_getCode : nat -> option string;
  provider_getBlockNumber : nat -> option Z;
  provider_getBlock : nat -> Z -> option Z;
  contract_queryFilter : nat -> Z -> Z -> option (list Event.t);
  utils_getAddress : string -> option string;
  storage_down : nat -> bool;
  clock : nat -> Z
}.

(** ** Strings *)

Definition lowerAscii (c : ascii) : ascii :=
  let n := nat_of_ascii c in
  if (Nat.leb 65 n && Nat.leb n 90)%bool then ascii_of_nat (n + 32) else c.

(** [String.prototype.toLowerCase] on ASCII text. *)
Fixpoint toLowerCase (s : string) : string :=
  match s with
  | EmptyString => EmptyString
  | String c r => String (lowerAscii c) (toLowerCase r)
  end.

(** ** Collections *)

(** [ScanProgressModel.findOne({ chain })] on the collection. *)
Definition findProgress (chain : string) (coll : list ScanProgress.t) : option ScanProgress.t :=
  find (fun p => String.eqb (ScanProgress.chain p) chain) coll.

(** The stored document of [doc]'s chain replaced by [doc]. *)
Definition replaceProgress (doc : ScanProgress.t) (coll : list ScanProgress.t) : list ScanProgress.t :=
  map (fun p => if String.eqb (ScanProgress.chain p) (ScanProgress.chain doc) then doc else p) coll.

(** What the database does with [insertMany(docs, { ordered: false })]
    under the unique index on (transactionHash, logIndex) that [FeeEvent]
    declares, as the comments of [storeEvents] rely on it: a document
    whose key is already stored (or was inserted earlier in the same
    call) is a write error and is left out, every other document is
    inserted; the insert goes on after a write error. *)
Fixpoint insertUnordered (docs coll : list FeeEvent.t) (writeErrors : nat)
  : list FeeEvent.t * nat :=
  match docs with
  | [] => (coll, writeErrors)
  | d :: rest =>
      if existsb (FeeEvent.sameKey d) coll
      then insertUnordered rest coll (S writeErrors)
      else insertUnordered rest (coll ++ [d]) writeErrors
  end.

Section Scanner.

Variable env : Env.
Variable chainConfig : ChainConfig.t.
Variable scannerConfig : ScannerConfig.t.

(** *** Primitive calls *)

(** A remote call: answered or failed by the script. *)
Definition remote {A} (c : Call) (answer : nat -> option A) : M World A :=
  fun w =>
    match answer (calls w) with
    | Some a => (Returned a, record c true w)
    | None => (Thrown (Error "remote call failed"), record c false w)
    end.

(** [new Date()]. *)
Definition now : M World Z := fun w => (Returned (clock env (calls w)), w).

(** [delay(ms)]: a timer, nothing else happens. *)
Definition delay (ms : Z) : M World unit :=
  fun w => (Returned tt, record (call_setTimeout ms) true w).

(** [FeeEventModel.insertMany(docs, { ordered: false })].  The documents
    are validated against the schema first; an unordered insert leaves
    out, without an error, every document that fails, and does not ask
    the database when none is left. *)
Definition FeeEventModel_insertMany (docs : list FeeEvent.t) : M World unit :=
  fun w =>
    match filter FeeEvent.valid docs with
    | [] => (Returned tt, w)
    | validDocs =>
        if storage_down env (calls w)
        then (Thrown (Error "storage unavailable"), record (call_insertMany docs) false w)
        else
          let '(coll, writeErrors) := insertUnordered validDocs (feeevents w) 0 in
          let w1 := record (call_insertMany docs) true (set_feeevents coll w) in
          match writeErrors with
          | O => (Returned tt, w1)
          | S _ => (Thrown (MongoBulkWriteError 11000 writeErrors), w1)
          end
    end.

Definition ScanProgressModel_findOne (chain : string) : M World (option ScanProgress.t) :=
  fun w =>
    if storage_down env (calls w)
    then (Thrown (Error "storage unavailable"), record (call_findOne chain) false w)
    else (Returned (findProgress chain (scanprogresses w)), record (call_findOne chain) true w).

(** [ScanProgressModel.create(doc)] under the unique index on [chain].
    The document is validated against the schema before the database is
    asked: a document that fails is refused with a validation error and
    nothing is written. *)
Definition ScanProgressModel_create (doc : ScanProgress.t) : M World unit :=
  fun w =>
    if negb (ScanProgress.valid doc)
    then (Thrown (Error "ScanProgress validation failed"), w)
    else if storage_down env (calls w)
    then (Thrown (Error "storage unavailable"), record (call_create doc) false w)
    else
      match findProgress (ScanProgress.chain doc) (scanprogresses w) with
      | Some _ => (Thrown (MongoBulkWriteError 11000 1), record (call_create doc) false w)
      | None =>
          (Returned tt,
           record (call_create doc) true (set_scanprogresses (scanprogresses w ++ [doc]) w))
      end.

(** [progress.save()] of a loaded document. *)
Definition save (doc : ScanProgress.t) : M World unit :=
  fun w =>
    if storage_down env (calls w)
    then (Thrown (Error "storage unavailable"), record (call_save doc) false w)
    else
      match findProgress (ScanProgress.chain doc) (scanprogresses w) with
      | None => (Thrown (Error "document not found"), record (call_save doc) false w)
      | Some _ =>
          (Returned tt,
           record (call_save doc) true
             (set_scanprogresses (replaceProgress doc (scanprogresses w)) w))
      end.

(** *** BlockchainUtils *)

Fixpoint getCurrentBlockNumber_loop (n : nat) (attempt maxRetries : Z) : M World Z :=
  match n with
  | O => throw (Error "Unexpected error in getCurrentBlockNumber")
  | S n' =>
      try_catch (remote call_getBlockNumber (provider_getBlockNumber env))
        (fun _ =>
           if attempt =? maxRetries
           then throw (Error "Failed to get current block number")
           else delay (1000 * attempt) ;;
                getCurrentBlockNumber_loop n' (attempt + 1) maxRetries)
  end.

Definition BlockchainUtils_getCurrentBlockNumber (maxRetries : Z) : M World Z :=
  getCurrentBlockNumber_loop (Z.to_nat maxRetries) 1 maxRetries.

Definition getBlockTimestamp (blockNumber : Z) : M World Z :=
  try_catch
    (seconds <- remote (call_getBlock blockNumber)
                  (fun n => provider_getBlock env n blockNumber) ;;
     ret (seconds * 1000))
    (fun _ => now).

(** [ethers.utils.getAddress(address.toLowerCase())]; it throws on a
    string that is not an address. *)
Definition normalizeAddress (address : string) : M World string :=
  match utils_getAddress env (toLowerCase address) with
  | Some a => ret a
  | None => throw (Error "invalid address")
  end.

Definition bigNumberToString (bn : Z) : string :=
  NilZero.string_of_int (Z.to_int bn).

(** *** FeeCollectorService *)

Definition loadFeeCollectorEvents (fromBlock toBlock : Z) : M World (list Event.t) :=
  try_catch
    (remote (call_queryFilter fromBlock toBlock)
       (fun n => contract_queryFilter env n fromBlock toBlock))
    (fun _ => throw (Error "Event loading failed")).

(** The body of the loop of [parseFeeCollectorEvents] for one entry:
    [None] when the entry is skipped. *)
Definition parseOne (event : Event.t) : M World (option ParsedFeeCollectedEvent.t) :=
  try_catch
    (match Event.parseLog event with
     | None => throw (Error "parseLog failed")
     | Some parsedLog =>
         if (String.eqb (LogDescription.arg0 parsedLog) ""
             || String.eqb (LogDescription.arg1 parsedLog) "")%bool
         then ret None
         else
           timestamp <- getBlockTimestamp (Event.blockNumber event) ;;
           token <- normalizeAddress (LogDescription.arg0 parsedLog) ;;
           integrator <- normalizeAddress (LogDescription.arg1 parsedLog) ;;
           ret (Some {| ParsedFeeCollectedEvent.token := token;
                        ParsedFeeCollectedEvent.integrator := integrator;
                        ParsedFeeCollectedEvent.integratorFee := LogDescription.arg2 parsedLog;
                        ParsedFeeCollectedEvent.lifiFee := LogDescription.arg3 parsedLog;
                        ParsedFeeCollectedEvent.blockNumber := Event.blockNumber event;
                        ParsedFeeCollectedEvent.transactionHash := Event.transactionHash event;
                        ParsedFeeCollectedEvent.logIndex :=
                          match Event.logIndex event with Some i => i | None => 0 end;
                        ParsedFeeCollectedEvent.timestamp := timestamp |})
     end)
    (fun _ => ret None).

Fixpoint parseFeeCollectorEvents (events : list Event.t)
  : M World (list ParsedFeeCollectedEvent.t) :=
  match events with
  | [] => ret []
  | event :: rest =>
      parsed <- parseOne event ;;
      others <- parseFeeCollectorEvents rest ;;
      ret (match parsed with Some p => p :: others | None => others end)
  end.

Definition FeeCollectorService_getCurrentBlockNumber : M World Z :=
  BlockchainUtils_getCurrentBlockNumber 3.

Definition validateContract : M World bool :=
  try_catch
    (code <- remote call_getCode (provider_getCode env) ;;
     ret (negb (String.eqb code "0x")))
    (fun _ => ret false).

(** *** EventScanner *)

Definition chainName : string := toLowerCase (ChainConfig.name chainConfig).

Definition toFeeEvent (event : ParsedFeeCollectedEvent.t) : FeeEvent.t :=
  {| FeeEvent.token := ParsedFeeCollectedEvent.token event;
     FeeEvent.integrator := ParsedFeeCollectedEvent.integrator event;
     FeeEvent.integratorFee := bigNumberToString (ParsedFeeCollectedEvent.integratorFee event);
     FeeEvent.lifiFee := bigNumberToString (ParsedFeeCollectedEvent.lifiFee event);
     FeeEvent.blockNumber := ParsedFeeCollectedEvent.blockNumber event;
     FeeEvent.transactionHash := ParsedFeeCollectedEvent.transactionHash event;
     FeeEvent.logIndex := ParsedFeeCollectedEvent.logIndex event;
     FeeEvent.timestamp := ParsedFeeCollectedEvent.timestamp event;
     FeeEvent.chain := chainName |}.

Definition storeEvents (events : list ParsedFeeCollectedEvent.t) : M World unit :=
  if Nat.eqb (List.length events) 0 then ret tt
  else
    let feeEvents := map toFeeEvent events in
    try_catch (FeeEventModel_insertMany feeEvents)
      (fun error => if code_is error 11000 then ret tt else throw error).

Definition scanBatch (fromBlock toBlock : Z) : M World Z :=
  events <- loadFeeCollectorEvents fromBlock toBlock ;;
  if Nat.eqb (List.length events) 0 then ret 0
  else
    parsedEvents <- parseFeeCollectorEvents events ;;
    storeEvents parsedEvents ;;
    ret (Z.of_nat (List.length parsedEvents)).

Definition initializeScanProgress : M World unit :=
  existing <- ScanProgressModel_findOne chainName ;;
  match existing with
  | None =>
      date <- now ;;
      ScanProgressModel_create
        {| ScanProgress.chain := chainName;
           ScanProgress.lastScannedBlock := ChainConfig.startBlock chainConfig - 1;
           ScanProgress.lastScanTime := date;
           ScanProgress.totalEventsFound := 0;
           ScanProgress.totalBlocksScanned := 0;
           ScanProgress.updatedAt := date |}
  | Some _ => ret tt
  end.

Definition getScanProgress : M World ScanProgress.t :=
  progress <- ScanProgressModel_findOne chainName ;;
  match progress with
  | None => throw (Error "Scan progress not found for chain")
  | Some p => ret p
  end.

(** The local variables of one call of [scanForNewEvents]: the loaded
    progress document and the three [let]s. *)
Record Locals := {
  progress : ScanProgress.t;
  fromBlock : Z;
  totalEventsFound : Z;
  totalBlocksScanned : Z
}.

Definition Frame : Type := Locals * World.

Definition inWorld {A} (m : M World A) : M Frame A :=
  fun s =>
    let '(r, w) := m (snd s) in (r, (fst s, w)).

Definition locals : M Frame Locals := fun s => (Returned (fst s), s).

Definition assign (f : Locals -> Locals) : M Frame unit :=
  fun s => (Returned tt, (f (fst s), snd s)).

Definition set_fromBlock (b : Z) (l : Locals) : Locals :=
  {| progress := progress l; fromBlock := b;
     totalEventsFound := totalEventsFound l;
     totalBlocksScanned := totalBlocksScanned l |}.

Definition add_totals (events blocks : Z) (l : Locals) : Locals :=
  {| progress := progress l; fromBlock := fromBlock l;
     totalEventsFound := totalEventsFound l + events;
     totalBlocksScanned := totalBlocksScanned l + blocks |}.

Definition set_progress (p : ScanProgress.t) (l : Locals) : Locals :=
  {| progress := p; fromBlock := fromBlock l;
     totalEventsFound := totalEventsFound l;
     totalBlocksScanned := totalBlocksScanned l |}.

(** The four statements shared by the [try] block of the loop and by the
    retried operation: scan the batch, add to the totals, update the
    progress document, save it. *)
Definition attemptBatch (toBlock : Z) : M Frame unit :=
  l <- locals ;;
  batchResult <- inWorld (scanBatch (fromBlock l) toBlock) ;;
  assign (add_totals batchResult (toBlock - fromBlock l + 1)) ;;
  date <- inWorld now ;;
  assign (fun l' =>
            set_progress
              (ScanProgress.updateProgress (progress l') toBlock batchResult
                 (toBlock - fromBlock l + 1) date) l') ;;
  l2 <- locals ;;
  inWorld (save (progress l2)).

Fixpoint retryWithBackoff_loop (n : nat) (attempt : Z) (operation : M Frame unit)
  : M Frame unit :=
  match n with
  | O => ret tt
  | S n' =>
      try_catch operation
        (fun error =>
           if attempt =? ScannerConfig.maxRetries scannerConfig
           then throw error
           else
             inWorld (delay (ScannerConfig.retryDelayMs scannerConfig * 2 ^ (attempt - 1))) ;;
             retryWithBackoff_loop n' (attempt + 1) operation)
  end.

(** [for (attempt = 1; attempt <= maxRetries; attempt++)]. *)
Definition retryWithBackoff (operation : M Frame unit) : M Frame unit :=
  retryWithBackoff_loop (Z.to_nat (ScannerConfig.maxRetries scannerConfig)) 1 operation.

(** One turn of the [while] loop. *)
Definition scanStep (currentBlock : Z) : M Frame unit :=
  l <- locals ;;
  let toBlock := Z.min (fromBlock l + ScannerConfig.batchSize scannerConfig - 1) currentBlock in
  try_catch
    (attemptBatch toBlock ;;
     assign (set_fromBlock (toBlock + 1)) ;;
     if toBlock + 1 <=? currentBlock then inWorld (delay 500) else ret tt)
    (fun _ =>
       retryWithBackoff (attemptBatch toBlock) ;;
       assign (set_fromBlock (toBlock + 1))).

Fixpoint scanLoop (fuel : nat) (currentBlock : Z) : M Frame unit :=
  fun s =>
    if fromBlock (fst s) <=? currentBlock
    then
      match fuel with
      | O => (Running, s)
      | S fuel' => (scanStep currentBlock ;; scanLoop fuel' currentBlock) s
      end
    else (Returned tt, s).

(** Runs a computation on the locals of a call and drops them at the end. *)
Definition withLocals {A} (l : Locals) (m : M Frame A) : M World A :=
  fun w => let '(r, s) := m (l, w) in (r, snd s).

Definition scanCycle (fuel : nat) : M World unit :=
  progress <- getScanProgress ;;
  currentBlock <- FeeCollectorService_getCurrentBlockNumber ;;
  if ScanProgress.lastScannedBlock progress >=? currentBlock then ret tt
  else
    withLocals
      {| progress := progress;
         fromBlock := ScanProgress.lastScannedBlock progress + 1;
         totalEventsFound := 0;
         totalBlocksScanned := 0 |}
      (scanLoop fuel currentBlock).

Definition scanForNewEvents (fuel : nat) : M World unit :=
  fun w =>
    if isScanning w then (Returned tt, w)
    else
      (modify (set_isScanning true) ;;
       try_finally
         (try_catch (scanCycle fuel) (fun error => throw error))
         (modify (set_isScanning false))) w.

(** [start]; the periodic callback itself is run by the timer, the model
    only records that the interval is installed. *)
Definition start (fuel : nat) : M World unit :=
  try_catch
    (isValid <- validateContract ;;
     if negb isValid then ret tt
     else
       initializeScanProgress ;;
       try_catch (scanForNewEvents fuel) (fun _ => ret tt) ;;
       try_catch (scanForNewEvents fuel) (fun _ => ret tt) ;;
       modify (set_scanInterval (Some (ScannerConfig.intervalMs scannerConfig))))
    (fun _ => ret tt).

Definition stop : M World unit := modify (set_scanInterval None).

Definition getStats : M World (ScanProgress.Stats * bool) :=
  progress <- getScanProgress ;;
  w <- get ;;
  ret (ScanProgress.getStats progress, isScanning w).

End Scanner.

(** ** Observations on a call history *)

(** The block ranges of the raw-event fetches, in the order of the calls. *)
Definition fetchCalls (tr : list (Call * bool)) : list (Z * Z) :=
  flat_map (fun c => match fst c with
                     | call_queryFilter f t => [(f, t)]
                     | _ => []
                     end) tr.

(** The back-off delays, in the order of the calls. *)
Definition delays (tr : list (Call * bool)) : list Z :=
  flat_map (fun c => match fst c with
                     | call_setTimeout ms => [ms]
                     | _ => []
                     end) tr.

(** The blocks of the progress documents that were saved, in order. *)
Definition savedBlocks (tr : list (Call * bool)) : list Z :=
  flat_map (fun c => match c with
                     | (call_save doc, true) => [ScanProgress.lastScannedBlock doc]
                     | _ => []
                     end) tr.

(** The fetches that were answered. *)
Definition fetched (tr : list (Call * bool)) : list (Z * Z) :=
  flat_map (fun c => match c with
                     | (call_queryFilter f t, true) => [(f, t)]
                     | _ => []
                     end) tr.

(** The stored progress of a chain. *)
Definition lastScanned (chain : string) (w : World) : option Z :=
  option_map ScanProgress.lastScannedBlock (findProgress chain (scanprogresses w)).

(** How many stored events carry the natural key [k]. *)
Definition countKey (k : string * Z) (coll : list FeeEvent.t) : nat :=
  List.length (filter (fun e => FeeEvent.keyEqb k (FeeEvent.key e)) coll).

Definition hasKey (k : string * Z) (coll : list FeeEvent.t) : bool :=
  existsb (fun e => FeeEvent.keyEqb k (FeeEvent.key e)) coll.

(** The entries of [chainLog] in the blocks [from .. to]. *)
Definition logsIn (chainLog : list Event.t) (from to : Z) : list Event.t :=
  filter (fun e => (from <=? Event.blockNumber e) && (Event.blockNumber e <=? to))%bool
    chainLog.

(** The chain is the fixed log [chainLog]: a fetch that is answered
    gives the entries of its block range. *)
Definition ConsistentChain (env : Env) (chainLog : list Event.t) : Prop :=
  forall n f t events,
    contract_queryFilter env n f t = Some events -> events = logsIn chainLog f t.

(** An entry that [parseFeeCollectorEvents] does not skip. *)
Definition decodable (env : Env) (raw : Event.t) : Prop :=
  exists args,
    Event.parseLog raw = Some args /\
    String.eqb (LogDescription.arg0 args) "" = false /\
    String.eqb (LogDescription.arg1 args) "" = false /\
    utils_getAddress env (toLowerCase (LogDescription.arg0 args)) <> None /\
    utils_getAddress env (toLowerCase (LogDescription.arg1 args)) <> None.

(** The natural key under which an entry is stored. *)
Definition rawKey (raw : Event.t) : string * Z :=
  (Event.transactionHash raw,
   match Event.logIndex raw with Some i => i | None => 0 end).

(** Every decodable entry of the blocks [lo + 1 .. hi] is stored. *)
Definition covered (env : Env) (chainLog : list Event.t) (lo hi : Z) (w : World) : Prop :=
  forall raw,
    In raw chainLog -> lo < Event.blockNumber raw <= hi -> decodable env raw ->
    hasKey (rawKey raw) (feeevents w) = true.

(** The natural key of a decoded event. *)
Definition eventKey (e : ParsedFeeCollectedEvent.t) : string * Z :=
  (ParsedFeeCollectedEvent.transactionHash e, ParsedFeeCollectedEvent.logIndex e).

(** A decoded event whose document passes the schema of [FeeEvent]:
    its addresses and its transaction hash are not empty, and neither
    is the lower-cased chain name that [storeEvents] writes to it. *)
Definition storable (cc : ChainConfig.t) (e : ParsedFeeCollectedEvent.t) : bool :=
  negb (String.eqb (ParsedFeeCollectedEvent.token e) "")
  && negb (String.eqb (ParsedFeeCollectedEvent.integrator e) "")
  && negb (String.eqb (ParsedFeeCollectedEvent.transactionHash e) "")
  && negb (String.eqb (chainName cc) "").

(** An entry that [parseFeeCollectorEvents] does not skip and whose
    document passes the schema. *)
Definition storableEntry (env : Env) (cc : ChainConfig.t) (raw : Event.t) : Prop :=
  exists args token integrator,
    Event.parseLog raw = Some args /\
    String.eqb (LogDescription.arg0 args) "" = false /\
    String.eqb (LogDescription.arg1 args) "" = false /\
    utils_getAddress env (toLowerCase (LogDescription.arg0 args)) = Some token /\
    utils_getAddress env (toLowerCase (LogDescription.arg1 args)) = Some integrator /\
    token <> "" /\ integrator <> "" /\
    Event.transactionHash raw <> "" /\
    chainName cc <> "".

(** Every entry of the blocks [lo + 1 .. hi] that can be stored is
    stored. *)
Definition secured (env : Env) (cc : ChainConfig.t) (chainLog : list Event.t) (lo hi : Z)
  (w : World) : Prop :=
  forall raw,
    In raw chainLog -> lo < Event.blockNumber raw <= hi -> storableEntry env cc raw ->
    hasKey (rawKey raw) (feeevents w) = true.

(** No stored key is lost. *)
Definition grows (w w' : World) : Prop :=
  forall k, hasKey k (feeevents w) = true -> hasKey k (feeevents w') = true.

(** The stored progress of [chain] is at some block [b], and every
    decodable entry of the blocks [lo + 1 .. b] is stored. *)
Definition safe (env : Env) (chainLog : list Event.t) (chain : string) (lo : Z)
  (w : World) : Prop :=
  exists b, lastScanned chain w = Some b /\ covered env chainLog lo b w.

(** The stored progress of [chain] is at some block [b], and every
    entry of the blocks [lo + 1 .. b] that can be stored is stored. *)
Definition safeFor (env : Env) (cc : ChainConfig.t) (chainLog : list Event.t)
  (chain : string) (lo : Z) (w : World) : Prop :=
  exists b, lastScanned chain w = Some b /\ secured env cc chainLog lo b w.

(** Between two attempts on the batch [f .. t]: the stored progress is
    still at [f - 1], the loaded document is at [t] at most. *)
Definition midBatch (env : Env) (cc : ChainConfig.t) (chainLog : list Event.t)
  (chain : string) (lo f t : Z) (s : Frame) : Prop :=
  ScanProgress.chain (progress (fst s)) = chain /\
  fromBlock (fst s) = f /\
  ScanProgress.lastScannedBlock (progress (fst s)) <= t /\
  lastScanned chain (snd s) = Some (f - 1) /\
  secured env cc chainLog lo (f - 1) (snd s).

(** After an attempt on the batch [f .. t] that returned: the loaded
    and the stored progress are at [t], the entries up to [t] stored. *)
Definition batchDone (env : Env) (cc : ChainConfig.t) (chainLog : list Event.t)
  (chain : string) (lo f t : Z) (s : Frame) : Prop :=
  ScanProgress.chain (progress (fst s)) = chain /\
  fromBlock (fst s) = f /\
  ScanProgress.lastScannedBlock (progress (fst s)) = t /\
  lastScanned chain (snd s) = Some t /\
  secured env cc chainLog lo t (snd s).

(** At the head of the loop: everything before [fromBlock] is done. *)
Definition atLoopHead (env : Env) (cc : ChainConfig.t) (chainLog : list Event.t)
  (chain : string) (lo : Z) (s : Frame) : Prop :=
  batchDone env cc chainLog chain lo (fromBlock (fst s)) (fromBlock (fst s) - 1) s.

(** The two collections of the database. *)
Definition collections (w : World) : list ScanProgress.t * list FeeEvent.t :=
  (scanprogresses w, feeevents w).

(** The partition of the blocks [from .. height] into consecutive
    batches of at most [batchSize] blocks, lowest first. *)
Inductive Partition (batchSize height : Z) : Z -> list (Z * Z) -> Prop :=
| Partition_done : forall from,
    height < from -> Partition batchSize height from []
| Partition_batch : forall from rest,
    from <= height ->
    Partition batchSize height (Z.min (from + batchSize - 1) height + 1) rest ->
    Partition batchSize height from
      ((from, Z.min (from + batchSize - 1) height) :: rest).

(** A run of scan cycles, one budget per cycle. *)
Fixpoint scanCycles (env : Env) (cc : ChainConfig.t) (sc : ScannerConfig.t)
  (fuels : list nat) (w : World) : World :=
  match fuels with
  | [] => w
  | fuel :: rest => scanCycles env cc sc rest (snd (scanForNewEvents env cc sc fuel w))
  end.

(** An outside world without failures while the chain is at [height]. *)
Definition Reliable (env : Env) (height : Z) : Prop :=
  (forall n, provider_getBlockNumber env n = Some height) /\
  (forall n f t, contract_queryFilter env n f t <> None) /\
  (forall n, storage_down env n = false).

(** ** Scenarios *)

Module Scenario.

Definition polygon : ChainConfig.t :=
  {| ChainConfig.name := "Polygon";
     ChainConfig.chainId := 137;
     ChainConfig.rpcUrl := "https://polygon-rpc.com";
     ChainConfig.contractAddress := "0xbD6C7B0d2f68c2b7805d88388319cfB6EcB50eA9";
     ChainConfig.startBlock := 70000000 |}.

Definition config (batchSize maxRetries : Z) : ScannerConfig.t :=
  {| ScannerConfig.batchSize := batchSize;
     ScannerConfig.intervalMs := 5000;
     ScannerConfig.maxRetries := maxRetries;
     ScannerConfig.retryDelayMs := 1000 |}.

Definition progressAt (block events blocks : Z) : ScanProgress.t :=
  {| ScanProgress.chain := "polygon";
     ScanProgress.lastScannedBlock := block;
     ScanProgress.lastScanTime := 0;
     ScanProgress.totalEventsFound := events;
     ScanProgress.totalBlocksScanned := blocks;
     ScanProgress.updatedAt := 0 |}.

Definition world (stored : list FeeEvent.t) (progresses : list ScanProgress.t) : World :=
  {| isScanning := false; scanInterval := None; feeevents := stored;
     scanprogresses := progresses; calls := 0; trace := [] |}.

(** A [FeesCollected] entry of block [block]. *)
Definition entry (block : Z) (hash : string) (index : Z) : Event.t :=
  {| Event.blockNumber := block;
     Event.transactionHash := hash;
     Event.logIndex := Some index;
     Event.parseLog :=
       Some {| LogDescription.arg0 := "0x2791Bca1f2de4661ED88A30C99A7a9449Aa84174";
               LogDescription.arg1 := "0x1234567890123456789012345678901234567890";
               LogDescription.arg2 := 1000000;
               LogDescription.arg3 := 500000 |} |}.

(** A chain at [height] with the entries [chainLog]; the fetch fails
    when [fetchFails] says so, nothing else fails. *)
Definition chain (height : Z) (chainLog : list Event.t)
  (fetchFails : nat -> Z -> Z -> bool) : Env :=
  {| provider_getCode := fun _ => Some "0x6080";
     provider_getBlockNumber := fun _ => Some height;
     provider_getBlock := fun _ b => Some b;
     contract_queryFilter :=
       fun n from to => if fetchFails n from to then None else Some (logsIn chainLog from to);
     utils_getAddress := fun a => Some a;
     storage_down := fun _ => false;
     clock := fun n => Z.of_nat n |}.

Definition never (_ : nat) (_ _ : Z) : bool := false.

(** No contract code at the configured address. *)
Definition noCode (e : Env) : Env :=
  {| provider_getCode := fun _ => Some "0x";
     provider_getBlockNumber := provider_getBlockNumber e;
     provider_getBlock := provider_getBlock e;
     contract_queryFilter := contract_queryFilter e;
     utils_getAddress := utils_getAddress e;
     storage_down := storage_down e;
     clock := clock e |}.

(** The endpoint does not answer [getCode]. *)
Definition unreachable (e : Env) : Env :=
  {| provider_getCode := fun _ => None;
     provider_getBlockNumber := provider_getBlockNumber e;
     provider_getBlock := provider_getBlock e;
     contract_queryFilter := contract_queryFilter e;
     utils_getAddress := utils_getAddress e;
     storage_down := storage_down e;
     clock := clock e |}.

(** A decoded event of block [block]. *)
Definition parsedEvent (block : Z) (hash : string) (index : Z) : ParsedFeeCollectedEvent.t :=
  {| ParsedFeeCollectedEvent.token := "0x2791bca1f2de4661ed88a30c99a7a9449aa84174";
     ParsedFeeCollectedEvent.integrator := "0x1234567890123456789012345678901234567890";
     ParsedFeeCollectedEvent.integratorFee := 1000000;
     ParsedFeeCollectedEvent.lifiFee := 500000;
     ParsedFeeCollectedEvent.blockNumber := block;
     ParsedFeeCollectedEvent.transactionHash := hash;
     ParsedFeeCollectedEvent.logIndex := index;
     ParsedFeeCollectedEvent.timestamp := 0 |}.

(** The stored event of the duplicate test of the repository. *)
Definition storedEvent : FeeEvent.t :=
  {| FeeEvent.token := "0x2791bca1f2de4661ed88a30c99a7a9449aa84174";
     FeeEvent.integrator := "0x1234567890123456789012345678901234567890";
     FeeEvent.integratorFee := "1000000";
     FeeEvent.lifiFee := "500000";
     FeeEvent.blockNumber := 70000001;
     FeeEvent.transactionHash := "0xabc123";
     FeeEvent.logIndex := 0;
     FeeEvent.timestamp := 0;
     FeeEvent.chain := "polygon" |}.

End Scenario.

(** ** More of the code: parsing, the models' methods, the REST layer *)

(** [parseFeeCollectorEvents] keeps the entry [raw]: the log parses,
    both addresses are truthy and both normalise. *)
Definition decodableb (env : Env) (raw : Event.t) : bool :=
  match Event.parseLog raw with
  | None => false
  | Some args =>
      negb (String.eqb (LogDescription.arg0 args) ""
            || String.eqb (LogDescription.arg1 args) "")
      && match utils_getAddress env (toLowerCase (LogDescription.arg0 args)) with
         | Some _ => true
         | None => false
         end
      && match utils_getAddress env (toLowerCase (LogDescription.arg1 args)) with
         | Some _ => true
         | None => false
         end
  end.

(** How many entries of the blocks [from .. to] of [chainLog] are
    decoded. *)
Definition decodedIn (env : Env) (chainLog : list Event.t) (from to : Z) : Z :=
  Z.of_nat (List.length (filter (decodableb env) (logsIn chainLog from to))).

(** The event [pe] is what the entry [raw] decodes to, its timestamp
    left open. *)
Definition decodesTo (env : Env) (raw : Event.t) (pe : ParsedFeeCollectedEvent.t) : Prop :=
  exists args,
    Event.parseLog raw = Some args /\
    utils_getAddress env (toLowerCase (LogDescription.arg0 args))
    = Some (ParsedFeeCollectedEvent.token pe) /\
    utils_getAddress env (toLowerCase (LogDescription.arg1 args))
    = Some (ParsedFeeCollectedEvent.integrator pe) /\
    ParsedFeeCollectedEvent.integratorFee pe = LogDescription.arg2 args /\
    ParsedFeeCollectedEvent.lifiFee pe = LogDescription.arg3 args /\
    ParsedFeeCollectedEvent.blockNumber pe = Event.blockNumber raw /\
    (ParsedFeeCollectedEvent.transactionHash pe, ParsedFeeCollectedEvent.logIndex pe)
    = rawKey raw.

(** The loaded progress document is the stored one. *)
Definition synced (s : Frame) : Prop :=
  findProgress (ScanProgress.chain (progress (fst s))) (scanprogresses (snd s))
  = Some (progress (fst s)).

(** The code at the contract address is there whenever it is asked for. *)
Definition Deployed (env : Env) : Prop :=
  forall n, exists code,
    provider_getCode env n = Some code /\ String.eqb code "0x" = false.

(** *** FeeEvent: [getTotalFee] and [isHighValue]

    [BigInt] is the constructor of the runtime, applied to a string:
    [None] when it throws.  A BigInt is an integer; its [toString] is
    the decimal text that [bigNumberToString] gives. *)
Module FeeEventMethods.

Definition getTotalFee (BigInt : string -> option Z) (this : FeeEvent.t) : option string :=
  match BigInt (FeeEvent.integratorFee this) with
  | None => None
  | Some integrator =>
      match BigInt (FeeEvent.lifiFee this) with
      | None => None
      | Some lifi => Some (bigNumberToString (integrator + lifi))
      end
  end.

Definition defaultThreshold : string := "1000000000000000000".

Definition isHighValue (BigInt : string -> option Z) (threshold : string)
  (this : FeeEvent.t) : option bool :=
  match getTotalFee BigInt this with
  | None => None
  | Some total =>
      match BigInt total with
      | None => None
      | Some t =>
          match BigInt threshold with
          | None => None
          | Some limit => Some (t >? limit)
          end
      end
  end.

(** The reading of decimal text: an optional minus sign and digits. *)
Definition decimalBigInt (s : string) : option Z :=
  option_map Z.of_int (NilZero.int_of_string s).

End FeeEventMethods.

(** *** DatabaseConfig: [connect]

    [answers k] tells whether the [k]-th call of [mongoose.connect]
    succeeds. *)
Module Database.

Record State := {
  connection : bool;
  attempts : nat;
  waits : list Z
}.

Definition initial : State := {| connection := false; attempts := 0; waits := [] |}.

Definition mongoose_connect (answers : nat -> bool) : M State unit :=
  fun s =>
    let s1 := {| connection := connection s; attempts := S (attempts s); waits := waits s |} in
    if answers (attempts s) then (Returned tt, s1)
    else (Thrown (Error "connection failed"), s1).

Definition set_connection : M State unit :=
  modify (fun s => {| connection := true; attempts := attempts s; waits := waits s |}).

Definition wait (ms : Z) : M State unit :=
  modify (fun s => {| connection := connection s; attempts := attempts s;
                      waits := waits s ++ [ms] |}).

(** [connect(uri, retries)]; [n] is the number of retries left, which
    is positive exactly when [retries > 0]. *)
Fixpoint connect_loop (answers : nat -> bool) (n : nat) : M State unit :=
  try_catch (mongoose_connect answers ;; set_connection)
    (fun error =>
       match n with
       | S n' => wait 5000 ;; connect_loop answers n'
       | O => throw error
       end).

Definition connect (answers : nat -> bool) (retries : Z) : M State unit :=
  connect_loop answers (Z.to_nat retries).

End Database.

(** *** Application: the rate limiter of [createRateLimit] *)
Module RateLimit.

Record Client := {
  requests : Z;
  resetTime : Z
}.

Definition windowMs : Z := 60 * 1000.

(** [clients.get(clientId)]. *)
Fixpoint get (clientId : string) (clients : list (string * Client)) : option Client :=
  match clients with
  | [] => None
  | (k, c) :: rest => if String.eqb k clientId then Some c else get clientId rest
  end.

(** [clients.set(clientId, client)]: a known key keeps its place. *)
Fixpoint set (clientId : string) (client : Client) (clients : list (string * Client))
  : list (string * Client) :=
  match clients with
  | [] => [(clientId, client)]
  | (k, c) :: rest =>
      if String.eqb k clientId then (k, client) :: rest
      else (k, c) :: set clientId client rest
  end.

Inductive Outcome := Next | TooManyRequests.

(** [req.ip || 'unknown']. *)
Definition clientIdOf (ip : option string) : string :=
  match ip with
  | Some s => if String.eqb s "" then "unknown" else s
  | None => "unknown"
  end.

(** [client.requests > maxRequests]; [maxRequests] is [None] when
    [parseInt] gave NaN. *)
Definition exceeds (requests : Z) (maxRequests : option Z) : bool :=
  match maxRequests with
  | Some m => requests >? m
  | None => false
  end.

(** The middleware on one request at time [now]. *)
Definition handle (maxRequests : option Z) (ip : option string) (now : Z)
  (clients : list (string * Client)) : Outcome * list (string * Client) :=
  let clientId := clientIdOf ip in
  let client :=
    match get clientId clients with
    | Some c =>
        if now >? resetTime c
        then {| requests := 0; resetTime := now + windowMs |}
        else c
    | None => {| requests := 0; resetTime := now + windowMs |}
    end in
  let client := {| requests := requests client + 1; resetTime := resetTime client |} in
  (if exceeds (requests client) maxRequests then TooManyRequests else Next,
   set clientId client clients).

(** The middleware on a sequence of requests. *)
Fixpoint serve (maxRequests : option Z) (reqs : list (option string * Z))
  (clients : list (string * Client)) : list Outcome * list (string * Client) :=
  match reqs with
  | [] => ([], clients)
  | (ip, now) :: rest =>
      let '(o, clients1) := handle maxRequests ip now clients in
      let '(os, clients2) := serve maxRequests rest clients1 in
      (o :: os, clients2)
  end.

(** The requests of the client [clientId] among [reqs]. *)
Definition mine (clientId : string) (reqs : list (option string * Z))
  : list (option string * Z) :=
  filter (fun r => String.eqb (clientIdOf (fst r)) clientId) reqs.

(** The outcomes, among [outs], of the requests of the client
    [clientId]. *)
Definition answersTo (clientId : string) (reqs : list (option string * Z))
  (outs : list Outcome) : list Outcome :=
  map snd (filter (fun ro => String.eqb (clientIdOf (fst (fst ro))) clientId)
             (combine reqs outs)).

(** The outcome of the [i]-th request of a window. *)
Definition verdict (maxRequests : Z) (i : nat) : Outcome :=
  if Z.of_nat i <=? maxRequests then Next else TooManyRequests.

End RateLimit.

(** *** EventController: [getEvents]

    The handler from the validated parameters on, with the database
    answering.  [sort] is the order in which the database returns the
    matching documents for [{ blockNumber: -1, logIndex: -1 }]. *)
Module EventController.

Record Params := {
  integrator : option string;
  token : option string;
  fromBlock : option Z;
  toBlock : option Z;
  page : option Z;
  limit : option Z
}.

Record Query := {
  q_integrator : option string;
  q_token : option string;
  q_gte : option Z;
  q_lte : option Z
}.

Definition truthyString (s : option string) : bool :=
  match s with
  | Some v => negb (String.eqb v "")
  | None => false
  end.

Definition truthyNumber (n : option Z) : bool :=
  match n with
  | Some v => negb (v =? 0)
  | None => false
  end.

(** [n || d]. *)
Definition orDefault (n : option Z) (d : Z) : Z :=
  match n with
  | Some v => if v =? 0 then d else v
  | None => d
  end.

Definition buildQuery (params : Params) : Query :=
  {| q_integrator :=
       if truthyString (integrator params)
       then option_map toLowerCase (integrator params) else None;
     q_token :=
       if truthyString (token params)
       then option_map toLowerCase (token params) else None;
     q_gte :=
       if (truthyNumber (fromBlock params) || truthyNumber (toBlock params))%bool
       then (if truthyNumber (fromBlock params) then fromBlock params else None)
       else None;
     q_lte :=
       if (truthyNumber (fromBlock params) || truthyNumber (toBlock params))%bool
       then (if truthyNumber (toBlock params) then toBlock params else None)
       else None |}.

Definition matches (q : Query) (e : FeeEvent.t) : bool :=
  match q_integrator q with Some i => String.eqb (FeeEvent.integrator e) i | None => true end
  && match q_token q with Some t => String.eqb (FeeEvent.token e) t | None => true end
  && match q_gte q with Some b => b <=? FeeEvent.blockNumber e | None => true end
  && match q_lte q with Some b => FeeEvent.blockNumber e <=? b | None => true end.

(** What a request asks for, read off its parameters: an address
    parameter asks for the events whose field is the lower-cased
    parameter, [fromBlock] and [toBlock] bound the block number; an
    empty address and a bound of 0 ask for nothing. *)
Definition requested (params : Params) (e : FeeEvent.t) : Prop :=
  (forall a, integrator params = Some a -> a <> "" ->
     FeeEvent.integrator e = toLowerCase a) /\
  (forall a, token params = Some a -> a <> "" -> FeeEvent.token e = toLowerCase a) /\
  (forall b, fromBlock params = Some b -> b <> 0 -> b <= FeeEvent.blockNumber e) /\
  (forall b, toBlock params = Some b -> b <> 0 -> FeeEvent.blockNumber e <= b).

Definition requestedb (params : Params) (e : FeeEvent.t) : bool :=
  match integrator params with
  | Some a => String.eqb a "" || String.eqb (FeeEvent.integrator e) (toLowerCase a)
  | None => true
  end
  && match token params with
     | Some a => String.eqb a "" || String.eqb (FeeEvent.token e) (toLowerCase a)
     | None => true
     end
  && match fromBlock params with
     | Some b => (b =? 0) || (b <=? FeeEvent.blockNumber e)
     | None => true
     end
  && match toBlock params with
     | Some b => (b =? 0) || (FeeEvent.blockNumber e <=? b)
     | None => true
     end.

(** An event that may come before another, most recent first. *)
Definition before (a b : FeeEvent.t) : Prop :=
  FeeEvent.blockNumber b < FeeEvent.blockNumber a \/
  (FeeEvent.blockNumber b = FeeEvent.blockNumber a /\
   FeeEvent.logIndex b <= FeeEvent.logIndex a).

(** [.limit(n)] of the database: 0 is no limit, a negative limit counts
    like its absolute value. *)
Definition limitTo {A} (n : Z) (l : list A) : list A :=
  if n =? 0 then l else firstn (Z.abs_nat n) l.

(** [.skip(skip).limit(limit)]; the database refuses a negative skip. *)
Definition skipLimit {A} (skip limit : Z) (l : list A) : option (list A) :=
  if skip <? 0 then None else Some (limitTo limit (skipn (Z.to_nat skip) l)).

(** [Math.ceil(total / limit)], [limit] not 0. *)
Definition ceilDiv (total limit : Z) : Z := - ((- total) / limit).

Record Pagination := {
  p_page : Z;
  p_limit : Z;
  total : Z;
  pages : Z
}.

Inductive Response :=
| Success (data : list FeeEvent.t) (pagination : Pagination)
| Failure (status : Z) (error : string).

Definition getEvents (sort : list FeeEvent.t -> list FeeEvent.t)
  (validated : string + Params) (coll : list FeeEvent.t) : Response :=
  match validated with
  | inl message => Failure 400 message
  | inr params =>
      let query := buildQuery params in
      let page := orDefault (page params) 1 in
      let limit := orDefault (limit params) 50 in
      let skip := (page - 1) * limit in
      match skipLimit skip limit (sort (filter (matches query) coll)) with
      | None => Failure 400 "Skip value must be non-negative"
      | Some events =>
          let total := Z.of_nat (List.length (filter (matches query) coll)) in
          Success events
            {| p_page := page; p_limit := limit; total := total;
               pages := ceilDiv total limit |}
      end
  end.

(** What the schema of [validateQueryParams] lets through. *)
Definition Validated (params : Params) : Prop :=
  (forall b, fromBlock params = Some b -> 0 <= b) /\
  (forall b, toBlock params = Some b -> 0 <= b) /\
  (exists p, page params = Some p /\ 1 <= p) /\
  (exists l, limit params = Some l /\ 1 <= l <= 100).

Definition withPage (k : Z) (params : Params) : Params :=
  {| integrator := integrator params; token := token params;
     fromBlock := fromBlock params; toBlock := toBlock params;
     page := Some k; limit := limit params |}.

Definition dataOf (r : Response) : list FeeEvent.t :=
  match r with
  | Success data _ => data
  | Failure _ _ => []
  end.

(** A sort of the events for the witnesses: insertion, most recent first. *)
Definition beforeb (a b : FeeEvent.t) : bool :=
  (FeeEvent.blockNumber b <? FeeEvent.blockNumber a)
  || ((FeeEvent.blockNumber b =? FeeEvent.blockNumber a)
      && (FeeEvent.logIndex b <=? FeeEvent.logIndex a)).

Fixpoint insertDesc (e : FeeEvent.t) (l : list FeeEvent.t) : list FeeEvent.t :=
  match l with
  | [] => [e]
  | x :: rest => if beforeb e x then e :: l else x :: insertDesc e rest
  end.

Fixpoint sortDesc (l : list FeeEvent.t) : list FeeEvent.t :=
  match l with
  | [] => []
  | e :: rest => insertDesc e (sortDesc rest)
  end.

End EventController.

(** Stored events and requests for the examples of the API. *)
Module ApiScenario.

Definition event (block index : Z) (integrator : string) : FeeEvent.t :=
  {| FeeEvent.token := "0x2791Bca1f2de4661ED88A30C99A7a9449Aa84174";
     FeeEvent.integrator := integrator;
     FeeEvent.integratorFee := "1000000";
     FeeEvent.lifiFee := "500000";
     FeeEvent.blockNumber := block;
     FeeEvent.transactionHash := "0xabc123";
     FeeEvent.logIndex := index;
     FeeEvent.timestamp := 0;
     FeeEvent.chain := "polygon" |}.

Definition stored : list FeeEvent.t :=
  [event 70000001 0 "0x1234567890123456789012345678901234567890";
   event 70000003 1 "0xe0a1556ef66873d965a2f4cad06f051646be6707";
   event 70000003 4 "0x1234567890123456789012345678901234567890";
   event 70000005 2 "0xE0a1556ef66873d965A2F4caD06F051646BE6707";
   event 70000002 0 "0x1234567890123456789012345678901234567890"].

Definition request (integrator : option string) (fromBlock : option Z) (page limit : Z)
  : EventController.Params :=
  {| EventController.integrator := integrator;
     EventController.token := None;
     EventController.fromBlock := fromBlock;
     EventController.toBlock := None;
     EventController.page := Some page;
     EventController.limit := Some limit |}.

End ApiScenario.

(** An ASCII capital letter. *)
Definition isUpper (c : ascii) : bool :=
  (Nat.leb 65 (nat_of_ascii c) && Nat.leb (nat_of_ascii c) 90)%bool.

Fixpoint hasUpper (s : string) : bool :=
  match s with
  | EmptyString => false
  | String c r => (isUpper c || hasUpper r)%bool
  end.

(** ** Reasoning principles *)

(** Every run of [m] takes a state to an [R]-related one, whatever the
    completion. *)
Definition along {S A} (R : S -> S -> Prop) (m : M S A) : Prop :=
  forall s, R s (snd (m s)).

(** [m] uses no loop budget. *)
Definition total {S A} (m : M S A) : Prop :=
  forall s, fst (m s) <> Running.

(** [m] never throws. *)
Definition quiet {S A} (m : M S A) : Prop :=
  forall s e, fst (m s) <> Thrown e.

(** The property [I] of the state, once true, stays true. *)
Definition preserved {S} (I : S -> Prop) (s s' : S) : Prop := I s -> I s'.

(** The stored progress of [chain] is at block [b] or beyond. *)
Definition progressAtLeast (b : Z) (chain : string) (w : World) : Prop :=
  exists p, findProgress chain (scanprogresses w) = Some p /\
            b <= ScanProgress.lastScannedBlock p.

(** The loaded progress document belongs to [chain] and is, like the
    stored one, at block [b] or beyond. *)
Definition loadedAtLeast (b : Z) (chain : string) (s : Frame) : Prop :=
  ScanProgress.chain (progress (fst s)) = chain /\
  b <= ScanProgress.lastScannedBlock (progress (fst s)) /\
  progressAtLeast b chain (snd s).

(** What a cycle without failures keeps track of: the progress
    collection and the fetches made so far. *)
Definition footprint (w : World) : list ScanProgress.t * list (Z * Z) :=
  (scanprogresses w, fetchCalls (trace w)).

(** The loaded progress document has a stored counterpart. *)
Definition stored (s : Frame) : Prop :=
  exists p, findProgress (ScanProgress.chain (progress (fst s))) (scanprogresses (snd s))
            = Some p.

(** The observation [proj] of the world is the same after as before. *)
Definition keeps {X} (proj : World -> X) (w w' : World) : Prop := proj w' = proj w.

(** [proj] does not see the call [c] in the history. *)
Definition blind {X} (proj : World -> X) (c : Call) : Prop :=
  forall ok w, proj (record c ok w) = proj w.

Definition isFetch (c : Call) : bool :=
  match c with
  | call_queryFilter _ _ => true
  | _ => false
  end.

(** The event collection after is the one before with documents added
    at its end: nothing was removed, changed or moved. *)
Definition appended (w w' : World) : Prop :=
  exists added, feeevents w' = feeevents w ++ added.

(** A relation on the world, seen from a frame of the scan loop. *)
Definition onWorld (R : World -> World -> Prop) (s s' : Frame) : Prop :=
  R (snd s) (snd s').

Section Along.

Context {S : Type} (R : S -> S -> Prop).
Hypothesis R_refl : forall s, R s s.
Hypothesis R_trans : forall a b c, R a b -> R b c -> R a c.

Lemma along_ret {A} (a : A) : along R (ret a).
Proof. intro s. apply R_refl. Qed.

Lemma along_throw {A} (e : Exn) : along R (@throw S A e).
Proof. intro s. apply R_refl. Qed.

Lemma along_get : along R (@get S).
Proof. intro s. apply R_refl. Qed.

Lemma along_modify (f : S -> S) : (forall s, R s (f s)) -> along R (modify f).
Proof. intros H s. apply H. Qed.

Lemma along_bind {A B} (m : M S A) (k : A -> M S B) :
  along R m -> (forall a, along R (k a)) -> along R (bind m k).
Proof.
  intros Hm Hk s. unfold bind. specialize (Hm s).
  destruct (m s) as [[a | e |] s1]; simpl in *; auto.
  eapply R_trans; [exact Hm | apply Hk].
Qed.

Lemma along_try_catch {A} (m : M S A) (h : Exn -> M S A) :
  along R m -> (forall e, along R (h e)) -> along R (try_catch m h).
Proof.
  intros Hm Hh s. unfold try_catch. specialize (Hm s).
  destruct (m s) as [[a | e |] s1]; simpl in *; auto.
  eapply R_trans; [exact Hm | apply Hh].
Qed.

Lemma along_try_finally {A} (m : M S A) (c : M S unit) :
  along R m -> along R c -> along R (try_finally m c).
Proof.
  intros Hm Hc s. unfold try_finally. specialize (Hm s).
  destruct (m s) as [[a | e |] s1]; simpl in *; auto;
    specialize (Hc s1); destruct (c s1) as [[[] | e' |] s2]; simpl in *;
    eapply R_trans; eauto.
Qed.

End Along.

Section Total.

Context {S : Type}.

Lemma total_ret {A} (a : A) : total (@ret S A a).
Proof. intros s H. discriminate. Qed.

Lemma total_throw {A} (e : Exn) : total (@throw S A e).
Proof. intros s H. discriminate. Qed.

Lemma total_get : total (@get S).
Proof. intros s H. discriminate. Qed.

Lemma total_modify (f : S -> S) : total (modify f).
Proof. intros s H. discriminate. Qed.

Lemma total_bind {A B} (m : M S A) (k : A -> M S B) :
  total m -> (forall a, total (k a)) -> total (bind m k).
Proof.
  intros Hm Hk s. unfold bind. specialize (Hm s).
  destruct (m s) as [[a | e |] s1]; simpl in *.
  - apply Hk.
  - discriminate.
  - congruence.
Qed.

Lemma total_try_catch {A} (m : M S A) (h : Exn -> M S A) :
  total m -> (forall e, total (h e)) -> total (try_catch m h).
Proof.
  intros Hm Hh s. unfold try_catch. specialize (Hm s).
  destruct (m s) as [[a | e |] s1]; simpl in *.
  - discriminate.
  - apply Hh.
  - congruence.
Qed.

Lemma quiet_ret {A} (a : A) : quiet (@ret S A a).
Proof. intros s e H. discriminate. Qed.

Lemma quiet_modify (f : S -> S) : quiet (modify f).
Proof. intros s e H. discriminate. Qed.

Lemma quiet_bind {A B} (m : M S A) (k : A -> M S B) :
  quiet m -> (forall a, quiet (k a)) -> quiet (bind m k).
Proof.
  intros Hm Hk s e. unfold bind. specialize (Hm s).
  destruct (m s) as [[a | e' |] s1]; simpl in *.
  - apply Hk.
  - exfalso. eapply Hm. reflexivity.
  - discriminate.
Qed.

Lemma quiet_try_catch {A} (m : M S A) (h : Exn -> M S A) :
  (forall e, quiet (h e)) -> quiet (try_catch m h).
Proof.
  intros Hh s e. unfold try_catch.
  destruct (m s) as [[a | e' |] s1]; simpl in *.
  - discriminate.
  - apply Hh.
  - discriminate.
Qed.

End Total.

Lemma keeps_refl {X} (proj : World -> X) w : keeps proj w w.
Proof. reflexivity. Qed.

Lemma keeps_trans {X} (proj : World -> X) a b c :
  keeps proj a b -> keeps proj b c -> keeps proj a c.
Proof. unfold keeps. congruence. Qed.

(** *** The world-level methods, one observation at a time *)

Lemma fetchCalls_app tr1 tr2 : fetchCalls (tr1 ++ tr2) = fetchCalls tr1 ++ fetchCalls tr2.
Proof. apply flat_map_app. Qed.

Lemma fetched_app tr1 tr2 : fetched (tr1 ++ tr2) = fetched tr1 ++ fetched tr2.
Proof. apply flat_map_app. Qed.

Lemma savedBlocks_app tr1 tr2 : savedBlocks (tr1 ++ tr2) = savedBlocks tr1 ++ savedBlocks tr2.
Proof. apply flat_map_app. Qed.

Lemma delays_app tr1 tr2 : delays (tr1 ++ tr2) = delays tr1 ++ delays tr2.
Proof. apply flat_map_app. Qed.

Lemma preserved_refl {S} (I : S -> Prop) s : preserved I s s.
Proof. intro H. exact H. Qed.

Lemma preserved_trans {S} (I : S -> Prop) a b c :
  preserved I a b -> preserved I b c -> preserved I a c.
Proof. unfold preserved. auto. Qed.

Lemma grows_refl w : grows w w.
Proof. intros k H. exact H. Qed.

Lemma grows_trans a b c : grows a b -> grows b c -> grows a c.
Proof. unfold grows. auto. Qed.

Lemma keeps_grows w w' : keeps feeevents w w' -> grows w w'.
Proof. unfold keeps, grows. intros ->. auto. Qed.

Ltac preorder :=
  first
    [ exact (keeps_refl _)
    | exact (keeps_trans _)
    | exact grows_refl
    | exact grows_trans
    | exact (preserved_refl _)
    | exact (preserved_trans _) ].

Ltac along_step :=
  match goal with
  | |- along _ (bind _ _) => apply along_bind; [ preorder | | intro ]
  | |- along _ (try_catch _ _) => apply along_try_catch; [ preorder | | intro ]
  | |- along _ (ret _) => apply along_ret; preorder
  | |- along _ (throw _) => apply along_throw; preorder
  | |- along _ (if ?b then _ else _) => destruct b
  | |- along _ (match ?x with _ => _ end) => destruct x
  end.

Ltac total_step :=
  match goal with
  | |- total (bind _ _) => apply total_bind; [ | intro ]
  | |- total (try_catch _ _) => apply total_try_catch; [ | intro ]
  | |- total (ret _) => apply total_ret
  | |- total (throw _) => apply total_throw
  | |- total (modify _) => apply total_modify
  | |- total get => apply total_get
  | |- total (if ?b then _ else _) => destruct b
  | |- total (match ?x with _ => _ end) => destruct x
  end.

Section WorldMethods.

Variable env : Env.
Variable chainConfig : ChainConfig.t.
Variable scannerConfig : ScannerConfig.t.

Section Keeps.

Context {X : Type} (proj : World -> X).
Hypothesis proj_record : forall c, isFetch c = false -> blind proj c.
Hypothesis proj_feeevents : forall l w, proj (set_feeevents l w) = proj w.

Lemma remote_keeps {A} c (answer : nat -> option A) :
  isFetch c = false -> along (keeps proj) (remote c answer).
Proof.
  intros Hc w. unfold remote, keeps.
  destruct (answer (calls w)); simpl; apply proj_record; exact Hc.
Qed.

Lemma now_keeps : along (keeps proj) (now env).
Proof. intro w. reflexivity. Qed.

Lemma delay_keeps ms : along (keeps proj) (delay ms).
Proof. intro w. unfold delay, keeps. simpl. apply proj_record. reflexivity. Qed.

Lemma insertMany_keeps docs : along (keeps proj) (FeeEventModel_insertMany env docs).
Proof.
  intro w. unfold FeeEventModel_insertMany, keeps.
  destruct (filter FeeEvent.valid docs) as [| d ds]; [reflexivity |].
  generalize (d :: ds). intro validDocs.
  destruct (storage_down env (calls w)); simpl.
  - apply proj_record. reflexivity.
  - destruct (insertUnordered validDocs (feeevents w) 0) as [coll [| n]]; simpl;
      rewrite proj_record by reflexivity; apply proj_feeevents.
Qed.

Lemma findOne_keeps chain : along (keeps proj) (ScanProgressModel_findOne env chain).
Proof.
  intro w. unfold ScanProgressModel_findOne, keeps.
  destruct (storage_down env (calls w)); simpl; apply proj_record; reflexivity.
Qed.

Lemma getCurrentBlockNumber_loop_keeps n : forall attempt maxRetries,
  along (keeps proj) (getCurrentBlockNumber_loop env n attempt maxRetries).
Proof.
  induction n as [| n IH]; intros attempt maxRetries; simpl.
  - along_step.
  - along_step.
    + apply remote_keeps. reflexivity.
    + along_step; [along_step |].
      along_step; [apply delay_keeps | apply IH].
Qed.

Lemma getCurrentBlockNumber_keeps :
  along (keeps proj) (FeeCollectorService_getCurrentBlockNumber env).
Proof. apply getCurrentBlockNumber_loop_keeps. Qed.

Lemma getBlockTimestamp_keeps b : along (keeps proj) (getBlockTimestamp env b).
Proof.
  unfold getBlockTimestamp. along_step.
  - along_step; [apply remote_keeps; reflexivity | along_step].
  - apply now_keeps.
Qed.

Lemma normalizeAddress_keeps a : along (keeps proj) (normalizeAddress env a).
Proof. unfold normalizeAddress. repeat along_step. Qed.

Lemma parseOne_keeps event : along (keeps proj) (parseOne env event).
Proof.
  unfold parseOne. along_step; [| along_step].
  along_step; [| along_step].
  along_step; [along_step |].
  along_step; [apply getBlockTimestamp_keeps |].
  along_step; [apply normalizeAddress_keeps |].
  along_step; [apply normalizeAddress_keeps | along_step].
Qed.

Lemma parseFeeCollectorEvents_keeps events :
  along (keeps proj) (parseFeeCollectorEvents env events).
Proof.
  induction events as [| event rest IH]; simpl.
  - along_step.
  - along_step; [apply parseOne_keeps |].
    along_step; [apply IH | along_step].
Qed.

Lemma storeEvents_keeps events :
  along (keeps proj) (storeEvents env chainConfig events).
Proof.
  unfold storeEvents. along_step; [along_step |].
  along_step; [apply insertMany_keeps |].
  repeat along_step.
Qed.

Lemma validateContract_keeps : along (keeps proj) (validateContract env).
Proof.
  unfold validateContract. along_step; [| along_step].
  along_step; [apply remote_keeps; reflexivity | along_step].
Qed.

Lemma getScanProgress_keeps :
  along (keeps proj) (getScanProgress env chainConfig).
Proof.
  unfold getScanProgress. along_step; [apply findOne_keeps |].
  repeat along_step.
Qed.

End Keeps.

End WorldMethods.

(** *** Collections *)

Lemma findProgress_app_none chain coll doc :
  findProgress chain coll = None ->
  findProgress chain (coll ++ [doc]) = findProgress chain [doc].
Proof.
  unfold findProgress. induction coll as [| p coll IH]; simpl; intro H.
  - reflexivity.
  - destruct (String.eqb (ScanProgress.chain p) chain); [discriminate | auto].
Qed.

Lemma findProgress_chain chain coll p :
  findProgress chain coll = Some p -> ScanProgress.chain p = chain.
Proof.
  unfold findProgress. intro H. apply find_some in H. destruct H as [_ H].
  apply String.eqb_eq. exact H.
Qed.

Lemma findProgress_replace chain doc coll p :
  findProgress chain coll = Some p ->
  findProgress chain (replaceProgress doc coll)
  = Some (if String.eqb (ScanProgress.chain doc) chain then doc else p).
Proof.
  unfold findProgress, replaceProgress.
  induction coll as [| q coll IH]; simpl; intro H; [discriminate |].
  destruct (String.eqb (ScanProgress.chain q) chain) eqn:Hq.
  - injection H as ->. pose proof (proj1 (String.eqb_eq _ _) Hq) as Eq.
    destruct (String.eqb (ScanProgress.chain p) (ScanProgress.chain doc)) eqn:Hd; simpl.
    + apply String.eqb_eq in Hd.
      assert (Hc : String.eqb (ScanProgress.chain doc) chain = true)
        by (apply String.eqb_eq; congruence).
      rewrite Hc. reflexivity.
    + assert (Hc : String.eqb (ScanProgress.chain doc) chain = false).
      { apply String.eqb_neq. apply String.eqb_neq in Hd. congruence. }
      rewrite Hc, Hq. reflexivity.
  - destruct (String.eqb (ScanProgress.chain q) (ScanProgress.chain doc)) eqn:Hd; simpl.
    + apply String.eqb_eq in Hd.
      assert (Hc : String.eqb (ScanProgress.chain doc) chain = false) by (rewrite <- Hd; exact Hq).
      rewrite Hc. rewrite (IH H). rewrite Hc. reflexivity.
    + rewrite Hq. auto.
Qed.

(** ** The claims *)



(** C8. Initialization seeding and idempotence: without a progress
    document for the chain, with a chain name that is not empty (the
    schema refuses a document without one) and with the database
    answering, [initializeScanProgress] creates one whose
    [lastScannedBlock] is [startBlock - 1]; with a document already
    stored it leaves the collection as it is, whatever the chain and
    the database do. *)
Theorem C8_initialize_seeding (env : Env) (cc : ChainConfig.t) (w : World) :
  (findProgress (chainName cc) (scanprogresses w) = None ->
   chainName cc <> "" ->
   storage_down env (calls w) = false ->
   storage_down env (S (calls w)) = false ->
   exists w' p,
     initializeScanProgress env cc w = (Returned tt, w') /\
     findProgress (chainName cc) (scanprogresses w') = Some p /\
     ScanProgress.lastScannedBlock p = ChainConfig.startBlock cc - 1) /\
  (forall p,
     findProgress (chainName cc) (scanprogresses w) = Some p ->
     scanprogresses (snd (initializeScanProgress env cc w)) = scanprogresses w).
Proof.
  split.
  - intros Hnone Hname Hup1 Hup2.
    apply String.eqb_neq in Hname.
    unfold initializeScanProgress, bind, ScanProgressModel_findOne.
    rewrite Hup1, Hnone. unfold now, ScanProgressModel_create, ScanProgress.valid. simpl.
    rewrite Hname, Hup2, Hnone. eexists. eexists. split; [reflexivity |].
    simpl. rewrite (findProgress_app_none _ _ _ Hnone).
    unfold findProgress. simpl. rewrite String.eqb_refl. split; reflexivity.
  - intros p Hsome.
    unfold initializeScanProgress, bind, ScanProgressModel_findOne.
    destruct (storage_down env (calls w)); simpl; [reflexivity |].
    rewrite Hsome. reflexivity.
Qed.

Lemma C8_initialize_seeding_witness :
  exists w' p,
    initializeScanProgress (Scenario.chain 70000001 [] Scenario.never) Scenario.polygon
      (Scenario.world [] []) = (Returned tt, w') /\
    findProgress "polygon" (scanprogresses w') = Some p /\
    ScanProgress.lastScannedBlock p = 69999999.
Proof.
  apply (proj1 (C8_initialize_seeding (Scenario.chain 70000001 [] Scenario.never)
                  Scenario.polygon (Scenario.world [] [])));
    first [reflexivity | discriminate].
Defined.

(** [start] catches whatever its body throws. *)
Lemma start_quiet (env : Env) (cc : ChainConfig.t) (sc : ScannerConfig.t) (fuel : nat) :
  quiet (start env cc sc fuel).
Proof.
  unfold start. apply quiet_try_catch. intro e. apply quiet_ret.
Qed.

(** C6, as the claim states it, fails: with no code at the contract
    address, and with an endpoint that does not answer, validation does
    not succeed and [start] still completes without an error. *)
Lemma C6_start_completes_silently :
  let cc := Scenario.polygon in
  let sc := Scenario.config 1000 3 in
  let w := Scenario.world [] [] in
  let empty := Scenario.noCode (Scenario.chain 70000001 [] Scenario.never) in
  let dead := Scenario.unreachable (Scenario.chain 70000001 [] Scenario.never) in
  fst (validateContract empty w) = Returned false /\
  fst (start empty cc sc 10 w) = Returned tt /\
  fst (validateContract dead w) = Returned false /\
  fst (start dead cc sc 10 w) = Returned tt.
Proof.
  repeat split; reflexivity.
Qed.

(** C6, amended. When contract validation does not succeed (the endpoint
    does not answer [getCode], or the address holds no code), [start]
    returns normally: it raises no error, creates no progress document,
    stores no event, runs no scan and installs no periodic timer.  In
    no case does [start] throw. *)
Theorem C6_start_returns_when_invalid (env : Env) (cc : ChainConfig.t)
  (sc : ScannerConfig.t) (fuel : nat) (w : World) :
  (provider_getCode env (calls w) = None \/ provider_getCode env (calls w) = Some "0x" ->
   exists w',
     start env cc sc fuel w = (Returned tt, w') /\
     scanprogresses w' = scanprogresses w /\
     feeevents w' = feeevents w /\
     scanInterval w' = scanInterval w /\
     isScanning w' = isScanning w /\
     fetchCalls (trace w') = fetchCalls (trace w)) /\
  (forall e, fst (start env cc sc fuel w) <> Thrown e).
Proof.
  split.
  - intros [H | H]; unfold start, try_catch, bind, validateContract, try_catch, bind, remote;
      rewrite H; simpl; eexists; (split; [reflexivity |]); simpl;
      rewrite fetchCalls_app; simpl; rewrite app_nil_r; repeat split; reflexivity.
  - apply start_quiet.
Qed.

Lemma C6_start_returns_when_invalid_witness :
  exists w',
    start (Scenario.noCode (Scenario.chain 70000001 [] Scenario.never)) Scenario.polygon
      (Scenario.config 1000 3) 10 (Scenario.world [] []) = (Returned tt, w') /\
    scanprogresses w' = [] /\ feeevents w' = [] /\ scanInterval w' = None /\
    isScanning w' = false /\ fetchCalls (trace w') = [].
Proof.
  apply (proj1 (C6_start_returns_when_invalid
                  (Scenario.noCode (Scenario.chain 70000001 [] Scenario.never))
                  Scenario.polygon (Scenario.config 1000 3) 10 (Scenario.world [] []))).
  right. reflexivity.
Defined.

(** *** What [scanBatch] returns *)

Section Totality.

Variable env : Env.
Variable chainConfig : ChainConfig.t.
Variable scannerConfig : ScannerConfig.t.

Lemma remote_total {A} c (answer : nat -> option A) : total (remote c answer).
Proof. intro w. unfold remote. destruct (answer (calls w)); discriminate. Qed.

Lemma now_total : total (now env).
Proof. intro w. discriminate. Qed.

Lemma delay_total ms : total (delay ms).
Proof. intro w. discriminate. Qed.

Lemma insertMany_total docs : total (FeeEventModel_insertMany env docs).
Proof.
  intro w. unfold FeeEventModel_insertMany.
  destruct (filter FeeEvent.valid docs) as [| d ds]; [discriminate |].
  generalize (d :: ds). intro validDocs.
  destruct (storage_down env (calls w)); [discriminate |].
  destruct (insertUnordered validDocs (feeevents w) 0) as [coll [| n]]; discriminate.
Qed.

Lemma findOne_total chain : total (ScanProgressModel_findOne env chain).
Proof.
  intro w. unfold ScanProgressModel_findOne.
  destruct (storage_down env (calls w)); discriminate.
Qed.

Lemma create_total doc : total (ScanProgressModel_create env doc).
Proof.
  intro w. unfold ScanProgressModel_create.
  destruct (negb (ScanProgress.valid doc)); [discriminate |].
  destruct (storage_down env (calls w)); [discriminate |].
  destruct (findProgress _ _); discriminate.
Qed.

Lemma save_total doc : total (save env doc).
Proof.
  intro w. unfold save.
  destruct (storage_down env (calls w)); [discriminate |].
  destruct (findProgress _ _); discriminate.
Qed.

Lemma getCurrentBlockNumber_loop_total n : forall attempt maxRetries,
  total (getCurrentBlockNumber_loop env n attempt maxRetries).
Proof.
  induction n as [| n IH]; intros attempt maxRetries; simpl.
  - total_step.
  - total_step; [apply remote_total |].
    total_step; [total_step |].
    total_step; [apply delay_total | apply IH].
Qed.

Lemma getCurrentBlockNumber_total : total (FeeCollectorService_getCurrentBlockNumber env).
Proof. apply getCurrentBlockNumber_loop_total. Qed.

Lemma getBlockTimestamp_total b : total (getBlockTimestamp env b).
Proof.
  unfold getBlockTimestamp. total_step; [| apply now_total].
  total_step; [apply remote_total | total_step].
Qed.

Lemma normalizeAddress_total a : total (normalizeAddress env a).
Proof. unfold normalizeAddress. repeat total_step. Qed.

Lemma loadFeeCollectorEvents_total f t : total (loadFeeCollectorEvents env f t).
Proof.
  unfold loadFeeCollectorEvents. total_step; [apply remote_total | total_step].
Qed.

Lemma parseOne_total event : total (parseOne env event).
Proof.
  unfold parseOne. total_step; [| total_step].
  total_step; [| total_step].
  total_step; [total_step |].
  total_step; [apply getBlockTimestamp_total |].
  total_step; [apply normalizeAddress_total |].
  total_step; [apply normalizeAddress_total | total_step].
Qed.

Lemma parseOne_quiet event : quiet (parseOne env event).
Proof. unfold parseOne. apply quiet_try_catch. intro e. apply quiet_ret. Qed.

Lemma parseFeeCollectorEvents_total events : total (parseFeeCollectorEvents env events).
Proof.
  induction events as [| event rest IH]; simpl.
  - total_step.
  - total_step; [apply parseOne_total |].
    total_step; [apply IH | total_step].
Qed.

Lemma parseFeeCollectorEvents_quiet events : quiet (parseFeeCollectorEvents env events).
Proof.
  induction events as [| event rest IH]; simpl.
  - apply quiet_ret.
  - apply quiet_bind; [apply parseOne_quiet | intro parsed].
    apply quiet_bind; [apply IH | intro others]. apply quiet_ret.
Qed.

Lemma parseFeeCollectorEvents_returns events w :
  exists parsed, fst (parseFeeCollectorEvents env events w) = Returned parsed.
Proof.
  pose proof (parseFeeCollectorEvents_total events w) as Ht.
  pose proof (parseFeeCollectorEvents_quiet events w) as Hq.
  destruct (fst (parseFeeCollectorEvents env events w)) as [parsed | e |].
  - eauto.
  - exfalso. eapply Hq. reflexivity.
  - congruence.
Qed.

Lemma storeEvents_total events : total (storeEvents env chainConfig events).
Proof.
  unfold storeEvents. total_step; [total_step |].
  total_step; [apply insertMany_total | repeat total_step].
Qed.

Lemma scanBatch_total f t : total (scanBatch env chainConfig f t).
Proof.
  unfold scanBatch. total_step; [apply loadFeeCollectorEvents_total |].
  total_step; [total_step |].
  total_step; [apply parseFeeCollectorEvents_total |].
  total_step; [apply storeEvents_total | total_step].
Qed.

Lemma getScanProgress_total : total (getScanProgress env chainConfig).
Proof.
  unfold getScanProgress. total_step; [apply findOne_total | repeat total_step].
Qed.

Lemma inWorld_total {A} (m : M World A) : total m -> total (inWorld m).
Proof.
  intros Hm s. unfold inWorld. specialize (Hm (snd s)).
  destruct (m (snd s)) as [r w]. exact Hm.
Qed.

Lemma locals_total : total locals.
Proof. intro s. discriminate. Qed.

Lemma assign_total f : total (assign f).
Proof. intro s. discriminate. Qed.

Lemma attemptBatch_total toBlock : total (attemptBatch env chainConfig toBlock).
Proof.
  unfold attemptBatch. total_step; [apply locals_total |].
  total_step; [apply inWorld_total, scanBatch_total |].
  total_step; [apply assign_total |].
  total_step; [apply inWorld_total, now_total |].
  total_step; [apply assign_total |].
  total_step; [apply locals_total |].
  apply inWorld_total, save_total.
Qed.

Lemma retryWithBackoff_loop_total n : forall attempt operation,
  total operation -> total (retryWithBackoff_loop scannerConfig n attempt operation).
Proof.
  induction n as [| n IH]; intros attempt operation Hop; simpl.
  - total_step.
  - total_step; [exact Hop |].
    total_step; [total_step |].
    total_step; [apply inWorld_total, delay_total | apply IH, Hop].
Qed.

Lemma scanStep_total currentBlock :
  total (scanStep env chainConfig scannerConfig currentBlock).
Proof.
  unfold scanStep. total_step; [apply locals_total |].
  total_step.
  - total_step; [apply attemptBatch_total |].
    total_step; [apply assign_total |].
    total_step; [apply inWorld_total, delay_total | total_step].
  - total_step; [| apply assign_total].
    apply retryWithBackoff_loop_total, attemptBatch_total.
Qed.

End Totality.

(** C2, as the claim states it, fails.  The duplicate test of the
    repository: the event [0xabc123]/0 is stored, the batch
    [70000001, 70000001] brings it again.  Nothing is inserted, and
    [scanBatch] returns 1. *)
Lemma C2_count_includes_duplicates :
  let env := Scenario.chain 70000001 [Scenario.entry 70000001 "0xabc123" 0] Scenario.never in
  let w := Scenario.world [Scenario.storedEvent] [Scenario.progressAt 70000000 0 0] in
  let r := scanBatch env Scenario.polygon 70000001 70000001 w in
  fst r = Returned 1 /\
  feeevents (snd r) = feeevents w /\
  fst r <> Returned (Z.of_nat (List.length (feeevents (snd r))) - Z.of_nat (List.length (feeevents w))).
Proof.
  repeat split; try reflexivity. vm_compute. discriminate.
Qed.

(** *** The event collection under its unique index *)

Lemma keyEqb_eq k1 k2 : FeeEvent.keyEqb k1 k2 = true <-> k1 = k2.
Proof.
  destruct k1 as [h1 i1], k2 as [h2 i2]. unfold FeeEvent.keyEqb. simpl.
  rewrite andb_true_iff, String.eqb_eq, Z.eqb_eq.
  split; [intros [-> ->]; reflexivity | intro H; injection H; auto].
Qed.

Lemma countKey_app k a b : countKey k (a ++ b) = (countKey k a + countKey k b)%nat.
Proof. unfold countKey. rewrite filter_app, length_app. reflexivity. Qed.

Lemma hasKey_app k a b : hasKey k (a ++ b) = (hasKey k a || hasKey k b)%bool.
Proof. unfold hasKey. apply existsb_app. Qed.

Lemma countKey_absent k coll : hasKey k coll = false -> countKey k coll = 0%nat.
Proof.
  unfold hasKey, countKey. induction coll as [| e coll IH]; simpl; intro H.
  - reflexivity.
  - apply orb_false_iff in H. destruct H as [He Hc]. rewrite He. auto.
Qed.

Lemma countKey_present k coll : hasKey k coll = true -> (1 <= countKey k coll)%nat.
Proof.
  unfold hasKey, countKey. induction coll as [| e coll IH]; simpl; intro H.
  - discriminate.
  - destruct (FeeEvent.keyEqb k (FeeEvent.key e)); simpl in *; [lia | auto].
Qed.

Lemma countKey_single k d :
  countKey k [d] = if FeeEvent.keyEqb k (FeeEvent.key d) then 1%nat else 0%nat.
Proof. unfold countKey. simpl. destruct (FeeEvent.keyEqb _ _); reflexivity. Qed.

Lemma insertUnordered_extends docs : forall coll n,
  exists added, fst (insertUnordered docs coll n) = coll ++ added.
Proof.
  induction docs as [| d rest IH]; intros coll n; simpl.
  - exists []. symmetry. apply app_nil_r.
  - destruct (existsb (FeeEvent.sameKey d) coll).
    + apply IH.
    + destruct (IH (coll ++ [d]) n) as [added H]. exists (d :: added).
      rewrite H, <- app_assoc. reflexivity.
Qed.

Lemma insertUnordered_unique docs : forall coll n,
  (forall k, (countKey k coll <= 1)%nat) ->
  forall k, (countKey k (fst (insertUnordered docs coll n)) <= 1)%nat.
Proof.
  induction docs as [| d rest IH]; intros coll n Hu; simpl.
  - exact Hu.
  - destruct (existsb (FeeEvent.sameKey d) coll) eqn:Hd.
    + apply IH, Hu.
    + apply IH. intro k. rewrite countKey_app, countKey_single.
      destruct (FeeEvent.keyEqb k (FeeEvent.key d)) eqn:Hk.
      * apply keyEqb_eq in Hk. subst k.
        rewrite (countKey_absent (FeeEvent.key d) coll Hd). lia.
      * specialize (Hu k). lia.
Qed.

Lemma insertUnordered_keeps_keys docs : forall coll n k,
  hasKey k coll = true -> hasKey k (fst (insertUnordered docs coll n)) = true.
Proof.
  intros coll n k H. destruct (insertUnordered_extends docs coll n) as [added ->].
  rewrite hasKey_app, H. reflexivity.
Qed.

Lemma insertUnordered_stores docs : forall coll n d,
  In d docs -> hasKey (FeeEvent.key d) (fst (insertUnordered docs coll n)) = true.
Proof.
  induction docs as [| d0 rest IH]; intros coll n d Hin; simpl; [destruct Hin |].
  destruct Hin as [-> | Hin].
  - destruct (existsb (FeeEvent.sameKey d) coll) eqn:Hd.
    + apply insertUnordered_keeps_keys. exact Hd.
    + apply insertUnordered_keeps_keys. rewrite hasKey_app.
      unfold hasKey at 2. simpl.
      rewrite (proj2 (keyEqb_eq _ _) eq_refl). apply orb_true_r.
  - destruct (existsb (FeeEvent.sameKey d0) coll); apply IH; exact Hin.
Qed.

Lemma insertUnordered_all_present docs : forall coll n,
  (forall d, In d docs -> hasKey (FeeEvent.key d) coll = true) ->
  insertUnordered docs coll n = (coll, (n + List.length docs)%nat).
Proof.
  induction docs as [| d rest IH]; intros coll n H; simpl.
  - rewrite Nat.add_0_r. reflexivity.
  - assert (Hd : existsb (FeeEvent.sameKey d) coll = true) by (apply (H d); left; reflexivity).
    rewrite Hd, IH.
    + f_equal. lia.
    + intros d' Hin. apply H. right. exact Hin.
Qed.

Lemma insertUnordered_from docs : forall coll n d,
  In d (fst (insertUnordered docs coll n)) -> In d coll \/ In d docs.
Proof.
  induction docs as [| d0 rest IH]; intros coll n d H; simpl in H; [left; exact H |].
  destruct (existsb (FeeEvent.sameKey d0) coll).
  - destruct (IH _ _ _ H); [left | right; right]; assumption.
  - destruct (IH _ _ _ H) as [Hc | Hr]; [| right; right; exact Hr].
    apply in_app_or in Hc. destruct Hc as [Hc | [<- | []]];
      [left; exact Hc | right; left; reflexivity].
Qed.

(** The decimal text of a number is never empty. *)
Lemma bigNumberToString_nonempty z : String.eqb (bigNumberToString z) "" = false.
Proof.
  apply String.eqb_neq. unfold bigNumberToString.
  destruct z as [| q | q]; simpl; try discriminate.
  pose proof (Unsigned.to_uint_nonnil q) as Hq.
  destruct (Pos.to_uint q); simpl; try discriminate; try contradiction.
Qed.

(** The document that [storeEvents] builds passes the schema exactly
    when the decoded event has its addresses, its transaction hash and
    the chain name. *)
Lemma valid_toFeeEvent cc e : FeeEvent.valid (toFeeEvent cc e) = storable cc e.
Proof.
  unfold FeeEvent.valid, storable, toFeeEvent.
  cbn [FeeEvent.token FeeEvent.integrator FeeEvent.integratorFee FeeEvent.lifiFee
       FeeEvent.transactionHash FeeEvent.chain].
  rewrite !bigNumberToString_nonempty. cbn [negb]. rewrite !andb_true_r. reflexivity.
Qed.

Lemma key_toFeeEvent cc e : FeeEvent.key (toFeeEvent cc e) = eventKey e.
Proof. reflexivity. Qed.

(** With the database answering, [storeEvents] returns, and the
    collection is the unordered insert of the documents that pass the
    schema. *)
Lemma storeEvents_up (env : Env) (cc : ChainConfig.t) events w :
  storage_down env (calls w) = false ->
  fst (storeEvents env cc events w) = Returned tt /\
  feeevents (snd (storeEvents env cc events w))
  = fst (insertUnordered (filter FeeEvent.valid (map (toFeeEvent cc) events))
           (feeevents w) 0).
Proof.
  intro Hup. unfold storeEvents.
  destruct events as [| e rest]; [split; reflexivity |].
  change (Nat.eqb (List.length (e :: rest)) 0) with false. cbv beta iota.
  unfold try_catch, FeeEventModel_insertMany.
  destruct (filter FeeEvent.valid (map (toFeeEvent cc) (e :: rest))) as [| d ds];
    [split; reflexivity |].
  generalize (d :: ds). intro validDocs. rewrite Hup.
  destruct (insertUnordered validDocs (feeevents w) 0) as [coll [| n]]; split; reflexivity.
Qed.

(** C4. Duplicate suppression.  On a collection that respects the
    unique index on (transactionHash, logIndex), with the database
    answering, [storeEvents] returns without an error even when
    documents collide.  Afterwards no natural key is stored twice;
    every event of the call whose document passes the schema has its
    own transaction hash and log index stored exactly once (so the
    non-colliding ones were inserted); every stored document was
    stored before or is the document of such an event of the call; the
    documents stored before are still there; and a second attempt with
    events of the same natural keys is a no-op that returns without an
    error. *)
Theorem C4_duplicate_suppression (env : Env) (cc : ChainConfig.t)
  (events : list ParsedFeeCollectedEvent.t) (w : World) :
  storage_down env (calls w) = false ->
  (forall k, (countKey k (feeevents w) <= 1)%nat) ->
  let r := storeEvents env cc events w in
  fst r = Returned tt /\
  (forall k, (countKey k (feeevents (snd r)) <= 1)%nat) /\
  (forall e, In e events -> storable cc e = true ->
     countKey (ParsedFeeCollectedEvent.transactionHash e,
               ParsedFeeCollectedEvent.logIndex e) (feeevents (snd r)) = 1%nat) /\
  (forall d, In d (feeevents (snd r)) ->
     In d (feeevents w) \/
     exists e, In e events /\ storable cc e = true /\ d = toFeeEvent cc e) /\
  (forall d, In d (feeevents w) -> In d (feeevents (snd r))) /\
  (forall again,
     (forall e2, In e2 again ->
        exists e1, In e1 events /\ storable cc e1 = true /\
                   ParsedFeeCollectedEvent.transactionHash e2
                   = ParsedFeeCollectedEvent.transactionHash e1 /\
                   ParsedFeeCollectedEvent.logIndex e2
                   = ParsedFeeCollectedEvent.logIndex e1) ->
     storage_down env (calls (snd r)) = false ->
     fst (storeEvents env cc again (snd r)) = Returned tt /\
     feeevents (snd (storeEvents env cc again (snd r))) = feeevents (snd r)).
Proof.
  intros Hup Hu r. destruct (storeEvents_up env cc events w Hup) as [Hr Hc].
  fold r in Hr, Hc.
  assert (Hstored : forall e, In e events -> storable cc e = true ->
            hasKey (eventKey e) (feeevents (snd r)) = true).
  { intros e Hin Hs. rewrite Hc, <- key_toFeeEvent with (cc := cc).
    apply insertUnordered_stores. apply filter_In.
    split; [apply in_map; exact Hin | rewrite valid_toFeeEvent; exact Hs]. }
  assert (Hunique : forall k, (countKey k (feeevents (snd r)) <= 1)%nat).
  { intro k. rewrite Hc. apply insertUnordered_unique. exact Hu. }
  split; [exact Hr |]. split; [exact Hunique |]. split; [| split; [| split]].
  - intros e Hin Hs. specialize (Hunique (eventKey e)).
    pose proof (countKey_present _ _ (Hstored e Hin Hs)). unfold eventKey in *. lia.
  - intros d Hin. rewrite Hc in Hin. apply insertUnordered_from in Hin.
    destruct Hin as [Hin | Hin]; [left; exact Hin | right].
    apply filter_In in Hin. destruct Hin as [Hin Hv].
    apply in_map_iff in Hin. destruct Hin as [e [<- Hin]].
    exists e. rewrite valid_toFeeEvent in Hv. auto.
  - intros d Hin. rewrite Hc.
    destruct (insertUnordered_extends (filter FeeEvent.valid (map (toFeeEvent cc) events))
                (feeevents w) 0) as [added ->].
    apply in_or_app. left. exact Hin.
  - intros again Hsame Hup2.
    destruct (storeEvents_up env cc again (snd r) Hup2) as [Hr2 Hc2].
    split; [exact Hr2 |]. rewrite Hc2, insertUnordered_all_present; [reflexivity |].
    intros d Hin. apply filter_In in Hin. destruct Hin as [Hin _].
    apply in_map_iff in Hin. destruct Hin as [e2 [<- Hin2]].
    destruct (Hsame e2 Hin2) as [e1 [Hin1 [Hs1 [Hh Hi]]]].
    rewrite key_toFeeEvent. unfold eventKey. rewrite Hh, Hi.
    apply (Hstored e1 Hin1 Hs1).
Qed.

Lemma C4_duplicate_suppression_witness :
  let env := Scenario.chain 70000001 [] Scenario.never in
  let cc := Scenario.polygon in
  let w := Scenario.world [Scenario.storedEvent] [] in
  let events := [Scenario.parsedEvent 70000001 "0xabc123" 0;
                 Scenario.parsedEvent 70000001 "0xdef456" 1] in
  let r := storeEvents env cc events w in
  fst r = Returned tt /\
  (forall k, (countKey k (feeevents (snd r)) <= 1)%nat) /\
  (forall e, In e events -> storable cc e = true ->
     countKey (ParsedFeeCollectedEvent.transactionHash e,
               ParsedFeeCollectedEvent.logIndex e) (feeevents (snd r)) = 1%nat) /\
  (forall d, In d (feeevents (snd r)) ->
     In d (feeevents w) \/
     exists e, In e events /\ storable cc e = true /\ d = toFeeEvent cc e) /\
  (forall d, In d (feeevents w) -> In d (feeevents (snd r))) /\
  (forall again,
     (forall e2, In e2 again ->
        exists e1, In e1 events /\ storable cc e1 = true /\
                   ParsedFeeCollectedEvent.transactionHash e2
                   = ParsedFeeCollectedEvent.transactionHash e1 /\
                   ParsedFeeCollectedEvent.logIndex e2
                   = ParsedFeeCollectedEvent.logIndex e1) ->
     storage_down env (calls (snd r)) = false ->
     fst (storeEvents env cc again (snd r)) = Returned tt /\
     feeevents (snd (storeEvents env cc again (snd r))) = feeevents (snd r)).
Proof.
  intros env cc w events.
  apply (C4_duplicate_suppression env cc events w).
  - reflexivity.
  - intro k. unfold countKey. simpl.
    destruct (FeeEvent.keyEqb k (FeeEvent.key Scenario.storedEvent)); simpl; lia.
Defined.

(** *** The stored progress never moves back *)

Section Monotone.

Variable env : Env.
Variable chainConfig : ChainConfig.t.
Variable scannerConfig : ScannerConfig.t.

Lemma progress_blind c : blind scanprogresses c.
Proof. intros ok w. reflexivity. Qed.

Lemma progress_blind_quiet c : isFetch c = false -> blind scanprogresses c.
Proof. intros _. apply progress_blind. Qed.

Lemma progress_feeevents l w : scanprogresses (set_feeevents l w) = scanprogresses w.
Proof. reflexivity. Qed.

Lemma loadFeeCollectorEvents_keeps_progress f t :
  along (keeps scanprogresses) (loadFeeCollectorEvents env f t).
Proof.
  intro w. unfold loadFeeCollectorEvents, try_catch, remote, keeps.
  destruct (contract_queryFilter env (calls w) f t); reflexivity.
Qed.

Lemma scanBatch_keeps_progress f t :
  along (keeps scanprogresses) (scanBatch env chainConfig f t).
Proof.
  unfold scanBatch. along_step; [apply loadFeeCollectorEvents_keeps_progress |].
  along_step; [along_step |].
  along_step; [apply parseFeeCollectorEvents_keeps, progress_blind_quiet |].
  along_step; [| along_step].
  apply storeEvents_keeps; [apply progress_blind_quiet | apply progress_feeevents].
Qed.

Lemma save_progressAtLeast b chain doc w :
  b <= ScanProgress.lastScannedBlock doc ->
  progressAtLeast b chain w -> progressAtLeast b chain (snd (save env doc w)).
Proof.
  intros Hb [p [Hp Hle]]. unfold save.
  destruct (storage_down env (calls w)); [exists p; auto |].
  destruct (findProgress (ScanProgress.chain doc) (scanprogresses w));
    [| exists p; auto].
  simpl. unfold progressAtLeast. simpl.
  rewrite (findProgress_replace chain doc _ p Hp).
  eexists. split; [reflexivity |].
  destruct (String.eqb (ScanProgress.chain doc) chain); assumption.
Qed.

Lemma keeps_progressAtLeast b chain w w' :
  keeps scanprogresses w w' -> progressAtLeast b chain w -> progressAtLeast b chain w'.
Proof. unfold keeps, progressAtLeast. intros ->. auto. Qed.

Lemma inWorld_loadedAtLeast {A} b chain (m : M World A) :
  along (keeps scanprogresses) m ->
  along (preserved (loadedAtLeast b chain)) (inWorld m).
Proof.
  intros Hm [l w] [Hc [Hb HJ]]. unfold inWorld. simpl. specialize (Hm w).
  destruct (m w) as [r w1]. simpl in *.
  repeat split; auto. eapply keeps_progressAtLeast; eauto.
Qed.

Lemma attemptBatch_loadedAtLeast b chain toBlock :
  along (preserved (loadedAtLeast b chain)) (attemptBatch env chainConfig toBlock).
Proof.
  intros [l w] [Hc [Hb HJ]]. simpl in Hc, Hb, HJ.
  unfold attemptBatch, bind, locals, inWorld, assign, now. simpl.
  pose proof (scanBatch_keeps_progress (fromBlock l) toBlock w) as Hk.
  destruct (scanBatch env chainConfig (fromBlock l) toBlock w) as [[n | e |] w1];
    simpl in Hk |- *;
    try (repeat split; auto; eapply keeps_progressAtLeast; eauto).
  pose proof (keeps_progressAtLeast b chain w w1 Hk HJ) as HJ1.
  match goal with
  | |- context [save env ?doc w1] =>
      assert (Hdoc : b <= ScanProgress.lastScannedBlock doc) by (simpl; lia);
      pose proof (save_progressAtLeast b chain doc w1 Hdoc HJ1) as Hs;
      destruct (save env doc w1) as [[[] | e |] w2]
  end; simpl in *; repeat split; auto; lia.
Qed.

Lemma assign_loadedAtLeast b chain f :
  (forall l, progress (f l) = progress l) ->
  along (preserved (loadedAtLeast b chain)) (assign f).
Proof.
  intros Hf [l w] [Hc [Hb HJ]]. unfold assign. simpl in *.
  repeat split; simpl; rewrite ?Hf; auto.
Qed.

Lemma delay_keeps_progress ms : along (keeps scanprogresses) (delay ms).
Proof. intro w. reflexivity. Qed.

Lemma retryWithBackoff_loop_loadedAtLeast b chain n : forall attempt operation,
  along (preserved (loadedAtLeast b chain)) operation ->
  along (preserved (loadedAtLeast b chain))
    (retryWithBackoff_loop scannerConfig n attempt operation).
Proof.
  induction n as [| n IH]; intros attempt operation Hop; simpl.
  - along_step.
  - along_step; [exact Hop |].
    along_step; [along_step |].
    along_step; [apply inWorld_loadedAtLeast, delay_keeps_progress | apply IH, Hop].
Qed.

Lemma scanStep_loadedAtLeast b chain currentBlock :
  along (preserved (loadedAtLeast b chain))
    (scanStep env chainConfig scannerConfig currentBlock).
Proof.
  unfold scanStep. along_step; [intro s; apply preserved_refl |].
  along_step.
  - along_step; [apply attemptBatch_loadedAtLeast |].
    along_step; [apply assign_loadedAtLeast; reflexivity |].
    along_step; [apply inWorld_loadedAtLeast, delay_keeps_progress | along_step].
  - along_step; [| apply assign_loadedAtLeast; reflexivity].
    apply retryWithBackoff_loop_loadedAtLeast, attemptBatch_loadedAtLeast.
Qed.

Lemma scanLoop_loadedAtLeast b chain currentBlock fuel :
  along (preserved (loadedAtLeast b chain))
    (scanLoop env chainConfig scannerConfig fuel currentBlock).
Proof.
  induction fuel as [| fuel IH]; intro s; simpl.
  - destruct (fromBlock (fst s) <=? currentBlock); apply preserved_refl.
  - destruct (fromBlock (fst s) <=? currentBlock); [| apply preserved_refl].
    revert s. change (along (preserved (loadedAtLeast b chain))
                        (scanStep env chainConfig scannerConfig currentBlock ;;
                         scanLoop env chainConfig scannerConfig fuel currentBlock)).
    along_step; [apply scanStep_loadedAtLeast | exact IH].
Qed.

Lemma scanCycle_progressAtLeast b fuel :
  along (preserved (progressAtLeast b (chainName chainConfig)))
    (scanCycle env chainConfig scannerConfig fuel).
Proof.
  intros w HJ. unfold scanCycle, bind, getScanProgress, bind, ScanProgressModel_findOne.
  destruct (storage_down env (calls w));
    [simpl; eapply keeps_progressAtLeast; [| exact HJ]; reflexivity |].
  destruct HJ as [p [Hp Hle]]. rewrite Hp. simpl.
  match goal with
  | |- context [FeeCollectorService_getCurrentBlockNumber env ?w0] =>
      pose proof (getCurrentBlockNumber_keeps env scanprogresses
                    progress_blind_quiet w0) as Hk;
      destruct (FeeCollectorService_getCurrentBlockNumber env w0) as [[h | e |] w1]
  end; simpl in Hk |- *;
    try (eapply keeps_progressAtLeast; [exact Hk |]; exists p; auto).
  destruct (ScanProgress.lastScannedBlock p >=? h); simpl;
    [eapply keeps_progressAtLeast; [exact Hk |]; exists p; auto |].
  unfold withLocals.
  match goal with
  | |- context [scanLoop _ _ _ _ _ ?s0] =>
      pose proof (scanLoop_loadedAtLeast b (chainName chainConfig) h fuel s0) as Hl;
      destruct (scanLoop env chainConfig scannerConfig fuel h s0) as [r s1]
  end. simpl in *.
  apply Hl. repeat split; simpl.
  - eapply findProgress_chain. exact Hp.
  - exact Hle.
  - eapply keeps_progressAtLeast; [exact Hk |]. exists p. auto.
Qed.

Lemma scanForNewEvents_progressAtLeast b fuel :
  along (preserved (progressAtLeast b (chainName chainConfig)))
    (scanForNewEvents env chainConfig scannerConfig fuel).
Proof.
  intro w. unfold scanForNewEvents.
  destruct (isScanning w); [apply preserved_refl |].
  revert w.
  match goal with
  | |- forall w, preserved ?I w (snd (?m w)) => change (along (preserved I) m)
  end.
  along_step; [apply along_modify; intros w H; exact H |].
  apply along_try_finally; [preorder | | apply along_modify; intros w H; exact H].
  along_step; [apply scanCycle_progressAtLeast | along_step].
Qed.

End Monotone.

Lemma lastScanned_atLeast chain w b :
  lastScanned chain w = Some b -> progressAtLeast b chain w.
Proof.
  unfold lastScanned, progressAtLeast. intro H.
  destruct (findProgress chain (scanprogresses w)) as [p |]; [| discriminate].
  injection H as <-. exists p. split; [reflexivity | lia].
Qed.

Lemma atLeast_lastScanned chain w b :
  progressAtLeast b chain w -> exists b', lastScanned chain w = Some b' /\ b <= b'.
Proof.
  unfold lastScanned. intros [p [Hp Hle]]. rewrite Hp. simpl. eauto.
Qed.

Lemma scanCycles_progressAtLeast env cc sc b fuels : forall w,
  progressAtLeast b (chainName cc) w ->
  progressAtLeast b (chainName cc) (scanCycles env cc sc fuels w).
Proof.
  induction fuels as [| fuel rest IH]; intros w H; simpl; [exact H |].
  apply IH. apply (scanForNewEvents_progressAtLeast env cc sc b fuel w H).
Qed.

(** C9. Progress monotonicity.  The advancement step sets
    [lastScannedBlock] to the maximum of its value and the proposed
    block, so it never lowers it, whatever block is proposed; and over
    any run of scan cycles, whatever the chain and the database answer
    and however each cycle ends, the stored [lastScannedBlock] of the
    chain is at least what it was. *)
Theorem C9_progress_monotone (env : Env) (cc : ChainConfig.t) (sc : ScannerConfig.t) :
  (forall p lastBlock eventsCount blocksScanned date,
     let p' := ScanProgress.updateProgress p lastBlock eventsCount blocksScanned date in
     ScanProgress.lastScannedBlock p'
     = Z.max (ScanProgress.lastScannedBlock p) lastBlock /\
     ScanProgress.lastScannedBlock p <= ScanProgress.lastScannedBlock p') /\
  (forall fuels w b,
     lastScanned (chainName cc) w = Some b ->
     exists b',
       lastScanned (chainName cc) (scanCycles env cc sc fuels w) = Some b' /\ b <= b').
Proof.
  split.
  - intros p lastBlock eventsCount blocksScanned date. simpl. split; [reflexivity | lia].
  - intros fuels w b H. apply atLeast_lastScanned.
    apply scanCycles_progressAtLeast. apply lastScanned_atLeast. exact H.
Qed.

Lemma C9_progress_monotone_witness :
  exists b',
    lastScanned "polygon"
      (scanCycles
         (Scenario.chain 4 [Scenario.entry 1 "0xaa" 0; Scenario.entry 3 "0xbb" 1]
            (fun n _ _ => Nat.eqb n 2))
         Scenario.polygon (Scenario.config 2 3) [10%nat; 10%nat]
         (Scenario.world [] [Scenario.progressAt 0 0 0])) = Some b' /\
    0 <= b'.
Proof.
  apply (proj2 (C9_progress_monotone
                  (Scenario.chain 4 [Scenario.entry 1 "0xaa" 0; Scenario.entry 3 "0xbb" 1]
                     (fun n _ _ => Nat.eqb n 2))
                  Scenario.polygon (Scenario.config 2 3))
           [10%nat; 10%nat] (Scenario.world [] [Scenario.progressAt 0 0 0]) 0).
  reflexivity.
Defined.

(** *** The loop ends *)

Section Termination.

Variable env : Env.
Variable chainConfig : ChainConfig.t.
Variable scannerConfig : ScannerConfig.t.

(** A turn of the loop that returns has moved [fromBlock] past the batch. *)
Lemma scanStep_advances currentBlock s s' :
  scanStep env chainConfig scannerConfig currentBlock s = (Returned tt, s') ->
  fromBlock (fst s')
  = Z.min (fromBlock (fst s) + ScannerConfig.batchSize scannerConfig - 1) currentBlock + 1.
Proof.
  cbv beta iota zeta delta [scanStep bind locals try_catch assign fst snd].
  destruct s as [l w].
  set (toBlock := Z.min (fromBlock l + ScannerConfig.batchSize scannerConfig - 1) currentBlock).
  destruct (attemptBatch env chainConfig toBlock (l, w)) as [[[] | e |] [l1 w1]].
  - destruct (toBlock + 1 <=? currentBlock).
    + unfold inWorld, delay. simpl. intro H. injection H as <-. reflexivity.
    + unfold ret. intro H. injection H as <-. reflexivity.
  - destruct (retryWithBackoff scannerConfig (attemptBatch env chainConfig toBlock) (l1, w1))
      as [[[] | e' |] [l2 w2]]; intro H; try discriminate.
    injection H as <-. reflexivity.
  - discriminate.
Qed.

Lemma scanLoop_terminates currentBlock fuel : forall s,
  1 <= ScannerConfig.batchSize scannerConfig ->
  (Z.to_nat (currentBlock - fromBlock (fst s) + 1) <= fuel)%nat ->
  fst (scanLoop env chainConfig scannerConfig fuel currentBlock s) <> Running.
Proof.
  induction fuel as [| fuel IH]; intros s Hb Hfuel; simpl.
  - destruct (fromBlock (fst s) <=? currentBlock) eqn:Hle; [| discriminate].
    apply Z.leb_le in Hle. lia.
  - destruct (fromBlock (fst s) <=? currentBlock) eqn:Hle; [| discriminate].
    apply Z.leb_le in Hle. unfold bind.
    pose proof (scanStep_total env chainConfig scannerConfig currentBlock s) as Ht.
    destruct (scanStep env chainConfig scannerConfig currentBlock s) as [[[] | e |] s1] eqn:Hs;
      simpl in Ht; [| discriminate | congruence].
    apply IH; [exact Hb |].
    rewrite (scanStep_advances _ _ _ Hs). lia.
Qed.

Lemma scanCycle_terminates w :
  1 <= ScannerConfig.batchSize scannerConfig ->
  exists fuel0, forall fuel, (fuel0 <= fuel)%nat ->
    fst (scanCycle env chainConfig scannerConfig fuel w) <> Running.
Proof.
  intro Hb. unfold scanCycle, bind.
  pose proof (getScanProgress_total env chainConfig w) as Ht1.
  destruct (getScanProgress env chainConfig w) as [[p | e |] w1]; simpl in Ht1;
    [| exists 0%nat; discriminate | congruence].
  pose proof (getCurrentBlockNumber_total env w1) as Ht2.
  destruct (FeeCollectorService_getCurrentBlockNumber env w1) as [[h | e |] w2];
    simpl in Ht2; [| exists 0%nat; discriminate | congruence].
  exists (Z.to_nat (h - ScanProgress.lastScannedBlock p)). intros fuel Hfuel.
  destruct (ScanProgress.lastScannedBlock p >=? h); [discriminate |].
  unfold withLocals.
  match goal with
  | |- context [scanLoop _ _ _ _ _ ?s0] =>
      pose proof (scanLoop_terminates h fuel s0 Hb) as Hl;
      destruct (scanLoop env chainConfig scannerConfig fuel h s0) as [r s1]
  end.
  simpl in *. apply Hl. lia.
Qed.

Lemma scanForNewEvents_terminates w :
  1 <= ScannerConfig.batchSize scannerConfig ->
  exists fuel0, forall fuel, (fuel0 <= fuel)%nat ->
    fst (scanForNewEvents env chainConfig scannerConfig fuel w) <> Running.
Proof.
  intro Hb. unfold scanForNewEvents.
  destruct (isScanning w); [exists 0%nat; discriminate |].
  destruct (scanCycle_terminates (set_isScanning true w) Hb) as [fuel0 H].
  exists fuel0. intros fuel Hfuel. specialize (H fuel Hfuel).
  unfold bind, modify, try_finally, try_catch, throw.
  destruct (scanCycle env chainConfig scannerConfig fuel (set_isScanning true w))
    as [[[] | e |] w1]; simpl in *; congruence.
Qed.

End Termination.

(** C10. Guard release on every exit.  A call of [scanForNewEvents]
    that began with [isScanning] false leaves it false when it ends,
    whether it returns or throws; and with a batch size of at least one
    block the call does end. *)
Theorem C10_guard_released (env : Env) (cc : ChainConfig.t) (sc : ScannerConfig.t)
  (w : World) :
  isScanning w = false ->
  (forall fuel,
     fst (scanForNewEvents env cc sc fuel w) <> Running ->
     isScanning (snd (scanForNewEvents env cc sc fuel w)) = false) /\
  (1 <= ScannerConfig.batchSize sc ->
   exists fuel0, forall fuel, (fuel0 <= fuel)%nat ->
     fst (scanForNewEvents env cc sc fuel w) <> Running).
Proof.
  intro Hidle. split.
  - intro fuel. unfold scanForNewEvents. rewrite Hidle.
    unfold bind, modify, try_finally, try_catch, throw.
    destruct (scanCycle env cc sc fuel (set_isScanning true w)) as [[[] | e |] w1];
      simpl; congruence.
  - apply scanForNewEvents_terminates.
Qed.

Lemma C10_guard_released_witness :
  let env := Scenario.chain 4 [] (fun _ f _ => f =? 1) in
  let w := Scenario.world [] [Scenario.progressAt 0 0 0] in
  (forall fuel,
     fst (scanForNewEvents env Scenario.polygon (Scenario.config 2 3) fuel w) <> Running ->
     isScanning (snd (scanForNewEvents env Scenario.polygon (Scenario.config 2 3) fuel w))
     = false) /\
  (1 <= 2 ->
   exists fuel0, forall fuel, (fuel0 <= fuel)%nat ->
     fst (scanForNewEvents env Scenario.polygon (Scenario.config 2 3) fuel w) <> Running).
Proof.
  intros env w.
  apply (C10_guard_released env Scenario.polygon (Scenario.config 2 3) w).
  reflexivity.
Defined.

(** *** A cycle without failures *)

Lemma Partition_functional batchSize height from l1 :
  Partition batchSize height from l1 ->
  forall l2, Partition batchSize height from l2 -> l1 = l2.
Proof.
  induction 1 as [from Hgt | from rest Hle Hrest IH]; intros l2 H2; inversion H2; subst.
  - reflexivity.
  - lia.
  - lia.
  - f_equal. apply IH. assumption.
Qed.

(** The batches of a partition lie in [from .. height], hold at most
    [batchSize] blocks each, come in strictly increasing block order,
    and leave no block of [from .. height] out. *)
Lemma Partition_bounds batchSize height from l :
  1 <= batchSize ->
  Partition batchSize height from l ->
  forall f t, In (f, t) l -> from <= f <= t /\ t <= height /\ t - f + 1 <= batchSize.
Proof.
  intros Hb H. induction H as [from Hgt | from rest Hle Hrest IH]; intros f t Hin.
  - destruct Hin.
  - destruct Hin as [Heq | Hin].
    + injection Heq as <- <-. lia.
    + specialize (IH f t Hin). lia.
Qed.

Lemma Partition_sorted batchSize height from l :
  1 <= batchSize ->
  Partition batchSize height from l ->
  StronglySorted (fun a b => snd a < fst b) l.
Proof.
  intros Hb H. induction H as [from Hgt | from rest Hle Hrest IH].
  - constructor.
  - constructor; [exact IH |].
    apply Forall_forall. intros [f t] Hin. simpl.
    pose proof (Partition_bounds _ _ _ _ Hb Hrest f t Hin). lia.
Qed.

Lemma Partition_covers batchSize height from l :
  1 <= batchSize ->
  Partition batchSize height from l ->
  forall k, from <= k <= height -> exists f t, In (f, t) l /\ f <= k <= t.
Proof.
  intros Hb H. induction H as [from Hgt | from rest Hle Hrest IH]; intros k Hk.
  - lia.
  - destruct (Z_le_gt_dec k (Z.min (from + batchSize - 1) height)) as [Hin | Hout].
    + exists from, (Z.min (from + batchSize - 1) height). split; [left; reflexivity | lia].
    + destruct (IH k) as [f [t [Hft Hr]]]; [lia |].
      exists f, t. split; [right; exact Hft | exact Hr].
Qed.

Section ReliableCycle.

Variable env : Env.
Variable chainConfig : ChainConfig.t.
Variable scannerConfig : ScannerConfig.t.
Variable height : Z.
Hypothesis env_reliable : Reliable env height.

Lemma footprint_blind c : isFetch c = false -> blind footprint c.
Proof.
  intros Hc ok w. unfold footprint, record. simpl. rewrite fetchCalls_app.
  destruct c; try discriminate; simpl; rewrite app_nil_r; reflexivity.
Qed.

Lemma footprint_feeevents l w : footprint (set_feeevents l w) = footprint w.
Proof. reflexivity. Qed.

Lemma loadFeeCollectorEvents_reliable f t w :
  exists events,
    loadFeeCollectorEvents env f t w
    = (Returned events, record (call_queryFilter f t) true w).
Proof.
  unfold loadFeeCollectorEvents, try_catch, remote.
  destruct env_reliable as [_ [Hq _]]. specialize (Hq (calls w) f t).
  destruct (contract_queryFilter env (calls w) f t) as [events |]; [| congruence].
  exists events. reflexivity.
Qed.

Lemma scanBatch_reliable f t w :
  exists n w',
    scanBatch env chainConfig f t w = (Returned n, w') /\
    scanprogresses w' = scanprogresses w /\
    fetchCalls (trace w') = fetchCalls (trace w) ++ [(f, t)].
Proof.
  unfold scanBatch, bind.
  destruct (loadFeeCollectorEvents_reliable f t w) as [events ->].
  assert (Hrec : fetchCalls (trace (record (call_queryFilter f t) true w))
                 = fetchCalls (trace w) ++ [(f, t)]).
  { simpl. rewrite fetchCalls_app. reflexivity. }
  destruct (Nat.eqb (List.length events) 0).
  - eexists. eexists. split; [reflexivity |]. split; [reflexivity | exact Hrec].
  - set (w1 := record (call_queryFilter f t) true w) in *.
    destruct (parseFeeCollectorEvents_returns env events w1) as [parsed Hp].
    pose proof (parseFeeCollectorEvents_keeps env footprint footprint_blind events w1) as Hk1.
    destruct (parseFeeCollectorEvents env events w1) as [c w2]. simpl in Hp, Hk1. subst c.
    destruct env_reliable as [_ [_ Hup]].
    destruct (storeEvents_up env chainConfig parsed w2 (Hup _)) as [Hs _].
    pose proof (storeEvents_keeps env chainConfig footprint footprint_blind
                  footprint_feeevents parsed w2) as Hk2.
    destruct (storeEvents env chainConfig parsed w2) as [c w3]. simpl in Hs, Hk2. subst c.
    eexists. eexists. split; [reflexivity |].
    unfold keeps, footprint in Hk1, Hk2.
    injection Hk1 as Hp1 Hf1. injection Hk2 as Hp2 Hf2.
    split; [rewrite Hp2, Hp1; reflexivity | rewrite Hf2, Hf1; exact Hrec].
Qed.

Lemma attemptBatch_reliable toBlock l w :
  stored (l, w) ->
  exists l' w',
    attemptBatch env chainConfig toBlock (l, w) = (Returned tt, (l', w')) /\
    stored (l', w') /\
    fromBlock l' = fromBlock l /\
    fetchCalls (trace w') = fetchCalls (trace w) ++ [(fromBlock l, toBlock)].
Proof.
  intros [p Hp]. simpl in Hp.
  unfold attemptBatch, bind, locals, inWorld, assign, now. simpl.
  destruct (scanBatch_reliable (fromBlock l) toBlock w) as [n [w1 [-> [Hsp Hf]]]].
  simpl. unfold save. destruct env_reliable as [_ [_ Hup]]. rewrite Hup. simpl.
  rewrite Hsp, Hp. eexists. eexists. split; [reflexivity |].
  split; [| split].
  - unfold stored. simpl.
    erewrite findProgress_replace by exact Hp. eauto.
  - reflexivity.
  - simpl. rewrite fetchCalls_app. simpl. rewrite app_nil_r. exact Hf.
Qed.

Lemma scanStep_reliable s :
  stored s ->
  exists s',
    scanStep env chainConfig scannerConfig height s = (Returned tt, s') /\
    stored s' /\
    fromBlock (fst s')
    = Z.min (fromBlock (fst s) + ScannerConfig.batchSize scannerConfig - 1) height + 1 /\
    fetchCalls (trace (snd s'))
    = fetchCalls (trace (snd s))
      ++ [(fromBlock (fst s),
           Z.min (fromBlock (fst s) + ScannerConfig.batchSize scannerConfig - 1) height)].
Proof.
  destruct s as [l w]. intro Hs.
  cbv beta iota zeta delta [scanStep bind locals try_catch assign fst snd].
  set (toBlock := Z.min (fromBlock l + ScannerConfig.batchSize scannerConfig - 1) height).
  destruct (attemptBatch_reliable toBlock l w Hs) as [l' [w' [-> [Hs' [Hfrom Hf]]]]].
  destruct (toBlock + 1 <=? height).
  - unfold inWorld, delay. simpl. eexists. split; [reflexivity |].
    simpl. split; [exact Hs' | split; [reflexivity |]].
    rewrite fetchCalls_app. simpl. rewrite app_nil_r. exact Hf.
  - unfold ret. eexists. split; [reflexivity |].
    simpl. split; [exact Hs' | split; [reflexivity | exact Hf]].
Qed.

Lemma scanLoop_reliable fuel : forall s,
  1 <= ScannerConfig.batchSize scannerConfig ->
  stored s ->
  (Z.to_nat (height - fromBlock (fst s) + 1) <= fuel)%nat ->
  exists s' batches,
    scanLoop env chainConfig scannerConfig fuel height s = (Returned tt, s') /\
    fetchCalls (trace (snd s')) = fetchCalls (trace (snd s)) ++ batches /\
    Partition (ScannerConfig.batchSize scannerConfig) height (fromBlock (fst s)) batches.
Proof.
  induction fuel as [| fuel IH]; intros s Hb Hs Hfuel; simpl.
  - destruct (fromBlock (fst s) <=? height) eqn:Hle.
    + apply Z.leb_le in Hle. lia.
    + apply Z.leb_gt in Hle. exists s, []. rewrite app_nil_r.
      split; [reflexivity | split; [reflexivity | constructor; lia]].
  - destruct (fromBlock (fst s) <=? height) eqn:Hle.
    + apply Z.leb_le in Hle. unfold bind.
      destruct (scanStep_reliable s Hs) as [s1 [-> [Hs1 [Hfrom Hf]]]].
      destruct (IH s1 Hb Hs1) as [s2 [rest [Hloop [Hf2 Hpart]]]]; [rewrite Hfrom; lia |].
      exists s2. eexists. split; [exact Hloop |].
      split.
      * rewrite Hf2, Hf, <- app_assoc. reflexivity.
      * simpl. constructor; [exact Hle |]. rewrite <- Hfrom. exact Hpart.
    + apply Z.leb_gt in Hle. exists s, []. rewrite app_nil_r.
      split; [reflexivity | split; [reflexivity | constructor; lia]].
Qed.

Lemma scanForNewEvents_reliable fuel w p :
  1 <= ScannerConfig.batchSize scannerConfig ->
  isScanning w = false ->
  findProgress (chainName chainConfig) (scanprogresses w) = Some p ->
  (Z.to_nat (height - ScanProgress.lastScannedBlock p) <= fuel)%nat ->
  exists w' batches,
    scanForNewEvents env chainConfig scannerConfig fuel w = (Returned tt, w') /\
    fetchCalls (trace w') = fetchCalls (trace w) ++ batches /\
    Partition (ScannerConfig.batchSize scannerConfig) height
      (ScanProgress.lastScannedBlock p + 1) batches /\
    (height <= ScanProgress.lastScannedBlock p ->
     batches = [] /\ scanprogresses w' = scanprogresses w).
Proof.
  intros Hb Hidle Hp Hfuel. unfold scanForNewEvents. rewrite Hidle.
  unfold bind at 1. unfold modify at 1. unfold try_finally, try_catch.
  unfold scanCycle, bind, getScanProgress, bind, ScanProgressModel_findOne.
  destruct env_reliable as [Hh [_ Hup]].
  rewrite Hup. simpl. rewrite Hp. simpl.
  unfold FeeCollectorService_getCurrentBlockNumber, BlockchainUtils_getCurrentBlockNumber.
  simpl. unfold try_catch, remote. rewrite Hh. simpl.
  destruct (ScanProgress.lastScannedBlock p >=? height) eqn:Hcmp.
  - simpl. eexists. exists []. split; [reflexivity |].
    simpl. rewrite !fetchCalls_app. simpl. rewrite !app_nil_r.
    split; [reflexivity |]. split; [| auto].
    constructor. apply Z.geb_le in Hcmp. lia.
  - unfold withLocals.
    match goal with
    | |- context [scanLoop _ _ _ _ _ ?s0] =>
        destruct (scanLoop_reliable fuel s0 Hb) as [s1 [batches [-> [Hf Hpart]]]]
    end.
    + exists p. simpl. rewrite (findProgress_chain _ _ _ Hp). exact Hp.
    + simpl. lia.
    + simpl. eexists. exists batches. split; [reflexivity |].
      simpl in Hf |- *. rewrite Hf. rewrite !fetchCalls_app. simpl. rewrite !app_nil_r.
      split; [reflexivity |]. split; [exact Hpart |].
      intro Hle. rewrite Z.geb_leb in Hcmp. apply Z.leb_gt in Hcmp. lia.
Qed.

End ReliableCycle.




(** *** Retries *)

Section Retries.

Variable env : Env.
Variable chainConfig : ChainConfig.t.
Variable scannerConfig : ScannerConfig.t.

Lemma save_thrown_keeps doc w e :
  fst (save env doc w) = Thrown e ->
  scanprogresses (snd (save env doc w)) = scanprogresses w.
Proof.
  unfold save. destruct (storage_down env (calls w)); [reflexivity |].
  destruct (findProgress _ _); [discriminate | reflexivity].
Qed.

(** An attempt that throws has not touched the stored progress. *)
Lemma attemptBatch_thrown_keeps toBlock s e :
  fst (attemptBatch env chainConfig toBlock s) = Thrown e ->
  scanprogresses (snd (snd (attemptBatch env chainConfig toBlock s)))
  = scanprogresses (snd s).
Proof.
  destruct s as [l w].
  unfold attemptBatch, bind, locals, inWorld, assign, now. simpl.
  pose proof (scanBatch_keeps_progress env chainConfig (fromBlock l) toBlock w) as Hk.
  destruct (scanBatch env chainConfig (fromBlock l) toBlock w) as [[n | e' |] w1];
    simpl in Hk |- *; try (intros _; exact Hk).
  match goal with
  | |- context [save env ?doc w1] =>
      pose proof (save_thrown_keeps doc w1) as Hs;
      destruct (save env doc w1) as [[[] | e' |] w2]
  end; simpl in *; try discriminate.
  intros _. rewrite (Hs e' eq_refl). exact Hk.
Qed.

Lemma retryWithBackoff_loop_thrown_keeps operation n : forall attempt s e,
  (forall s0 e0, fst (operation s0) = Thrown e0 ->
     scanprogresses (snd (snd (operation s0))) = scanprogresses (snd s0)) ->
  fst (retryWithBackoff_loop scannerConfig n attempt operation s) = Thrown e ->
  scanprogresses (snd (snd (retryWithBackoff_loop scannerConfig n attempt operation s)))
  = scanprogresses (snd s).
Proof.
  induction n as [| n IH]; intros attempt s e Hop; simpl; [discriminate |].
  unfold try_catch. pose proof (Hop s) as Hs.
  destruct (operation s) as [[[] | e1 |] s1]; simpl in *; try discriminate.
  specialize (Hs e1 eq_refl).
  destruct (attempt =? ScannerConfig.maxRetries scannerConfig); [intros _; exact Hs |].
  unfold bind, inWorld, delay. simpl. intro H.
  rewrite (IH _ _ e Hop H). simpl. exact Hs.
Qed.

(** A turn of the loop that throws leaves the stored progress where it
    was when the turn began. *)
Lemma scanStep_thrown_keeps currentBlock s e :
  fst (scanStep env chainConfig scannerConfig currentBlock s) = Thrown e ->
  scanprogresses (snd (snd (scanStep env chainConfig scannerConfig currentBlock s)))
  = scanprogresses (snd s).
Proof.
  cbv beta iota zeta delta [scanStep bind locals try_catch assign].
  destruct s as [l w]. simpl fst. simpl snd.
  set (toBlock := Z.min (fromBlock l + ScannerConfig.batchSize scannerConfig - 1) currentBlock).
  pose proof (attemptBatch_thrown_keeps toBlock (l, w)) as Ha.
  destruct (attemptBatch env chainConfig toBlock (l, w)) as [[[] | e1 |] s1]; simpl in Ha.
  - destruct (toBlock + 1 <=? currentBlock); discriminate.
  - specialize (Ha e1 eq_refl).
    pose proof (retryWithBackoff_loop_thrown_keeps (attemptBatch env chainConfig toBlock)
                  (Z.to_nat (ScannerConfig.maxRetries scannerConfig)) 1 s1) as Hr.
    fold (retryWithBackoff scannerConfig (attemptBatch env chainConfig toBlock)) in Hr.
    destruct (retryWithBackoff scannerConfig (attemptBatch env chainConfig toBlock) s1)
      as [[[] | e2 |] s2]; simpl in *; try discriminate.
    intros _. rewrite (Hr e2); [exact Ha | | reflexivity].
    intros s0 e0. apply attemptBatch_thrown_keeps.
  - discriminate.
Qed.

(** With at least one retry allowed, [retryWithBackoff] returns only
    when a run of the operation returned. *)
Lemma retryWithBackoff_loop_returned operation n : forall attempt s s',
  (1 <= n)%nat ->
  attempt + Z.of_nat n - 1 = ScannerConfig.maxRetries scannerConfig ->
  retryWithBackoff_loop scannerConfig n attempt operation s = (Returned tt, s') ->
  exists s0, operation s0 = (Returned tt, s').
Proof.
  induction n as [| n IH]; intros attempt s s' Hn Hmax; [lia |]. simpl.
  unfold try_catch.
  destruct (operation s) as [[[] | e1 |] s1] eqn:Hop; intro H.
  - injection H as <-. eauto.
  - destruct (attempt =? ScannerConfig.maxRetries scannerConfig) eqn:Hlast;
      [discriminate |].
    apply Z.eqb_neq in Hlast.
    unfold bind, inWorld, delay in H. simpl in H.
    apply IH in H; [exact H | lia | lia].
  - discriminate.
Qed.

Lemma retryWithBackoff_returned operation s s' :
  1 <= ScannerConfig.maxRetries scannerConfig ->
  retryWithBackoff scannerConfig operation s = (Returned tt, s') ->
  exists s0, operation s0 = (Returned tt, s').
Proof.
  intros Hmax. unfold retryWithBackoff.
  apply retryWithBackoff_loop_returned; lia.
Qed.

End Retries.

(** The retry schedule at work: three retries allowed, the fetch of
    [1, 2] never answered.  The batch is fetched four times (the first
    try and three retries), the waits are 1000 and 2000 ms, the error
    leaves [scanForNewEvents], and the stored progress is still 0. *)
Example retries_exhausted :
  let env := Scenario.chain 4 [Scenario.entry 1 "0xaa" 0; Scenario.entry 3 "0xbb" 1]
               (fun _ f _ => f =? 1) in
  let r := scanForNewEvents env Scenario.polygon (Scenario.config 2 3) 10
             (Scenario.world [] [Scenario.progressAt 0 0 0]) in
  fst r = Thrown (Error "Event loading failed") /\
  fetchCalls (trace (snd r)) = [(1, 2); (1, 2); (1, 2); (1, 2)] /\
  delays (trace (snd r)) = [1000; 2000] /\
  lastScanned "polygon" (snd r) = Some 0 /\
  isScanning (snd r) = false.
Proof. repeat split; reflexivity. Qed.

(** A fetch that fails once and is answered when retried: the batch is
    stored and the progress saved once for it. *)
Example retry_succeeds :
  let env := Scenario.chain 4 [Scenario.entry 1 "0xaa" 0; Scenario.entry 3 "0xbb" 1]
               (fun n _ _ => Nat.eqb n 2) in
  let r := scanForNewEvents env Scenario.polygon (Scenario.config 2 3) 10
             (Scenario.world [] [Scenario.progressAt 0 0 0]) in
  fst r = Returned tt /\
  fetchCalls (trace (snd r)) = [(1, 2); (1, 2); (3, 4)] /\
  savedBlocks (trace (snd r)) = [2; 4] /\
  hasKey ("0xaa", 0) (feeevents (snd r)) = true /\
  hasKey ("0xbb", 1) (feeevents (snd r)) = true.
Proof. repeat split; reflexivity. Qed.

(** C1 (progress is saved only after the events of the batch are
    stored, so that it never passes a block whose events were not
    stored) fails on the code when no retry is allowed.  [maxRetries] is 0,
    the batch size 2, the stored progress 0, the chain at block 4 with
    an entry in block 1 and one in block 3; the first fetch of [1, 2]
    is not answered.  [retryWithBackoff] does not run the operation and
    returns, the loop goes on with [3, 4], and the progress is saved at
    block 4: the batch [1, 2] was never fetched with success, the entry
    of block 1 is not in the store although the stored progress is
    beyond it, and the next cycle finds nothing to do. *)
Theorem C1_progress_passes_unstored_batch :
  let chainLog := [Scenario.entry 1 "0xaa" 0; Scenario.entry 3 "0xbb" 1] in
  let env := Scenario.chain 4 chainLog (fun n _ _ => Nat.eqb n 2) in
  let sc := Scenario.config 2 0 in
  let w := Scenario.world [] [Scenario.progressAt 0 0 0] in
  let r := scanForNewEvents env Scenario.polygon sc 10 w in
  let r2 := scanForNewEvents env Scenario.polygon sc 10 (snd r) in
  fst r = Returned tt /\
  fetchCalls (trace (snd r)) = [(1, 2); (3, 4)] /\
  fetched (trace (snd r)) = [(3, 4)] /\
  savedBlocks (trace (snd r)) = [4] /\
  lastScanned "polygon" (snd r) = Some 4 /\
  logsIn chainLog 1 2 = [Scenario.entry 1 "0xaa" 0] /\
  hasKey (rawKey (Scenario.entry 1 "0xaa" 0)) (feeevents (snd r)) = false /\
  ~ safe env chainLog "polygon" 0 (snd r) /\
  fst r2 = Returned tt /\
  fetchCalls (trace (snd r2)) = fetchCalls (trace (snd r)) /\
  feeevents (snd r2) = feeevents (snd r).
Proof.
  intros chainLog env sc w r r2.
  repeat split; try reflexivity.
  intros [b [Hb Hcov]].
  assert (Hb4 : b = 4) by (vm_compute in Hb; congruence). subst b.
  specialize (Hcov (Scenario.entry 1 "0xaa" 0)).
  assert (Hstored : hasKey (rawKey (Scenario.entry 1 "0xaa" 0)) (feeevents (snd r)) = true).
  { apply Hcov.
    - left. reflexivity.
    - simpl. lia.
    - eexists. split; [reflexivity |]. repeat split; simpl; discriminate. }
  vm_compute in Hstored. discriminate.
Qed.

(** C3 (a failed batch is retried, and when the retries are used up
    the error leaves [scanForNewEvents] with the progress not beyond
    [from - 1]) fails on the code when no retry is allowed.  [maxRetries] is 0
    and the fetch of [1, 2] is never answered: the batch is tried once,
    no error leaves [scanForNewEvents], and the stored progress ends at
    block 4, beyond [from - 1 = 0]. *)
Theorem C3_failure_swallowed_without_retries :
  let env := Scenario.chain 4 [Scenario.entry 1 "0xaa" 0; Scenario.entry 3 "0xbb" 1]
               (fun _ f _ => f =? 1) in
  let r := scanForNewEvents env Scenario.polygon (Scenario.config 2 0) 10
             (Scenario.world [] [Scenario.progressAt 0 0 0]) in
  fst r = Returned tt /\
  fetchCalls (trace (snd r)) = [(1, 2); (3, 4)] /\
  fetched (trace (snd r)) = [(3, 4)] /\
  delays (trace (snd r)) = [] /\
  lastScanned "polygon" (snd r) = Some 4.
Proof. repeat split; reflexivity. Qed.

(** *** No stored progress beyond the stored events *)

Section Safety.

Variable env : Env.
Variable chainConfig : ChainConfig.t.
Variable scannerConfig : ScannerConfig.t.
Variable chainLog : list Event.t.
Hypothesis chain_consistent : ConsistentChain env chainLog.
Hypothesis retries_allowed : 1 <= ScannerConfig.maxRetries scannerConfig.
Hypothesis batch_positive : 1 <= ScannerConfig.batchSize scannerConfig.

Lemma feeevents_blind c : isFetch c = false -> blind feeevents c.
Proof. intros _ ok w. reflexivity. Qed.

Lemma insertMany_grows docs w : grows w (snd (FeeEventModel_insertMany env docs w)).
Proof.
  unfold FeeEventModel_insertMany.
  destruct (filter FeeEvent.valid docs) as [| d ds]; [apply grows_refl |].
  generalize (d :: ds). intro validDocs.
  destruct (storage_down env (calls w)); [apply keeps_grows; reflexivity |].
  pose proof (insertUnordered_keeps_keys validDocs (feeevents w) 0) as Hk.
  destruct (insertUnordered validDocs (feeevents w) 0) as [coll [| n]]; simpl in *;
    intros k H; apply Hk; exact H.
Qed.

Lemma storeEvents_grows events w : grows w (snd (storeEvents env chainConfig events w)).
Proof.
  unfold storeEvents. destruct (Nat.eqb (List.length events) 0); [apply grows_refl |].
  unfold try_catch.
  pose proof (insertMany_grows (map (toFeeEvent chainConfig) events) w) as Hg.
  destruct (FeeEventModel_insertMany env (map (toFeeEvent chainConfig) events) w)
    as [[[] | e |] w1]; simpl in *; try exact Hg.
  destruct (code_is e 11000); exact Hg.
Qed.

(** When [storeEvents] returns, every event of the call whose document
    passes the schema is in the store. *)
Lemma storeEvents_returned_stores events w :
  fst (storeEvents env chainConfig events w) = Returned tt ->
  forall e, In e events -> storable chainConfig e = true ->
    hasKey (eventKey e)
      (feeevents (snd (storeEvents env chainConfig events w))) = true.
Proof.
  intros Hr e Hin Hs.
  assert (Hv : In (toFeeEvent chainConfig e)
                 (filter FeeEvent.valid (map (toFeeEvent chainConfig) events))).
  { apply filter_In. split; [apply in_map; exact Hin | rewrite valid_toFeeEvent; exact Hs]. }
  destruct (storage_down env (calls w)) eqn:Hdown.
  - exfalso. revert Hr. unfold storeEvents.
    destruct events as [| e0 rest]; [destruct Hin |].
    change (Nat.eqb (List.length (e0 :: rest)) 0) with false. cbv beta iota.
    unfold try_catch, FeeEventModel_insertMany.
    destruct (filter FeeEvent.valid (map (toFeeEvent chainConfig) (e0 :: rest)));
      [destruct Hv |].
    rewrite Hdown. discriminate.
  - destruct (storeEvents_up env chainConfig events w Hdown) as [_ ->].
    rewrite <- key_toFeeEvent with (cc := chainConfig).
    apply insertUnordered_stores. exact Hv.
Qed.

Lemma getBlockTimestamp_returns b w :
  exists ts, fst (getBlockTimestamp env b w) = Returned ts.
Proof.
  unfold getBlockTimestamp, try_catch, bind, remote, now.
  destruct (provider_getBlock env (calls w) b); simpl; eauto.
Qed.

(** An entry that can be stored is parsed into an event with the
    entry's key whose document passes the schema. *)
Lemma parseOne_storable raw w :
  storableEntry env chainConfig raw ->
  exists pe,
    fst (parseOne env raw w) = Returned (Some pe) /\
    eventKey pe = rawKey raw /\
    storable chainConfig pe = true.
Proof.
  intros [args [tk [ig [Hparse [H0 [H1 [Ha0 [Ha1 [Htk [Hig [Hh Hc]]]]]]]]]]].
  unfold parseOne, try_catch. rewrite Hparse, H0, H1. simpl.
  unfold bind, normalizeAddress.
  destruct (getBlockTimestamp_returns (Event.blockNumber raw) w) as [ts Hts].
  destruct (getBlockTimestamp env (Event.blockNumber raw) w) as [c w1].
  simpl in Hts. subst c. rewrite Ha0, Ha1.
  simpl. eexists. split; [reflexivity |]. split; [reflexivity |].
  unfold storable. simpl.
  apply String.eqb_neq in Htk, Hig, Hh, Hc. rewrite Htk, Hig, Hh, Hc. reflexivity.
Qed.

Lemma parseFeeCollectorEvents_storable events : forall w raw,
  In raw events -> storableEntry env chainConfig raw ->
  exists parsed pe,
    fst (parseFeeCollectorEvents env events w) = Returned parsed /\
    In pe parsed /\
    eventKey pe = rawKey raw /\
    storable chainConfig pe = true.
Proof.
  induction events as [| ev rest IH]; intros w raw Hin Hdec; [destruct Hin |].
  simpl. unfold bind.
  pose proof (parseOne_total env ev w) as Ht.
  pose proof (parseOne_quiet env ev w) as Hq.
  destruct Hin as [-> | Hin].
  - destruct (parseOne_storable raw w Hdec) as [pe [Hpe Hkey]].
    destruct (parseOne env raw w) as [c w1]. simpl in Hpe. subst c.
    destruct (parseFeeCollectorEvents_returns env rest w1) as [others Ho].
    destruct (parseFeeCollectorEvents env rest w1) as [c w2]. simpl in Ho. subst c.
    exists (pe :: others), pe. simpl. auto.
  - destruct (parseOne env ev w) as [[r | e |] w1]; simpl in Ht, Hq;
      [| exfalso; eapply Hq; reflexivity | congruence].
    destruct (IH w1 raw Hin Hdec) as [others [pe [Ho [Hpe Hkey]]]].
    destruct (parseFeeCollectorEvents env rest w1) as [c w2]. simpl in Ho. subst c.
    destruct r as [p0 |]; [exists (p0 :: others), pe | exists others, pe]; simpl; auto.
Qed.

Lemma logsIn_spec raw f t : In raw (logsIn chainLog f t) <->
  In raw chainLog /\ f <= Event.blockNumber raw <= t.
Proof.
  unfold logsIn. rewrite filter_In, andb_true_iff, !Z.leb_le. tauto.
Qed.

Lemma scanBatch_grows f t w : grows w (snd (scanBatch env chainConfig f t w)).
Proof.
  unfold scanBatch, bind.
  assert (Hl : keeps feeevents w (snd (loadFeeCollectorEvents env f t w))).
  { unfold loadFeeCollectorEvents, try_catch, remote, keeps.
    destruct (contract_queryFilter env (calls w) f t); reflexivity. }
  destruct (loadFeeCollectorEvents env f t w) as [[events | e |] w1]; simpl in Hl;
    try (apply keeps_grows; exact Hl).
  destruct (Nat.eqb (List.length events) 0); [apply keeps_grows; exact Hl |].
  pose proof (parseFeeCollectorEvents_keeps env feeevents feeevents_blind events w1) as Hp.
  assert (Hw2 : forall w2, keeps feeevents w1 w2 -> grows w w2).
  { intros w0 Hk. apply keeps_grows. unfold keeps in *. congruence. }
  destruct (parseFeeCollectorEvents env events w1) as [[parsed | e |] w2]; simpl in Hp |- *;
    try (apply Hw2; exact Hp).
  pose proof (storeEvents_grows parsed w2) as Hs.
  destruct (storeEvents env chainConfig parsed w2) as [[[] | e |] w3]; simpl in Hs |- *;
    (eapply grows_trans; [apply Hw2; exact Hp | exact Hs]).
Qed.

(** When [scanBatch] returns, the entries of its block range that can
    be stored are in the store. *)
Lemma scanBatch_returned_covers f t w n w' :
  scanBatch env chainConfig f t w = (Returned n, w') ->
  secured env chainConfig chainLog (f - 1) t w'.
Proof.
  intros H raw Hin Hrange Hdec.
  assert (Hraw : In raw (logsIn chainLog f t)) by (apply logsIn_spec; split; [assumption | lia]).
  revert H. unfold scanBatch, bind, loadFeeCollectorEvents, try_catch, remote.
  destruct (contract_queryFilter env (calls w) f t) as [events |] eqn:Hq; [| discriminate].
  apply chain_consistent in Hq. subst events.
  destruct (logsIn chainLog f t) as [| ev rest] eqn:Hlogs; [destruct Hraw |].
  change (Nat.eqb (List.length (ev :: rest)) 0) with false. cbv beta iota.
  set (w1 := record (call_queryFilter f t) true w).
  destruct (parseFeeCollectorEvents_storable (ev :: rest) w1 raw Hraw Hdec)
    as [parsed [pe [Hp [Hpe [Hkey Hst]]]]].
  destruct (parseFeeCollectorEvents env (ev :: rest) w1) as [c w2]. simpl in Hp. subst c.
  pose proof (storeEvents_returned_stores parsed w2) as Hs.
  destruct (storeEvents env chainConfig parsed w2) as [[[] | e |] w3]; try discriminate.
  intro H. injection H as _ <-. rewrite <- Hkey. apply (Hs eq_refl pe Hpe Hst).
Qed.

Lemma secured_grows lo hi w w' :
  grows w w' ->
  secured env chainConfig chainLog lo hi w -> secured env chainConfig chainLog lo hi w'.
Proof. intros Hg Hc raw Hin Hr Hd. apply Hg. apply Hc; assumption. Qed.

Lemma secured_join lo mid hi w :
  secured env chainConfig chainLog lo mid w -> secured env chainConfig chainLog mid hi w ->
  secured env chainConfig chainLog lo hi w.
Proof.
  intros H1 H2 raw Hin Hr Hd.
  destruct (Z_le_gt_dec (Event.blockNumber raw) mid); [apply H1 | apply H2];
    try assumption; lia.
Qed.

Lemma secured_shrink lo hi hi' w :
  hi' <= hi ->
  secured env chainConfig chainLog lo hi w -> secured env chainConfig chainLog lo hi' w.
Proof. intros Hle Hc raw Hin Hr Hd. apply Hc; try assumption. lia. Qed.

Lemma save_cases doc w :
  (fst (save env doc w) = Returned tt /\
   (exists p, findProgress (ScanProgress.chain doc) (scanprogresses w) = Some p) /\
   scanprogresses (snd (save env doc w)) = replaceProgress doc (scanprogresses w) /\
   feeevents (snd (save env doc w)) = feeevents w) \/
  (exists e, fst (save env doc w) = Thrown e /\
             collections (snd (save env doc w)) = collections w).
Proof.
  unfold save. destruct (storage_down env (calls w)); [right; eexists; split; reflexivity |].
  destruct (findProgress (ScanProgress.chain doc) (scanprogresses w)) as [p |].
  - left. repeat split. eauto.
  - right. eexists. split; reflexivity.
Qed.

Lemma lastScanned_keeps chain w w' :
  scanprogresses w' = scanprogresses w -> lastScanned chain w' = lastScanned chain w.
Proof. unfold lastScanned. intros ->. reflexivity. Qed.

Lemma attemptBatch_safe chain lo f t s :
  f <= t ->
  midBatch env chainConfig chainLog chain lo f t s ->
  match attemptBatch env chainConfig t s with
  | (Returned _, s') => batchDone env chainConfig chainLog chain lo f t s'
  | (Thrown _, s') => midBatch env chainConfig chainLog chain lo f t s'
  | (Running, _) => False
  end.
Proof.
  destruct s as [l w]. intros Hft [Hchain [Hfrom [Hmem [Hlast Hcov]]]]. simpl in *.
  unfold attemptBatch, bind, locals, inWorld, assign, now. simpl.
  pose proof (scanBatch_keeps_progress env chainConfig (fromBlock l) t w) as Hk.
  pose proof (scanBatch_grows (fromBlock l) t w) as Hg.
  pose proof (scanBatch_total env chainConfig (fromBlock l) t w) as Ht.
  pose proof (scanBatch_returned_covers (fromBlock l) t w) as Hc.
  destruct (scanBatch env chainConfig (fromBlock l) t w) as [[n | e |] w1];
    simpl in Hk, Hg, Ht |- *; [| | congruence].
  - specialize (Hc n w1 eq_refl). rewrite Hfrom in Hc.
    assert (Hcov1 : secured env chainConfig chainLog lo t w1).
    { eapply secured_join; [eapply secured_grows; eassumption | exact Hc]. }
    match goal with
    | |- context [save env ?d w1] => set (doc := d)
    end.
    assert (Hdoc : ScanProgress.lastScannedBlock doc = t) by (simpl; lia).
    assert (Hdc : ScanProgress.chain doc = chain) by exact Hchain.
    destruct (save_cases doc w1) as [[Hr [[p Hp] [Hsp Hfe]]] | [e [Hr Hcol]]];
      destruct (save env doc w1) as [c w2]; simpl in *; subst c.
    + repeat split; simpl; auto.
      * unfold lastScanned. rewrite Hsp. rewrite Hdc in Hp.
        rewrite (findProgress_replace chain doc _ p Hp).
        change (ScanProgress.chain doc) with (ScanProgress.chain (progress l)).
        rewrite Hdc, String.eqb_refl. simpl. rewrite Hdoc. reflexivity.
      * eapply secured_grows; [| exact Hcov1]. apply keeps_grows. exact Hfe.
    + injection Hcol as Hsp Hfe.
      repeat split; simpl; auto.
      * lia.
      * rewrite (lastScanned_keeps chain w1 w2 Hsp), (lastScanned_keeps chain w w1 Hk).
        exact Hlast.
      * eapply secured_grows; [apply keeps_grows; exact Hfe |].
        eapply secured_grows; eassumption.
  - repeat split; auto; simpl.
    + rewrite (lastScanned_keeps chain w w1 Hk). exact Hlast.
    + eapply secured_grows; eassumption.
Qed.

Lemma delay_midBatch chain lo f t ms l w :
  midBatch env chainConfig chainLog chain lo f t (l, w) ->
  midBatch env chainConfig chainLog chain lo f t (l, record (call_setTimeout ms) true w).
Proof. intro H. exact H. Qed.

Lemma retryWithBackoff_loop_safe chain lo f t n : forall attempt s,
  f <= t ->
  (1 <= n)%nat ->
  attempt + Z.of_nat n - 1 = ScannerConfig.maxRetries scannerConfig ->
  midBatch env chainConfig chainLog chain lo f t s ->
  match retryWithBackoff_loop scannerConfig n attempt (attemptBatch env chainConfig t) s with
  | (Returned _, s') => batchDone env chainConfig chainLog chain lo f t s'
  | (Thrown _, s') => midBatch env chainConfig chainLog chain lo f t s'
  | (Running, _) => False
  end.
Proof.
  induction n as [| n IH]; intros attempt s Hft Hn Hmax Hmid; [lia |]. simpl.
  unfold try_catch.
  pose proof (attemptBatch_safe chain lo f t s Hft Hmid) as Ha.
  destruct (attemptBatch env chainConfig t s) as [[[] | e |] [l1 w1]]; try exact Ha.
  destruct (attempt =? ScannerConfig.maxRetries scannerConfig) eqn:Hlast; [exact Ha |].
  apply Z.eqb_neq in Hlast.
  unfold bind, inWorld, delay. simpl.
  apply IH; [exact Hft | lia | lia |].
  apply delay_midBatch. exact Ha.
Qed.

Lemma midBatch_safe chain lo f t s :
  midBatch env chainConfig chainLog chain lo f t s ->
  safeFor env chainConfig chainLog chain lo (snd s).
Proof. intros [_ [_ [_ [Hlast Hcov]]]]. exists (f - 1). auto. Qed.

Lemma atLoopHead_safe chain lo s :
  atLoopHead env chainConfig chainLog chain lo s ->
  safeFor env chainConfig chainLog chain lo (snd s).
Proof. intros [_ [_ [_ [Hlast Hcov]]]]. eexists. eauto. Qed.

Lemma batchDone_next chain lo f t l w :
  batchDone env chainConfig chainLog chain lo f t (l, w) ->
  atLoopHead env chainConfig chainLog chain lo (set_fromBlock (t + 1) l, w).
Proof.
  intros [Hc [Hf [Hm [Hl Hcov]]]]. unfold atLoopHead, batchDone. simpl in *.
  replace (t + 1 - 1) with t by lia. auto.
Qed.

Lemma scanStep_safe chain lo currentBlock s :
  fromBlock (fst s) <= currentBlock ->
  atLoopHead env chainConfig chainLog chain lo s ->
  match scanStep env chainConfig scannerConfig currentBlock s with
  | (Returned _, s') => atLoopHead env chainConfig chainLog chain lo s'
  | (Thrown _, s') => safeFor env chainConfig chainLog chain lo (snd s')
  | (Running, _) => False
  end.
Proof.
  destruct s as [l w]. simpl fst. intros Hle Hhead.
  cbv beta iota zeta delta [scanStep bind locals try_catch assign fst snd].
  set (t := Z.min (fromBlock l + ScannerConfig.batchSize scannerConfig - 1) currentBlock).
  assert (Hft : fromBlock l <= t) by (unfold t; lia).
  assert (Hmid : midBatch env chainConfig chainLog chain lo (fromBlock l) t (l, w)).
  { destruct Hhead as [Hc [_ [Hm [Hl Hcov]]]]. simpl in *.
    repeat split; simpl; auto. lia. }
  pose proof (attemptBatch_safe chain lo (fromBlock l) t (l, w) Hft Hmid) as Ha.
  destruct (attemptBatch env chainConfig t (l, w)) as [[[] | e |] [l1 w1]];
    cbv beta iota in Ha; [| | exact Ha].
  - apply batchDone_next in Ha.
    destruct (t + 1 <=? currentBlock); [unfold inWorld, delay; simpl |]; exact Ha.
  - pose proof (retryWithBackoff_loop_safe chain lo (fromBlock l) t
                  (Z.to_nat (ScannerConfig.maxRetries scannerConfig)) 1 (l1, w1) Hft) as Hr.
    fold (retryWithBackoff scannerConfig (attemptBatch env chainConfig t)) in Hr.
    destruct (retryWithBackoff scannerConfig (attemptBatch env chainConfig t) (l1, w1))
      as [[[] | e' |] [l2 w2]]; cbv beta iota in Hr.
    + apply (batchDone_next chain lo (fromBlock l)). apply Hr; [lia | lia | exact Ha].
    + apply (midBatch_safe chain lo (fromBlock l) t (l2, w2)).
      apply Hr; [lia | lia | exact Ha].
    + apply Hr; [lia | lia | exact Ha].
Qed.

Lemma scanLoop_safe chain lo currentBlock fuel : forall s,
  atLoopHead env chainConfig chainLog chain lo s ->
  safeFor env chainConfig chainLog chain lo
    (snd (snd (scanLoop env chainConfig scannerConfig fuel currentBlock s))).
Proof.
  induction fuel as [| fuel IH]; intros s Hhead; simpl.
  - destruct (fromBlock (fst s) <=? currentBlock); apply atLoopHead_safe; exact Hhead.
  - destruct (fromBlock (fst s) <=? currentBlock) eqn:Hle;
      [| apply atLoopHead_safe; exact Hhead].
    apply Z.leb_le in Hle. unfold bind.
    pose proof (scanStep_safe chain lo currentBlock s Hle Hhead) as Hs.
    destruct (scanStep env chainConfig scannerConfig currentBlock s) as [[[] | e |] s1].
    + apply IH. exact Hs.
    + exact Hs.
    + destruct Hs.
Qed.

Lemma collections_blind c : isFetch c = false -> blind collections c.
Proof. intros _ ok w. reflexivity. Qed.

Lemma safe_keeps chain lo w w' :
  collections w' = collections w ->
  safeFor env chainConfig chainLog chain lo w -> safeFor env chainConfig chainLog chain lo w'.
Proof.
  unfold collections. intros H [b [Hl Hc]]. injection H as Hsp Hfe.
  exists b. split.
  - rewrite (lastScanned_keeps chain w w' Hsp). exact Hl.
  - eapply secured_grows; [apply keeps_grows; exact Hfe | exact Hc].
Qed.

Lemma scanCycle_safe fuel w p :
  findProgress (chainName chainConfig) (scanprogresses w) = Some p ->
  safeFor env chainConfig chainLog (chainName chainConfig) (ScanProgress.lastScannedBlock p)
    (snd (scanCycle env chainConfig scannerConfig fuel w)).
Proof.
  intro Hp.
  assert (Hstart : safeFor env chainConfig chainLog (chainName chainConfig)
                     (ScanProgress.lastScannedBlock p) w).
  { exists (ScanProgress.lastScannedBlock p). split.
    - unfold lastScanned. rewrite Hp. reflexivity.
    - intros raw _ Hr. lia. }
  unfold scanCycle, bind, getScanProgress, bind, ScanProgressModel_findOne.
  destruct (storage_down env (calls w));
    [simpl; eapply safe_keeps; [| exact Hstart]; reflexivity |].
  rewrite Hp. simpl.
  match goal with
  | |- context [FeeCollectorService_getCurrentBlockNumber env ?w0] =>
      pose proof (getCurrentBlockNumber_keeps env collections collections_blind w0) as Hk;
      destruct (FeeCollectorService_getCurrentBlockNumber env w0) as [[h | e |] w1]
  end; simpl in Hk |- *; try (eapply safe_keeps; [exact Hk | exact Hstart]).
  destruct (ScanProgress.lastScannedBlock p >=? h); simpl;
    [eapply safe_keeps; [exact Hk | exact Hstart] |].
  unfold withLocals.
  match goal with
  | |- context [scanLoop _ _ _ _ _ ?s0] =>
      pose proof (scanLoop_safe (chainName chainConfig) (ScanProgress.lastScannedBlock p)
                    h fuel s0) as Hl;
      destruct (scanLoop env chainConfig scannerConfig fuel h s0) as [r s1]
  end.
  simpl in *. apply Hl.
  unfold atLoopHead, batchDone. simpl.
  replace (ScanProgress.lastScannedBlock p + 1 - 1) with (ScanProgress.lastScannedBlock p)
    by lia.
  repeat split.
  - eapply findProgress_chain. exact Hp.
  - unfold collections, keeps in Hk. injection Hk as Hsp _.
    unfold lastScanned. rewrite Hsp. simpl. rewrite Hp. reflexivity.
  - intros raw _ Hr. lia.
Qed.

(** With at least one retry allowed, a batch of at least one block and
    a chain that answers a fetch with the entries of its block range:
    however a scan cycle goes and wherever it stops, every entry that
    can be stored, of a block between the progress stored before the
    cycle and the progress stored after it, is in the event store. *)
Lemma scanForNewEvents_safe fuel w p :
  findProgress (chainName chainConfig) (scanprogresses w) = Some p ->
  safeFor env chainConfig chainLog (chainName chainConfig) (ScanProgress.lastScannedBlock p)
    (snd (scanForNewEvents env chainConfig scannerConfig fuel w)).
Proof.
  intro Hp. unfold scanForNewEvents.
  destruct (isScanning w).
  - exists (ScanProgress.lastScannedBlock p). split.
    + unfold lastScanned. simpl. rewrite Hp. reflexivity.
    + intros raw _ Hr. lia.
  - unfold bind, modify, try_finally, try_catch, throw.
    pose proof (scanCycle_safe fuel (set_isScanning true w) p Hp) as Hs.
    destruct (scanCycle env chainConfig scannerConfig fuel (set_isScanning true w))
      as [[[] | e |] w1]; simpl in *;
      first [eapply safe_keeps; [| exact Hs]; reflexivity | exact Hs].
Qed.

End Safety.

(** The schedule of [retryWithBackoff] when every run of the operation
    throws: the error leaves the helper after [maxRetries] runs, and
    the waits between them are [retryDelayMs * 2 ^ 0], ...,
    [retryDelayMs * 2 ^ (maxRetries - 2)]. *)
Lemma retryWithBackoff_loop_schedule (sc : ScannerConfig.t) (operation : M Frame unit)
  (n : nat) : forall attempt s,
  (forall s0, (exists e, fst (operation s0) = Thrown e) /\
              delays (trace (snd (snd (operation s0)))) = delays (trace (snd s0))) ->
  (1 <= n)%nat ->
  attempt + Z.of_nat n - 1 = ScannerConfig.maxRetries sc ->
  (exists e, fst (retryWithBackoff_loop sc n attempt operation s) = Thrown e) /\
  delays (trace (snd (snd (retryWithBackoff_loop sc n attempt operation s))))
  = delays (trace (snd s))
    ++ map (fun k => ScannerConfig.retryDelayMs sc * 2 ^ (attempt - 1 + Z.of_nat k))
         (seq 0 (n - 1)).
Proof.
  induction n as [| n IH]; intros attempt s Hop Hn Hmax; [lia |]. simpl.
  unfold try_catch. destruct (Hop s) as [[e He] Hd].
  destruct (operation s) as [c [l1 w1]]. simpl in He, Hd. subst c.
  destruct (attempt =? ScannerConfig.maxRetries sc) eqn:Hlast.
  - apply Z.eqb_eq in Hlast. assert (n = 0%nat) by lia. subst n. simpl.
    rewrite app_nil_r. split; [eauto | exact Hd].
  - apply Z.eqb_neq in Hlast. unfold bind, inWorld, delay. simpl.
    match goal with
    | |- context [retryWithBackoff_loop sc n (attempt + 1) operation ?s1] =>
        destruct (IH (attempt + 1) s1 Hop) as [Hthrown Hdelays]; [lia | lia |]
    end.
    split; [exact Hthrown |]. rewrite Hdelays. simpl.
    rewrite delays_app, Hd. simpl. rewrite <- app_assoc. simpl.
    rewrite Nat.sub_0_r. destruct n as [| n]; [lia |]. simpl.
    rewrite Nat.sub_0_r. f_equal. f_equal.
    + f_equal. f_equal. lia.
    + rewrite <- seq_shift, map_map. apply map_ext. intro k. f_equal. f_equal. lia.
Qed.

Lemma retryWithBackoff_schedule (sc : ScannerConfig.t) (operation : M Frame unit) s :
  1 <= ScannerConfig.maxRetries sc ->
  (forall s0, (exists e, fst (operation s0) = Thrown e) /\
              delays (trace (snd (snd (operation s0)))) = delays (trace (snd s0))) ->
  (exists e, fst (retryWithBackoff sc operation s) = Thrown e) /\
  delays (trace (snd (snd (retryWithBackoff sc operation s))))
  = delays (trace (snd s))
    ++ map (fun k => ScannerConfig.retryDelayMs sc * 2 ^ Z.of_nat k)
         (seq 0 (Z.to_nat (ScannerConfig.maxRetries sc) - 1)).
Proof.
  intros Hmax Hop. unfold retryWithBackoff.
  destruct (retryWithBackoff_loop_schedule sc operation
              (Z.to_nat (ScannerConfig.maxRetries sc)) 1 s Hop) as [Ht Hd]; [lia | lia |].
  split; [exact Ht |]. rewrite Hd. f_equal.
Qed.

(** The safety of a cycle at work, on the run of [retry_succeeds]. *)
Example safe_after_retry :
  let chainLog := [Scenario.entry 1 "0xaa" 0; Scenario.entry 3 "0xbb" 1] in
  let env := Scenario.chain 4 chainLog (fun n _ _ => Nat.eqb n 2) in
  safeFor env Scenario.polygon chainLog "polygon" 0
    (snd (scanForNewEvents env Scenario.polygon (Scenario.config 2 3) 10
            (Scenario.world [] [Scenario.progressAt 0 0 0]))).
Proof.
  intros chainLog env.
  change (safeFor env Scenario.polygon chainLog (chainName Scenario.polygon)
            (ScanProgress.lastScannedBlock (Scenario.progressAt 0 0 0))
            (snd (scanForNewEvents env Scenario.polygon (Scenario.config 2 3) 10
                    (Scenario.world [] [Scenario.progressAt 0 0 0])))).
  apply (scanForNewEvents_safe env Scenario.polygon (Scenario.config 2 3) chainLog).
  - intros n f t events. simpl. destruct (Nat.eqb n 2); [discriminate |].
    intro H. injection H as <-. reflexivity.
  - simpl. lia.
  - simpl. lia.
  - reflexivity.
Qed.

(** ** Further properties of the code *)

Lemma footprint_blind_fetch c :
  isFetch c = false -> blind (fun w => fetchCalls (trace w)) c.
Proof.
  intros Hc ok w. unfold record. simpl. rewrite fetchCalls_app.
  destruct c; try discriminate; simpl; apply app_nil_r.
Qed.

(** *** BlockchainUtils.getCurrentBlockNumber *)

Lemma delays_timeout ms ok w :
  delays (trace (record (call_setTimeout ms) ok w)) = delays (trace w) ++ [ms].
Proof. unfold record. simpl. rewrite delays_app. reflexivity. Qed.

Lemma delays_getBlockNumber ok w :
  delays (trace (record call_getBlockNumber ok w)) = delays (trace w).
Proof. unfold record. simpl. rewrite delays_app. simpl. apply app_nil_r. Qed.

Lemma getCurrentBlockNumber_loop_answered (env : Env) (n : nat) :
  forall k attempt maxRetries w h,
  (k < n)%nat ->
  attempt + Z.of_nat n - 1 = maxRetries ->
  (forall j, (j < k)%nat -> provider_getBlockNumber env (calls w + 2 * j) = None) ->
  provider_getBlockNumber env (calls w + 2 * k) = Some h ->
  exists w',
    getCurrentBlockNumber_loop env n attempt maxRetries w = (Returned h, w') /\
    delays (trace w')
    = delays (trace w) ++ map (fun j => 1000 * (attempt + Z.of_nat j)) (seq 0 k) /\
    calls w' = (calls w + 2 * k + 1)%nat /\
    collections w' = collections w.
Proof.
  induction n as [| n IH]; intros k attempt maxRetries w h Hk Hmax Hfail Hok; [lia |].
  cbn [getCurrentBlockNumber_loop]. unfold try_catch, remote.
  destruct k as [| k].
  - replace (calls w + 2 * 0)%nat with (calls w) in Hok by lia. rewrite Hok.
    eexists. split; [reflexivity |]. rewrite delays_getBlockNumber.
    cbn [seq map calls record]. rewrite app_nil_r. repeat split; lia.
  - pose proof (Hfail 0%nat ltac:(lia)) as H0.
    replace (calls w + 2 * 0)%nat with (calls w) in H0 by lia. rewrite H0.
    assert (Hneq : (attempt =? maxRetries) = false) by (apply Z.eqb_neq; lia).
    rewrite Hneq. unfold bind, delay.
    set (w2 := record (call_setTimeout (1000 * attempt)) true
                 (record call_getBlockNumber false w)).
    destruct (IH k (attempt + 1) maxRetries w2 h) as [w' [Hrun [Hd [Hc Hcol]]]].
    + lia.
    + lia.
    + intros j Hj. replace (calls w2 + 2 * j)%nat with (calls w + 2 * S j)%nat
        by (unfold w2; cbn [calls record]; lia).
      apply Hfail. lia.
    + replace (calls w2 + 2 * k)%nat with (calls w + 2 * S k)%nat by (unfold w2; cbn [calls record]; lia).
      exact Hok.
    + exists w'. split; [exact Hrun |]. split; [| split].
      * rewrite Hd. unfold w2. rewrite delays_timeout, delays_getBlockNumber.
        rewrite <- app_assoc. f_equal. cbn [seq map app]. f_equal.
        { f_equal. lia. }
        { rewrite <- seq_shift, map_map. apply map_ext. intro j. f_equal. lia. }
      * rewrite Hc. unfold w2. cbn [calls record]. lia.
      * rewrite Hcol. reflexivity.
Qed.

Lemma getCurrentBlockNumber_loop_exhausted (env : Env) (n : nat) :
  forall attempt maxRetries w,
  (1 <= n)%nat ->
  attempt + Z.of_nat n - 1 = maxRetries ->
  (forall j, (j < n)%nat -> provider_getBlockNumber env (calls w + 2 * j) = None) ->
  exists w',
    getCurrentBlockNumber_loop env n attempt maxRetries w
    = (Thrown (Error "Failed to get current block number"), w') /\
    delays (trace w')
    = delays (trace w) ++ map (fun j => 1000 * (attempt + Z.of_nat j)) (seq 0 (n - 1)) /\
    calls w' = (calls w + 2 * n - 1)%nat /\
    collections w' = collections w.
Proof.
  induction n as [| n IH]; intros attempt maxRetries w Hn Hmax Hfail; [lia |].
  cbn [getCurrentBlockNumber_loop]. unfold try_catch, remote.
  pose proof (Hfail 0%nat ltac:(lia)) as H0.
  replace (calls w + 2 * 0)%nat with (calls w) in H0 by lia. rewrite H0.
  destruct n as [| n].
  - assert (Heq : (attempt =? maxRetries) = true) by (apply Z.eqb_eq; lia).
    rewrite Heq. eexists. split; [reflexivity |]. rewrite delays_getBlockNumber.
    cbn [seq map calls record Nat.sub]. rewrite app_nil_r. repeat split. lia.
  - assert (Hneq : (attempt =? maxRetries) = false) by (apply Z.eqb_neq; lia).
    rewrite Hneq. unfold bind, delay.
    set (w2 := record (call_setTimeout (1000 * attempt)) true
                 (record call_getBlockNumber false w)).
    destruct (IH (attempt + 1) maxRetries w2) as [w' [Hrun [Hd [Hc Hcol]]]].
    + lia.
    + lia.
    + intros j Hj. replace (calls w2 + 2 * j)%nat with (calls w + 2 * S j)%nat
        by (unfold w2; cbn [calls record]; lia).
      apply Hfail. lia.
    + exists w'. split; [exact Hrun |]. split; [| split].
      * rewrite Hd. unfold w2. rewrite delays_timeout, delays_getBlockNumber.
        rewrite <- app_assoc. f_equal.
        replace (S (S n) - 1)%nat with (S n) by lia.
        replace (S n - 1)%nat with n by lia.
        cbn [seq map app]. f_equal.
        { f_equal. lia. }
        { rewrite <- seq_shift, map_map. apply map_ext. intro j. f_equal. lia. }
      * rewrite Hc. unfold w2. cbn [calls record]. lia.
      * rewrite Hcol. reflexivity.
Qed.

(** X1. [BlockchainUtils.getCurrentBlockNumber] returns the first answer
    of the provider: when its first [k] calls fail and the next one is
    answered with [h], and [k] is less than [maxRetries], it returns
    [h] after waiting 1000, 2000, ..., [1000 * k] ms, and touches no
    collection. *)
Theorem getCurrentBlockNumber_first_answer (env : Env) (maxRetries : Z) (k : nat)
  (w : World) (h : Z) :
  Z.of_nat k < maxRetries ->
  (forall j, (j < k)%nat -> provider_getBlockNumber env (calls w + 2 * j) = None) ->
  provider_getBlockNumber env (calls w + 2 * k) = Some h ->
  exists w',
    BlockchainUtils_getCurrentBlockNumber env maxRetries w = (Returned h, w') /\
    delays (trace w')
    = delays (trace w) ++ map (fun j => 1000 * Z.of_nat (S j)) (seq 0 k) /\
    collections w' = collections w.
Proof.
  intros Hk Hfail Hok. unfold BlockchainUtils_getCurrentBlockNumber.
  destruct (getCurrentBlockNumber_loop_answered env (Z.to_nat maxRetries) k 1 maxRetries
              w h) as [w' [Hrun [Hd [_ Hcol]]]]; try assumption; try lia.
  exists w'. split; [exact Hrun |]. split; [| exact Hcol].
  rewrite Hd. f_equal. apply map_ext. intro j. lia.
Qed.

Lemma getCurrentBlockNumber_first_answer_witness :
  let env := {| provider_getCode := fun _ => Some "0x6080";
                provider_getBlockNumber := fun n => if Nat.ltb n 4 then None else Some 77;
                provider_getBlock := fun _ b => Some b;
                contract_queryFilter := fun _ _ _ => Some [];
                utils_getAddress := fun a => Some a;
                storage_down := fun _ => false;
                clock := fun n => Z.of_nat n |} in
  exists w',
    BlockchainUtils_getCurrentBlockNumber env 3 (Scenario.world [] []) = (Returned 77, w') /\
    delays (trace w') = delays (trace (Scenario.world [] [])) ++ [1000; 2000] /\
    collections w' = collections (Scenario.world [] []).
Proof.
  intro env.
  apply (getCurrentBlockNumber_first_answer env 3 2 (Scenario.world [] []) 77).
  - lia.
  - intros j Hj. destruct j as [| [| j]]; [reflexivity | reflexivity | lia].
  - reflexivity.
Defined.

(** X2. [BlockchainUtils.getCurrentBlockNumber] gives up after
    [maxRetries] calls: when the provider fails that many times in a
    row, it throws its own error after the waits 1000, ...,
    [1000 * (maxRetries - 1)] ms, without a wait after the last call,
    and touches no collection. *)
Theorem getCurrentBlockNumber_exhausted (env : Env) (maxRetries : Z) (w : World) :
  1 <= maxRetries ->
  (forall j, Z.of_nat j < maxRetries ->
     provider_getBlockNumber env (calls w + 2 * j) = None) ->
  exists w',
    BlockchainUtils_getCurrentBlockNumber env maxRetries w
    = (Thrown (Error "Failed to get current block number"), w') /\
    delays (trace w')
    = delays (trace w)
      ++ map (fun j => 1000 * Z.of_nat (S j)) (seq 0 (Z.to_nat maxRetries - 1)) /\
    fetchCalls (trace w') = fetchCalls (trace w) /\
    collections w' = collections w.
Proof.
  intros Hmax Hfail. unfold BlockchainUtils_getCurrentBlockNumber.
  pose proof (getCurrentBlockNumber_loop_keeps env (fun w => fetchCalls (trace w))
                (footprint_blind_fetch) (Z.to_nat maxRetries) 1 maxRetries w) as Hf.
  destruct (getCurrentBlockNumber_loop_exhausted env (Z.to_nat maxRetries) 1 maxRetries w)
    as [w' [Hrun [Hd [_ Hcol]]]]; try lia.
  - intros j Hj. apply Hfail. lia.
  - rewrite Hrun in Hf. exists w'. split; [exact Hrun |]. split; [| split].
    + rewrite Hd. f_equal. apply map_ext. intro j. lia.
    + exact Hf.
    + exact Hcol.
Qed.

Lemma getCurrentBlockNumber_exhausted_witness :
  let env := {| provider_getCode := fun _ => Some "0x6080";
                provider_getBlockNumber := fun _ => None;
                provider_getBlock := fun _ b => Some b;
                contract_queryFilter := fun _ _ _ => Some [];
                utils_getAddress := fun a => Some a;
                storage_down := fun _ => false;
                clock := fun n => Z.of_nat n |} in
  let w := Scenario.world [] [] in
  exists w',
    BlockchainUtils_getCurrentBlockNumber env 3 w
    = (Thrown (Error "Failed to get current block number"), w') /\
    delays (trace w') = delays (trace w) ++ [1000; 2000] /\
    fetchCalls (trace w') = fetchCalls (trace w) /\
    collections w' = collections w.
Proof.
  intros env w.
  apply (getCurrentBlockNumber_exhausted env 3 w).
  - lia.
  - intros j Hj. reflexivity.
Defined.

(** *** FeeCollectorService.parseFeeCollectorEvents *)

Lemma decodableb_decodable env raw : decodableb env raw = true <-> decodable env raw.
Proof.
  unfold decodableb, decodable. split.
  - destruct (Event.parseLog raw) as [args |]; [| discriminate].
    intro H. apply andb_true_iff in H. destruct H as [H Ha1].
    apply andb_true_iff in H. destruct H as [Hne Ha0].
    apply negb_true_iff, orb_false_iff in Hne. destruct Hne as [H0 H1].
    exists args. repeat split; auto.
    + destruct (utils_getAddress env (toLowerCase (LogDescription.arg0 args)));
        [discriminate | discriminate Ha0].
    + destruct (utils_getAddress env (toLowerCase (LogDescription.arg1 args)));
        [discriminate | discriminate Ha1].
  - intros [args [Hp [H0 [H1 [Ha0 Ha1]]]]]. rewrite Hp, H0, H1. simpl.
    destruct (utils_getAddress env (toLowerCase (LogDescription.arg0 args)));
      [| congruence].
    destruct (utils_getAddress env (toLowerCase (LogDescription.arg1 args)));
      [reflexivity | congruence].
Qed.

Lemma parseOne_kept env raw w :
  decodableb env raw = true ->
  exists pe,
    fst (parseOne env raw w) = Returned (Some pe) /\ decodesTo env raw pe.
Proof.
  unfold decodableb, parseOne, try_catch, decodesTo.
  destruct (Event.parseLog raw) as [args |]; [| discriminate].
  destruct (_ || _)%bool; [discriminate |]. simpl.
  unfold bind, normalizeAddress.
  destruct (getBlockTimestamp_returns env (Event.blockNumber raw) w) as [ts Hts].
  destruct (getBlockTimestamp env (Event.blockNumber raw) w) as [c w1].
  simpl in Hts. subst c.
  destruct (utils_getAddress env (toLowerCase (LogDescription.arg0 args))) as [a0 |] eqn:H0;
    [| discriminate].
  destruct (utils_getAddress env (toLowerCase (LogDescription.arg1 args))) as [a1 |] eqn:H1;
    [| discriminate].
  intros _. simpl. eexists. split; [reflexivity |].
  exists args. simpl. repeat split; assumption.
Qed.

Lemma parseOne_skipped env raw w :
  decodableb env raw = false ->
  fst (parseOne env raw w) = Returned None.
Proof.
  unfold decodableb, parseOne, try_catch.
  destruct (Event.parseLog raw) as [args |]; [| reflexivity].
  destruct (_ || _)%bool; [reflexivity |]. simpl.
  unfold bind, normalizeAddress.
  destruct (getBlockTimestamp_returns env (Event.blockNumber raw) w) as [ts Hts].
  destruct (getBlockTimestamp env (Event.blockNumber raw) w) as [c w1].
  simpl in Hts. subst c.
  destruct (utils_getAddress env (toLowerCase (LogDescription.arg0 args))) as [a0 |];
    [| reflexivity].
  destruct (utils_getAddress env (toLowerCase (LogDescription.arg1 args))) as [a1 |];
    [discriminate | reflexivity].
Qed.

Lemma parseFeeCollectorEvents_exact env events : forall w,
  exists parsed,
    fst (parseFeeCollectorEvents env events w) = Returned parsed /\
    Forall2 (decodesTo env) (filter (decodableb env) events) parsed.
Proof.
  induction events as [| raw rest IH]; intro w.
  - exists []. split; [reflexivity | constructor].
  - cbn [parseFeeCollectorEvents filter]. unfold bind.
    destruct (decodableb env raw) eqn:Hd.
    + destruct (parseOne_kept env raw w Hd) as [pe [Hpe Hdec]].
      destruct (parseOne env raw w) as [c w1]. simpl in Hpe. subst c.
      destruct (IH w1) as [others [Ho Hall]].
      destruct (parseFeeCollectorEvents env rest w1) as [c w2]. simpl in Ho. subst c.
      exists (pe :: others). split; [reflexivity | constructor; assumption].
    + pose proof (parseOne_skipped env raw w Hd) as Hs.
      destruct (parseOne env raw w) as [c w1]. simpl in Hs. subst c.
      destruct (IH w1) as [others [Ho Hall]].
      destruct (parseFeeCollectorEvents env rest w1) as [c w2]. simpl in Ho. subst c.
      exists others. split; [reflexivity | assumption].
Qed.

(** X3. [parseFeeCollectorEvents] never throws and never touches the
    database; its result is, in the order of the input, one event for
    each entry whose log parses with two truthy addresses that both
    normalise, every other entry being skipped; an event takes its
    addresses, fees, block, transaction hash and log index (0 when
    undefined) from its entry, whatever the timestamp lookup does. *)
Theorem parseFeeCollectorEvents_keeps_decodable (env : Env) (events : list Event.t)
  (w : World) :
  exists parsed w',
    parseFeeCollectorEvents env events w = (Returned parsed, w') /\
    Forall2 (decodesTo env) (filter (decodableb env) events) parsed /\
    collections w' = collections w /\
    fetchCalls (trace w') = fetchCalls (trace w).
Proof.
  destruct (parseFeeCollectorEvents_exact env events w) as [parsed [Hr Hall]].
  pose proof (parseFeeCollectorEvents_keeps env collections collections_blind events w) as Hc.
  pose proof (parseFeeCollectorEvents_keeps env (fun w => fetchCalls (trace w))
                footprint_blind_fetch events w) as Hf.
  destruct (parseFeeCollectorEvents env events w) as [c w']. simpl in Hr. subst c.
  exists parsed, w'. repeat split; assumption.
Qed.

(** *** EventScanner.storeEvents and scanBatch *)

(** X4. [storeEvents] swallows duplicate-key errors only.  With the
    database down it returns at once, without a call to the database,
    when no event of the list has a document that passes the schema,
    the empty list included; for a list with such an event it throws an
    error that is not the duplicate-key error, and the collections are
    as before. *)
Theorem storeEvents_storage_error (env : Env) (cc : ChainConfig.t)
  (events : list ParsedFeeCollectedEvent.t) (w : World) :
  storage_down env (calls w) = true ->
  ((forall e, In e events -> storable cc e = false) /\
   storeEvents env cc events w = (Returned tt, w)) \/
  ((exists e, In e events /\ storable cc e = true) /\
   exists e w',
     storeEvents env cc events w = (Thrown e, w') /\
     code_is e 11000 = false /\
     collections w' = collections w).
Proof.
  intro Hdown. destruct events as [| e0 rest].
  - left. split; [intros e [] | reflexivity].
  - unfold storeEvents.
    change (Nat.eqb (List.length (e0 :: rest)) 0) with false. cbv beta iota.
    unfold try_catch, FeeEventModel_insertMany.
    destruct (filter FeeEvent.valid (map (toFeeEvent cc) (e0 :: rest))) as [| d ds] eqn:Hv.
    + left. split; [| reflexivity].
      intros e Hin. destruct (storable cc e) eqn:Hs; [| reflexivity].
      assert (Hd : In (toFeeEvent cc e)
                     (filter FeeEvent.valid (map (toFeeEvent cc) (e0 :: rest)))).
      { apply filter_In. split; [apply in_map; exact Hin | ].
        rewrite valid_toFeeEvent. exact Hs. }
      rewrite Hv in Hd. destruct Hd.
    + right. split.
      * assert (Hd : In d (filter FeeEvent.valid (map (toFeeEvent cc) (e0 :: rest))))
          by (rewrite Hv; left; reflexivity).
        apply filter_In in Hd. destruct Hd as [Hd Hval].
        apply in_map_iff in Hd. destruct Hd as [e [<- Hin]].
        exists e. rewrite valid_toFeeEvent in Hval. auto.
      * rewrite Hdown. eexists. eexists. split; [reflexivity |]. split; reflexivity.
Qed.

Lemma storeEvents_storage_error_witness :
  let env := {| provider_getCode := fun _ => Some "0x6080";
                provider_getBlockNumber := fun _ => Some 5;
                provider_getBlock := fun _ b => Some b;
                contract_queryFilter := fun _ _ _ => Some [];
                utils_getAddress := fun a => Some a;
                storage_down := fun _ => true;
                clock := fun n => Z.of_nat n |} in
  let events := [Scenario.parsedEvent 1 "0xaa" 0] in
  let w := Scenario.world [] [] in
  ((forall e, In e events -> storable Scenario.polygon e = false) /\
   storeEvents env Scenario.polygon events w = (Returned tt, w)) \/
  ((exists e, In e events /\ storable Scenario.polygon e = true) /\
   exists e w',
     storeEvents env Scenario.polygon events w = (Thrown e, w') /\
     code_is e 11000 = false /\
     collections w' = collections w).
Proof.
  intros env events w.
  apply (storeEvents_storage_error env Scenario.polygon events w).
  reflexivity.
Defined.

Lemma insertMany_appends env docs w :
  exists added, feeevents (snd (FeeEventModel_insertMany env docs w)) = feeevents w ++ added.
Proof.
  unfold FeeEventModel_insertMany.
  destruct (filter FeeEvent.valid docs) as [| d ds];
    [exists []; simpl; symmetry; apply app_nil_r |].
  generalize (d :: ds). intro validDocs.
  destruct (storage_down env (calls w)); [exists []; simpl; symmetry; apply app_nil_r |].
  destruct (insertUnordered_extends validDocs (feeevents w) 0) as [added Ha].
  destruct (insertUnordered validDocs (feeevents w) 0) as [coll [| n]]; simpl in *;
    exists added; exact Ha.
Qed.

Lemma storeEvents_appends env cc events w :
  exists added, feeevents (snd (storeEvents env cc events w)) = feeevents w ++ added.
Proof.
  unfold storeEvents.
  destruct (Nat.eqb (List.length events) 0); [exists []; simpl; symmetry; apply app_nil_r |].
  unfold try_catch.
  destruct (insertMany_appends env (map (toFeeEvent cc) events) w) as [added Ha].
  destruct (FeeEventModel_insertMany env (map (toFeeEvent cc) events) w)
    as [[[] | e |] w1]; simpl in *; try (exists added; exact Ha).
  destruct (code_is e 11000); exists added; exact Ha.
Qed.

Lemma loadFeeCollectorEvents_trace env f t w :
  exists ok,
    snd (loadFeeCollectorEvents env f t w) = record (call_queryFilter f t) ok w.
Proof.
  unfold loadFeeCollectorEvents, try_catch, remote.
  destruct (contract_queryFilter env (calls w) f t); eexists; reflexivity.
Qed.

(** X5. [scanBatch] issues exactly one fetch, for the range it was
    given, and whatever the chain and the database answer and however
    it ends, it leaves the progress collection as it is and only adds
    to the event collection. *)
Theorem scanBatch_frame (env : Env) (cc : ChainConfig.t) (fromBlock toBlock : Z)
  (w : World) :
  let w' := snd (scanBatch env cc fromBlock toBlock w) in
  fetchCalls (trace w') = fetchCalls (trace w) ++ [(fromBlock, toBlock)] /\
  scanprogresses w' = scanprogresses w /\
  exists added, feeevents w' = feeevents w ++ added.
Proof.
  intro w'. split; [| split].
  - unfold w', scanBatch, bind.
    destruct (loadFeeCollectorEvents_trace env fromBlock toBlock w) as [ok Hl].
    assert (Hrec : fetchCalls (trace (record (call_queryFilter fromBlock toBlock) ok w))
                   = fetchCalls (trace w) ++ [(fromBlock, toBlock)]).
    { unfold record. simpl. rewrite fetchCalls_app. reflexivity. }
    destruct (loadFeeCollectorEvents env fromBlock toBlock w) as [[events | e |] w1];
      simpl in Hl; subst w1; try exact Hrec.
    destruct (Nat.eqb (List.length events) 0); [exact Hrec |].
    set (w1 := record (call_queryFilter fromBlock toBlock) ok w) in *.
    pose proof (parseFeeCollectorEvents_keeps env (fun w => fetchCalls (trace w))
                  footprint_blind_fetch events w1) as Hp.
    destruct (parseFeeCollectorEvents env events w1) as [[parsed | e |] w2];
      unfold keeps in Hp; simpl in Hp |- *; try (rewrite Hp; exact Hrec).
    pose proof (storeEvents_keeps env cc (fun w => fetchCalls (trace w))
                  footprint_blind_fetch (fun l w0 => eq_refl) parsed w2) as Hs.
    destruct (storeEvents env cc parsed w2) as [[[] | e |] w3];
      unfold keeps in Hs; simpl in Hs |- *; rewrite Hs, Hp; exact Hrec.
  - apply (scanBatch_keeps_progress env cc fromBlock toBlock w).
  - unfold w', scanBatch, bind.
    destruct (loadFeeCollectorEvents_trace env fromBlock toBlock w) as [ok Hl].
    destruct (loadFeeCollectorEvents env fromBlock toBlock w) as [[events | e |] w1];
      simpl in Hl; subst w1; try (exists []; simpl; symmetry; apply app_nil_r).
    destruct (Nat.eqb (List.length events) 0);
      [exists []; simpl; symmetry; apply app_nil_r |].
    set (w1 := record (call_queryFilter fromBlock toBlock) ok w) in *.
    pose proof (parseFeeCollectorEvents_keeps env feeevents feeevents_blind events w1) as Hp.
    destruct (parseFeeCollectorEvents env events w1) as [[parsed | e |] w2];
      unfold keeps in Hp; simpl in Hp |- *;
      try (exists []; rewrite Hp; simpl; symmetry; apply app_nil_r).
    destruct (storeEvents_appends env cc parsed w2) as [added Ha].
    destruct (storeEvents env cc parsed w2) as [[[] | e |] w3]; simpl in Ha |- *;
      exists added; rewrite Ha, Hp; reflexivity.
Qed.

(** X6. [updateProgress] composes: two updates in a row are one update
    to the greater of the two blocks, with the two event counts and
    the two block counts added, at the time of the second. *)
Theorem updateProgress_compose (p : ScanProgress.t)
  (block1 events1 blocks1 date1 block2 events2 blocks2 date2 : Z) :
  ScanProgress.updateProgress
    (ScanProgress.updateProgress p block1 events1 blocks1 date1)
    block2 events2 blocks2 date2
  = ScanProgress.updateProgress p (Z.max block1 block2) (events1 + events2)
      (blocks1 + blocks2) date2.
Proof.
  unfold ScanProgress.updateProgress. simpl. f_equal; lia.
Qed.

(** *** A cycle without failures: where it ends *)

Lemma scanBatch_count_nonneg env cc f t w n w' :
  scanBatch env cc f t w = (Returned n, w') -> 0 <= n.
Proof.
  unfold scanBatch, bind.
  destruct (loadFeeCollectorEvents env f t w) as [[events | e |] w1]; try discriminate.
  destruct (Nat.eqb (List.length events) 0).
  - intro H. injection H as <- _. lia.
  - destruct (parseFeeCollectorEvents env events w1) as [[parsed | e |] w2];
      try discriminate.
    destruct (storeEvents env cc parsed w2) as [[[] | e |] w3]; try discriminate.
    intro H. injection H as <- _. lia.
Qed.

Lemma scanForNewEvents_idle_after env cc sc fuel w :
  isScanning w = false ->
  fst (scanForNewEvents env cc sc fuel w) <> Running ->
  isScanning (snd (scanForNewEvents env cc sc fuel w)) = false.
Proof.
  intro Hidle. unfold scanForNewEvents. rewrite Hidle.
  unfold bind, modify, try_finally, try_catch, throw.
  destruct (scanCycle env cc sc fuel (set_isScanning true w)) as [[[] | e |] w1];
    simpl; congruence.
Qed.

Section ReliableRun.

Variable env : Env.
Variable chainConfig : ChainConfig.t.
Variable scannerConfig : ScannerConfig.t.
Variable height : Z.
Hypothesis env_reliable : Reliable env height.

Lemma attemptBatch_reliable_exact toBlock l w :
  synced (l, w) ->
  exists n w1 w',
    scanBatch env chainConfig (fromBlock l) toBlock w = (Returned n, w1) /\
    attemptBatch env chainConfig toBlock (l, w)
    = (Returned tt,
       (set_progress
          (ScanProgress.updateProgress (progress l) toBlock n
             (toBlock - fromBlock l + 1) (clock env (calls w1)))
          (add_totals n (toBlock - fromBlock l + 1) l), w')) /\
    synced (set_progress
              (ScanProgress.updateProgress (progress l) toBlock n
                 (toBlock - fromBlock l + 1) (clock env (calls w1)))
              (add_totals n (toBlock - fromBlock l + 1) l), w') /\
    feeevents w' = feeevents w1.
Proof.
  unfold synced. simpl. intro Hp.
  unfold attemptBatch, bind, locals, inWorld, assign, now. simpl.
  destruct (scanBatch_reliable env chainConfig height env_reliable (fromBlock l) toBlock w)
    as [n [w1 [Hsb [Hsp _]]]].
  rewrite Hsb. simpl. unfold save. destruct env_reliable as [_ [_ Hup]]. rewrite Hup.
  simpl. rewrite Hsp, Hp.
  exists n, w1. eexists. split; [reflexivity |]. split; [reflexivity |].
  simpl. split; [| reflexivity].
  erewrite findProgress_replace by exact Hp. simpl. rewrite String.eqb_refl. reflexivity.
Qed.

Lemma scanStep_reliable_exact s :
  synced s ->
  let toBlock :=
    Z.min (fromBlock (fst s) + ScannerConfig.batchSize scannerConfig - 1) height in
  exists n w1 s',
    scanBatch env chainConfig (fromBlock (fst s)) toBlock (snd s) = (Returned n, w1) /\
    scanStep env chainConfig scannerConfig height s = (Returned tt, s') /\
    synced s' /\
    fromBlock (fst s') = toBlock + 1 /\
    progress (fst s')
    = ScanProgress.updateProgress (progress (fst s)) toBlock n
        (toBlock - fromBlock (fst s) + 1) (clock env (calls w1)) /\
    feeevents (snd s') = feeevents w1.
Proof.
  destruct s as [l w]. intros Hs toBlock. simpl fst in *. simpl snd.
  cbv beta iota zeta delta [scanStep bind locals try_catch assign fst snd].
  fold toBlock.
  destruct (attemptBatch_reliable_exact toBlock l w Hs) as [n [w1 [w' [Hsb [-> [Hs' Hfe]]]]]].
  exists n, w1.
  destruct (toBlock + 1 <=? height).
  - unfold inWorld, delay. simpl. eexists. split; [exact Hsb |].
    split; [reflexivity |]. simpl.
    repeat split; first [assumption | exact Hs' | reflexivity].
  - unfold ret. eexists. split; [exact Hsb |].
    split; [reflexivity |]. simpl.
    repeat split; first [assumption | exact Hs' | reflexivity].
Qed.

Lemma scanLoop_reliable_end fuel : forall s,
  1 <= ScannerConfig.batchSize scannerConfig ->
  synced s ->
  ScanProgress.lastScannedBlock (progress (fst s)) = fromBlock (fst s) - 1 ->
  fromBlock (fst s) <= height + 1 ->
  (Z.to_nat (height - fromBlock (fst s) + 1) <= fuel)%nat ->
  exists s',
    scanLoop env chainConfig scannerConfig fuel height s = (Returned tt, s') /\
    synced s' /\
    ScanProgress.chain (progress (fst s')) = ScanProgress.chain (progress (fst s)) /\
    ScanProgress.lastScannedBlock (progress (fst s')) = height /\
    ScanProgress.totalBlocksScanned (progress (fst s'))
    = ScanProgress.totalBlocksScanned (progress (fst s))
      + (height - (fromBlock (fst s) - 1)) /\
    ScanProgress.totalEventsFound (progress (fst s))
    <= ScanProgress.totalEventsFound (progress (fst s')).
Proof.
  induction fuel as [| fuel IH]; intros s Hb Hs Hlast Hle Hfuel; simpl.
  - destruct (fromBlock (fst s) <=? height) eqn:Hcmp.
    + apply Z.leb_le in Hcmp. lia.
    + apply Z.leb_gt in Hcmp. exists s. repeat split; auto; lia.
  - destruct (fromBlock (fst s) <=? height) eqn:Hcmp.
    + apply Z.leb_le in Hcmp. unfold bind.
      destruct (scanStep_reliable_exact s Hs) as [n [w1 [s1 [Hsb [-> [Hs1 [Hf [Hp _]]]]]]]].
      pose proof (scanBatch_count_nonneg _ _ _ _ _ _ _ Hsb) as Hn.
      destruct (IH s1 Hb Hs1) as [s2 [Hloop [Hs2 [Hc [Hl [Hblocks Hevents]]]]]].
      * rewrite Hp, Hf. simpl. lia.
      * rewrite Hf. lia.
      * rewrite Hf. lia.
      * exists s2. split; [exact Hloop |]. split; [exact Hs2 |].
        rewrite Hp in Hc, Hblocks, Hevents. simpl in Hc, Hblocks, Hevents.
        rewrite Hf in Hblocks.
        repeat split; try assumption; lia.
    + apply Z.leb_gt in Hcmp. exists s. repeat split; auto; lia.
Qed.

(** The whole of a cycle without failures. *)
Lemma scanForNewEvents_reliable_full fuel w p :
  1 <= ScannerConfig.batchSize scannerConfig ->
  isScanning w = false ->
  findProgress (chainName chainConfig) (scanprogresses w) = Some p ->
  (Z.to_nat (height - ScanProgress.lastScannedBlock p) <= fuel)%nat ->
  exists w' batches p',
    scanForNewEvents env chainConfig scannerConfig fuel w = (Returned tt, w') /\
    fetchCalls (trace w') = fetchCalls (trace w) ++ batches /\
    Partition (ScannerConfig.batchSize scannerConfig) height
      (ScanProgress.lastScannedBlock p + 1) batches /\
    findProgress (chainName chainConfig) (scanprogresses w') = Some p' /\
    ScanProgress.lastScannedBlock p' = Z.max (ScanProgress.lastScannedBlock p) height /\
    ScanProgress.totalBlocksScanned p'
    = ScanProgress.totalBlocksScanned p
      + Z.max 0 (height - ScanProgress.lastScannedBlock p) /\
    ScanProgress.totalEventsFound p <= ScanProgress.totalEventsFound p' /\
    isScanning w' = false.
Proof.
  intros Hb Hidle Hp Hfuel.
  destruct (scanForNewEvents_reliable env chainConfig scannerConfig height env_reliable
              fuel w p Hb Hidle Hp Hfuel) as [w' [batches [Hrun [Hf [Hpart Hdone]]]]].
  assert (Hidle' : isScanning w' = false).
  { pose proof (scanForNewEvents_idle_after env chainConfig scannerConfig fuel w Hidle) as Hi.
    rewrite Hrun in Hi. apply Hi. discriminate. }
  assert (Hend : exists p',
             findProgress (chainName chainConfig) (scanprogresses w') = Some p' /\
             ScanProgress.lastScannedBlock p'
             = Z.max (ScanProgress.lastScannedBlock p) height /\
             ScanProgress.totalBlocksScanned p'
             = ScanProgress.totalBlocksScanned p
               + Z.max 0 (height - ScanProgress.lastScannedBlock p) /\
             ScanProgress.totalEventsFound p <= ScanProgress.totalEventsFound p').
  { revert Hrun. unfold scanForNewEvents. rewrite Hidle.
    unfold bind at 1. unfold modify at 1. unfold try_finally, try_catch.
    unfold scanCycle, bind, getScanProgress, bind, ScanProgressModel_findOne.
    destruct env_reliable as [Hh [_ Hup]].
    rewrite Hup. simpl. rewrite Hp. simpl.
    unfold FeeCollectorService_getCurrentBlockNumber, BlockchainUtils_getCurrentBlockNumber.
    simpl. unfold try_catch, remote. rewrite Hh. simpl.
    destruct (ScanProgress.lastScannedBlock p >=? height) eqn:Hcmp.
    - simpl. intro Hrun. injection Hrun as <-. exists p.
      rewrite Z.geb_leb in Hcmp. apply Z.leb_le in Hcmp.
      simpl. repeat split; try assumption; try reflexivity; lia.
    - rewrite Z.geb_leb in Hcmp. apply Z.leb_gt in Hcmp.
      unfold withLocals.
      match goal with
      | |- context [scanLoop _ _ _ _ _ ?s0] =>
          destruct (scanLoop_reliable_end fuel s0 Hb) as [s1 [-> [Hs1 [Hc [Hl [Hbl Hev]]]]]]
      end.
      + unfold synced. simpl. rewrite (findProgress_chain _ _ _ Hp). exact Hp.
      + simpl. lia.
      + simpl. lia.
      + simpl. lia.
      + simpl. intro Hrun. injection Hrun as <-.
        exists (progress (fst s1)). simpl in *.
        unfold synced in Hs1. rewrite Hc, (findProgress_chain _ _ _ Hp) in Hs1.
        repeat split; try assumption; try lia. }
  destruct Hend as [p' [Hp' [Hl [Hbl Hev]]]].
  exists w', batches, p'. repeat split; assumption.
Qed.

End ReliableRun.

(** *** What is added to [totalEventsFound] *)

Lemma Forall2_same_length {A B} (R : A -> B -> Prop) l1 l2 :
  Forall2 R l1 l2 -> List.length l1 = List.length l2.
Proof. induction 1; simpl; congruence. Qed.

(** The count that [scanBatch] returns. *)
Lemma scanBatch_count env cc fromBlock toBlock w w' count :
  scanBatch env cc fromBlock toBlock w = (Returned count, w') ->
  exists events w1,
    loadFeeCollectorEvents env fromBlock toBlock w = (Returned events, w1) /\
    contract_queryFilter env (calls w) fromBlock toBlock = Some events /\
    count = Z.of_nat (List.length (filter (decodableb env) events)) /\
    ((events = [] /\ count = 0 /\ w' = w1) \/
     (events <> [] /\
      exists parsedEvents w2,
        parseFeeCollectorEvents env events w1 = (Returned parsedEvents, w2) /\
        fst (storeEvents env cc parsedEvents w2) = Returned tt /\
        w' = snd (storeEvents env cc parsedEvents w2) /\
        count = Z.of_nat (List.length parsedEvents))).
Proof.
  unfold scanBatch, bind. intro H.
  assert (Hq : forall events w1,
             loadFeeCollectorEvents env fromBlock toBlock w = (Returned events, w1) ->
             contract_queryFilter env (calls w) fromBlock toBlock = Some events).
  { unfold loadFeeCollectorEvents, try_catch, remote, throw.
    destruct (contract_queryFilter env (calls w) fromBlock toBlock); intros events w1 Hl;
      [injection Hl as <- _; reflexivity | discriminate]. }
  destruct (loadFeeCollectorEvents env fromBlock toBlock w) as [[events | e |] w1];
    try discriminate.
  exists events, w1. split; [reflexivity |]. split; [apply (Hq events w1 eq_refl) |].
  destruct events as [| ev rest].
  - simpl in H. injection H as <- <-. split; [reflexivity |]. left. auto.
  - change (Nat.eqb (List.length (ev :: rest)) 0) with false in H. cbv beta iota in H.
    destruct (parseFeeCollectorEvents_exact env (ev :: rest) w1) as [parsed [Hp Hall]].
    destruct (parseFeeCollectorEvents env (ev :: rest) w1) as [c w2].
    simpl in Hp. subst c.
    destruct (storeEvents env cc parsed w2) as [[[] | e |] w3] eqn:Hs; try discriminate.
    injection H as <- <-.
    split; [rewrite (Forall2_same_length _ _ _ Hall); reflexivity |].
    right. split; [discriminate |].
    exists parsed, w2. rewrite Hs. auto.
Qed.

Lemma decoded_split (d : Event.t -> bool) (f t h : Z) : forall l,
  f <= t + 1 -> t <= h ->
  (List.length (filter d (logsIn l f t)) + List.length (filter d (logsIn l (t + 1) h)))%nat
  = List.length (filter d (logsIn l f h)).
Proof.
  intros l Hf Ht. unfold logsIn. induction l as [| a l IH]; [reflexivity |].
  cbn [filter].
  destruct (f <=? Event.blockNumber a) eqn:E1;
    destruct (Event.blockNumber a <=? t) eqn:E2;
    destruct (t + 1 <=? Event.blockNumber a) eqn:E3;
    destruct (Event.blockNumber a <=? h) eqn:E4;
    cbn [andb filter];
    try (apply Z.leb_le in E1); try (apply Z.leb_gt in E1);
    try (apply Z.leb_le in E2); try (apply Z.leb_gt in E2);
    try (apply Z.leb_le in E3); try (apply Z.leb_gt in E3);
    try (apply Z.leb_le in E4); try (apply Z.leb_gt in E4);
    try lia; destruct (d a); cbn [List.length]; lia.
Qed.

Lemma decodedIn_split env chainLog f t h :
  f <= t + 1 -> t <= h ->
  decodedIn env chainLog f t + decodedIn env chainLog (t + 1) h = decodedIn env chainLog f h.
Proof.
  intros Hf Ht. unfold decodedIn.
  rewrite <- (decoded_split (decodableb env) f t h chainLog Hf Ht). lia.
Qed.

Lemma decodedIn_empty env chainLog f h : h < f -> decodedIn env chainLog f h = 0.
Proof.
  intro H. unfold decodedIn, logsIn.
  induction chainLog as [| a l IH]; [reflexivity |].
  cbn [filter].
  destruct (f <=? Event.blockNumber a) eqn:E1;
    destruct (Event.blockNumber a <=? h) eqn:E2; cbn [andb]; try exact IH.
  apply Z.leb_le in E1. apply Z.leb_le in E2. lia.
Qed.

Section CountedRun.

Variable env : Env.
Variable chainConfig : ChainConfig.t.
Variable scannerConfig : ScannerConfig.t.
Variable height : Z.
Variable chainLog : list Event.t.
Hypothesis env_reliable : Reliable env height.
Hypothesis chain_consistent : ConsistentChain env chainLog.

Lemma scanLoop_reliable_count fuel : forall s,
  1 <= ScannerConfig.batchSize scannerConfig ->
  synced s ->
  fromBlock (fst s) <= height + 1 ->
  (Z.to_nat (height - fromBlock (fst s) + 1) <= fuel)%nat ->
  exists s',
    scanLoop env chainConfig scannerConfig fuel height s = (Returned tt, s') /\
    synced s' /\
    ScanProgress.chain (progress (fst s')) = ScanProgress.chain (progress (fst s)) /\
    ScanProgress.totalEventsFound (progress (fst s'))
    = ScanProgress.totalEventsFound (progress (fst s))
      + decodedIn env chainLog (fromBlock (fst s)) height.
Proof.
  induction fuel as [| fuel IH]; intros s Hb Hs Hle Hfuel; simpl.
  - destruct (fromBlock (fst s) <=? height) eqn:Hcmp.
    + apply Z.leb_le in Hcmp. lia.
    + apply Z.leb_gt in Hcmp. exists s.
      rewrite decodedIn_empty by exact Hcmp. repeat split; auto; lia.
  - destruct (fromBlock (fst s) <=? height) eqn:Hcmp.
    + apply Z.leb_le in Hcmp. unfold bind.
      destruct (scanStep_reliable_exact env chainConfig scannerConfig height env_reliable
                  s Hs) as [n [w1 [s1 [Hsb [-> [Hs1 [Hf [Hp _]]]]]]]].
      destruct (scanBatch_count _ _ _ _ _ _ _ Hsb) as [events [w0 [_ [Hq [Hn _]]]]].
      apply chain_consistent in Hq. subst events.
      destruct (IH s1 Hb Hs1) as [s2 [Hloop [Hs2 [Hc Hev]]]].
      * rewrite Hf. lia.
      * rewrite Hf. lia.
      * exists s2. split; [exact Hloop |]. split; [exact Hs2 |].
        rewrite Hp in Hc, Hev. cbn [ScanProgress.updateProgress ScanProgress.chain
                                     ScanProgress.totalEventsFound] in Hc, Hev.
        split; [exact Hc |]. rewrite Hev, Hf, Hn.
        rewrite <- (decodedIn_split env chainLog (fromBlock (fst s))
                      (Z.min (fromBlock (fst s) + ScannerConfig.batchSize scannerConfig - 1)
                         height) height) by lia.
        unfold decodedIn. lia.
    + apply Z.leb_gt in Hcmp. exists s.
      rewrite decodedIn_empty by exact Hcmp. repeat split; auto; lia.
Qed.

Lemma scanForNewEvents_reliable_count fuel w p :
  1 <= ScannerConfig.batchSize scannerConfig ->
  isScanning w = false ->
  findProgress (chainName chainConfig) (scanprogresses w) = Some p ->
  (Z.to_nat (height - ScanProgress.lastScannedBlock p) <= fuel)%nat ->
  exists w' p',
    scanForNewEvents env chainConfig scannerConfig fuel w = (Returned tt, w') /\
    findProgress (chainName chainConfig) (scanprogresses w') = Some p' /\
    ScanProgress.totalEventsFound p'
    = ScanProgress.totalEventsFound p
      + decodedIn env chainLog (ScanProgress.lastScannedBlock p + 1) height.
Proof.
  intros Hb Hidle Hp Hfuel.
  unfold scanForNewEvents. rewrite Hidle.
  unfold bind at 1. unfold modify at 1. unfold try_finally, try_catch.
  unfold scanCycle, bind, getScanProgress, bind, ScanProgressModel_findOne.
  destruct env_reliable as [Hh [_ Hup]].
  rewrite Hup. simpl. rewrite Hp. simpl.
  unfold FeeCollectorService_getCurrentBlockNumber, BlockchainUtils_getCurrentBlockNumber.
  simpl. unfold try_catch, remote. rewrite Hh. simpl.
  destruct (ScanProgress.lastScannedBlock p >=? height) eqn:Hcmp.
  - simpl. eexists. exists p.
    rewrite Z.geb_leb in Hcmp. apply Z.leb_le in Hcmp.
    split; [reflexivity |]. simpl. split; [exact Hp |].
    rewrite decodedIn_empty by lia. lia.
  - rewrite Z.geb_leb in Hcmp. apply Z.leb_gt in Hcmp.
    unfold withLocals.
    match goal with
    | |- context [scanLoop _ _ _ _ _ ?s0] =>
        destruct (scanLoop_reliable_count fuel s0 Hb) as [s1 [-> [Hs1 [Hc Hev]]]]
    end.
    + unfold synced. simpl. rewrite (findProgress_chain _ _ _ Hp). exact Hp.
    + simpl. lia.
    + simpl. lia.
    + simpl. eexists. exists (progress (fst s1)). split; [reflexivity |].
      simpl in *. unfold synced in Hs1. rewrite Hc, (findProgress_chain _ _ _ Hp) in Hs1.
      split; assumption.
Qed.

End CountedRun.

(** C2, amended.  When [scanBatch] returns, the count is the number of
    decoded events of the batch (0 for an empty fetch), whether they
    were inserted or suppressed as duplicates: it is the length of what
    [parseFeeCollectorEvents] gives for the fetched entries, which is
    the number of fetched entries that are not skipped.  That count is
    what is added to [totalEventsFound]: a cycle in which nothing
    fails adds to the stored [totalEventsFound] of the chain exactly
    the number of decoded entries of the blocks it scans, whatever the
    event collection holds already. *)
Theorem C2_count_is_decoded (env : Env) (cc : ChainConfig.t) (sc : ScannerConfig.t)
  (height : Z) (chainLog : list Event.t) :
  (forall fromBlock toBlock w w' count,
     scanBatch env cc fromBlock toBlock w = (Returned count, w') ->
     exists events w1,
       loadFeeCollectorEvents env fromBlock toBlock w = (Returned events, w1) /\
       contract_queryFilter env (calls w) fromBlock toBlock = Some events /\
       count = Z.of_nat (List.length (filter (decodableb env) events)) /\
       ((events = [] /\ count = 0 /\ w' = w1) \/
        (events <> [] /\
         exists parsedEvents w2,
           parseFeeCollectorEvents env events w1 = (Returned parsedEvents, w2) /\
           fst (storeEvents env cc parsedEvents w2) = Returned tt /\
           w' = snd (storeEvents env cc parsedEvents w2) /\
           count = Z.of_nat (List.length parsedEvents)))) /\
  (Reliable env height ->
   ConsistentChain env chainLog ->
   1 <= ScannerConfig.batchSize sc ->
   forall fuel w p,
     isScanning w = false ->
     findProgress (chainName cc) (scanprogresses w) = Some p ->
     (Z.to_nat (height - ScanProgress.lastScannedBlock p) <= fuel)%nat ->
     exists w' p',
       scanForNewEvents env cc sc fuel w = (Returned tt, w') /\
       findProgress (chainName cc) (scanprogresses w') = Some p' /\
       ScanProgress.totalEventsFound p'
       = ScanProgress.totalEventsFound p
         + Z.of_nat (List.length
                       (filter (decodableb env)
                          (logsIn chainLog (ScanProgress.lastScannedBlock p + 1) height)))).
Proof.
  split.
  - intros fromBlock toBlock w w' count H.
    apply (scanBatch_count env cc fromBlock toBlock w w' count H).
  - intros Hrel Hcons Hb fuel w p Hidle Hp Hfuel.
    apply (scanForNewEvents_reliable_count env cc sc height chainLog Hrel Hcons fuel w p
             Hb Hidle Hp Hfuel).
Qed.

(** The duplicate test of the repository as a cycle: the only entry of
    the scanned block is stored already, nothing is inserted, and
    [totalEventsFound] goes from 0 to 1. *)
Lemma C2_count_is_decoded_witness :
  let chainLog := [Scenario.entry 70000001 "0xabc123" 0] in
  let env := Scenario.chain 70000001 chainLog Scenario.never in
  let w := Scenario.world [Scenario.storedEvent] [Scenario.progressAt 70000000 0 0] in
  (exists w' p',
     scanForNewEvents env Scenario.polygon (Scenario.config 1000 3) 1 w = (Returned tt, w') /\
     findProgress "polygon" (scanprogresses w') = Some p' /\
     ScanProgress.totalEventsFound p' = 0 + 1) /\
  feeevents (snd (scanForNewEvents env Scenario.polygon (Scenario.config 1000 3) 1 w))
  = [Scenario.storedEvent].
Proof.
  intros chainLog env w. split; [| reflexivity].
  destruct (proj2 (C2_count_is_decoded env Scenario.polygon (Scenario.config 1000 3)
                     70000001 chainLog)) with (fuel := 1%nat) (w := w)
                                              (p := Scenario.progressAt 70000000 0 0)
    as [w' [p' [Hrun [Hp Hev]]]].
  - repeat split; intros; try reflexivity. simpl. discriminate.
  - intros n f t events H. simpl in H. injection H as <-. reflexivity.
  - simpl. lia.
  - reflexivity.
  - reflexivity.
  - simpl. lia.
  - exists w', p'. split; [exact Hrun |]. split; [exact Hp | exact Hev].
Defined.

(** Why the cycle must be free of failures: the count is added to the
    loaded document before it is saved, so a batch whose save fails is
    counted again when it is retried.  Here the save of the first
    attempt on [1, 2] fails: one entry, one stored event, and
    [totalEventsFound] is 2. *)
Example failed_save_counts_twice :
  let env := {| provider_getCode := fun _ => Some "0x6080";
                provider_getBlockNumber := fun _ => Some 2;
                provider_getBlock := fun _ b => Some b;
                contract_queryFilter :=
                  fun _ f t => Some (logsIn [Scenario.entry 1 "0xaa" 0] f t);
                utils_getAddress := fun a => Some a;
                storage_down := fun n => Nat.eqb n 5;
                clock := fun n => Z.of_nat n |} in
  let r := scanForNewEvents env Scenario.polygon (Scenario.config 2 3) 10
             (Scenario.world [] [Scenario.progressAt 0 0 0]) in
  fst r = Returned tt /\
  fetchCalls (trace (snd r)) = [(1, 2); (1, 2)] /\
  List.length (feeevents (snd r)) = 1%nat /\
  option_map ScanProgress.totalEventsFound (findProgress "polygon" (scanprogresses (snd r)))
  = Some 2.
Proof. repeat split; reflexivity. Qed.

(** X7. A scan cycle in which nothing fails, with a batch size of at
    least one block, brings the stored progress of the chain to the
    height of the chain (it stays where it is when it is there
    already), adds exactly the number of blocks in between to
    [totalBlocksScanned], never lowers [totalEventsFound], and leaves
    the scanner idle. *)
Theorem scan_cycle_reaches_height (env : Env) (cc : ChainConfig.t) (sc : ScannerConfig.t)
  (height : Z) (w : World) (p : ScanProgress.t) (fuel : nat) :
  Reliable env height ->
  1 <= ScannerConfig.batchSize sc ->
  isScanning w = false ->
  findProgress (chainName cc) (scanprogresses w) = Some p ->
  (Z.to_nat (height - ScanProgress.lastScannedBlock p) <= fuel)%nat ->
  exists w' p',
    scanForNewEvents env cc sc fuel w = (Returned tt, w') /\
    findProgress (chainName cc) (scanprogresses w') = Some p' /\
    ScanProgress.lastScannedBlock p' = Z.max (ScanProgress.lastScannedBlock p) height /\
    ScanProgress.totalBlocksScanned p'
    = ScanProgress.totalBlocksScanned p
      + Z.max 0 (height - ScanProgress.lastScannedBlock p) /\
    ScanProgress.totalEventsFound p <= ScanProgress.totalEventsFound p' /\
    isScanning w' = false.
Proof.
  intros Hrel Hb Hidle Hp Hfuel.
  destruct (scanForNewEvents_reliable_full env cc sc height Hrel fuel w p Hb Hidle Hp Hfuel)
    as [w' [batches [p' [Hrun [_ [_ [Hp' [Hl [Hbl [Hev Hi]]]]]]]]]].
  exists w', p'. repeat split; assumption.
Qed.

Lemma scan_cycle_reaches_height_witness :
  exists w' p',
    scanForNewEvents
      (Scenario.chain 70000005 [Scenario.entry 70000003 "0xabc123" 0] Scenario.never)
      Scenario.polygon (Scenario.config 2 3) 5
      (Scenario.world [] [Scenario.progressAt 70000000 7 40]) = (Returned tt, w') /\
    findProgress "polygon" (scanprogresses w') = Some p' /\
    ScanProgress.lastScannedBlock p' = Z.max 70000000 70000005 /\
    ScanProgress.totalBlocksScanned p' = 40 + Z.max 0 (70000005 - 70000000) /\
    7 <= ScanProgress.totalEventsFound p' /\
    isScanning w' = false.
Proof.
  apply (scan_cycle_reaches_height
           (Scenario.chain 70000005 [Scenario.entry 70000003 "0xabc123" 0] Scenario.never)
           Scenario.polygon (Scenario.config 2 3) 70000005
           (Scenario.world [] [Scenario.progressAt 70000000 7 40])
           (Scenario.progressAt 70000000 7 40) 5).
  - repeat split; intros; try reflexivity. simpl. discriminate.
  - simpl. lia.
  - reflexivity.
  - reflexivity.
  - simpl. lia.
Defined.

(** *** Scanning a range again *)

Lemma Forall2_in_right {A B} (R : A -> B -> Prop) l1 l2 :
  Forall2 R l1 l2 -> forall b, In b l2 -> exists a, In a l1 /\ R a b.
Proof.
  induction 1 as [| a b l1 l2 Hab Hrest IH]; intros b0 Hin; [destruct Hin |].
  destruct Hin as [<- | Hin].
  - exists a. split; [left; reflexivity | exact Hab].
  - destruct (IH b0 Hin) as [a0 [Ha0 Hr]]. exists a0. split; [right | ]; assumption.
Qed.

Section Rescan.

Variable env : Env.
Variable chainConfig : ChainConfig.t.
Variable scannerConfig : ScannerConfig.t.
Variable height : Z.
Variable chainLog : list Event.t.
Hypothesis env_reliable : Reliable env height.
Hypothesis chain_consistent : ConsistentChain env chainLog.

Lemma scanBatch_rescan f t w :
  covered env chainLog (f - 1) t w ->
  feeevents (snd (scanBatch env chainConfig f t w)) = feeevents w.
Proof.
  intro Hcov. unfold scanBatch, bind, loadFeeCollectorEvents, try_catch, remote.
  destruct (contract_queryFilter env (calls w) f t) as [events |] eqn:Hq; [| reflexivity].
  apply chain_consistent in Hq.
  destruct (Nat.eqb (List.length events) 0); [reflexivity |].
  set (w1 := record (call_queryFilter f t) true w).
  destruct (parseFeeCollectorEvents_exact env events w1) as [parsed [Hp Hall]].
  pose proof (parseFeeCollectorEvents_keeps env feeevents feeevents_blind events w1) as Hk.
  destruct (parseFeeCollectorEvents env events w1) as [c w2]. simpl in Hp, Hk. subst c.
  unfold keeps in Hk.
  destruct env_reliable as [_ [_ Hup]].
  destruct (storeEvents_up env chainConfig parsed w2 (Hup _)) as [Hr Hfe].
  destruct (storeEvents env chainConfig parsed w2) as [c w3]. simpl in Hr, Hfe. subst c.
  simpl. rewrite Hfe, insertUnordered_all_present; [exact Hk |].
  intros d Hin. apply filter_In in Hin. destruct Hin as [Hin _].
  apply in_map_iff in Hin. destruct Hin as [pe [<- Hpe]].
  destruct (Forall2_in_right _ _ _ Hall pe Hpe) as [raw [Hraw Hdec]].
  apply filter_In in Hraw. destruct Hraw as [Hraw Hd].
  rewrite Hq in Hraw. unfold logsIn in Hraw. apply filter_In in Hraw.
  destruct Hraw as [Hlog Hrange].
  apply andb_true_iff in Hrange. destruct Hrange as [Hf Ht].
  apply Z.leb_le in Hf. apply Z.leb_le in Ht.
  destruct Hdec as [args [_ [_ [_ [_ [_ [_ Hkey]]]]]]].
  rewrite Hk. unfold FeeEvent.key. simpl. rewrite Hkey.
  apply Hcov; [exact Hlog | lia | apply decodableb_decodable; exact Hd].
Qed.

Lemma scanLoop_rescan lo fuel : forall s,
  1 <= ScannerConfig.batchSize scannerConfig ->
  synced s ->
  covered env chainLog lo height (snd s) ->
  lo <= fromBlock (fst s) - 1 ->
  feeevents (snd (snd (scanLoop env chainConfig scannerConfig fuel height s)))
  = feeevents (snd s).
Proof.
  induction fuel as [| fuel IH]; intros s Hb Hs Hcov Hlo; simpl.
  - destruct (fromBlock (fst s) <=? height); reflexivity.
  - destruct (fromBlock (fst s) <=? height) eqn:Hcmp; [| reflexivity].
    apply Z.leb_le in Hcmp. unfold bind.
    destruct (scanStep_reliable_exact env chainConfig scannerConfig height env_reliable s Hs)
      as [n [w1 [s1 [Hsb [-> [Hs1 [Hf [_ Hfe]]]]]]]].
    assert (Hsame : feeevents (snd s1) = feeevents (snd s)).
    { rewrite Hfe.
      pose proof (scanBatch_rescan (fromBlock (fst s))
                    (Z.min (fromBlock (fst s) + ScannerConfig.batchSize scannerConfig - 1)
                       height) (snd s)) as Hr.
      rewrite Hsb in Hr. apply Hr.
      intros raw Hin Hrange Hdec. apply Hcov; [exact Hin | lia | exact Hdec]. }
    rewrite IH; [exact Hsame | exact Hb | exact Hs1 | | rewrite Hf; lia].
    intros raw Hin Hrange Hdec. rewrite Hsame. apply Hcov; assumption.
Qed.

Lemma scanForNewEvents_rescan fuel w p :
  1 <= ScannerConfig.batchSize scannerConfig ->
  findProgress (chainName chainConfig) (scanprogresses w) = Some p ->
  covered env chainLog (ScanProgress.lastScannedBlock p) height w ->
  feeevents (snd (scanForNewEvents env chainConfig scannerConfig fuel w)) = feeevents w.
Proof.
  intros Hb Hp Hcov. unfold scanForNewEvents.
  destruct (isScanning w); [reflexivity |].
  unfold bind at 1. unfold modify at 1. unfold try_finally, try_catch.
  unfold scanCycle, bind, getScanProgress, bind, ScanProgressModel_findOne.
  destruct env_reliable as [Hh [_ Hup]].
  rewrite Hup. simpl. rewrite Hp. simpl.
  unfold FeeCollectorService_getCurrentBlockNumber, BlockchainUtils_getCurrentBlockNumber.
  simpl. unfold try_catch, remote. rewrite Hh. simpl.
  destruct (ScanProgress.lastScannedBlock p >=? height); [reflexivity |].
  unfold withLocals.
  match goal with
  | |- context [scanLoop _ _ _ _ _ ?s0] =>
      pose proof (scanLoop_rescan (ScanProgress.lastScannedBlock p) fuel s0 Hb) as Hl;
      destruct (scanLoop env chainConfig scannerConfig fuel height s0) as [[[] | e |] s1]
  end; simpl in *; apply Hl;
    try (unfold synced; simpl; rewrite (findProgress_chain _ _ _ Hp); exact Hp);
    try exact Hcov; try lia.
Qed.

End Rescan.

(** X8. Scanning a range again stores nothing twice.  With a chain that
    answers every fetch with the entries of its block range and a
    database that answers, when every decodable entry of the blocks
    between the stored progress and the height is already in the event
    collection (the progress was moved back), the cycle leaves the event
    collection exactly as it is. *)
Theorem rescan_stores_nothing (env : Env) (cc : ChainConfig.t) (sc : ScannerConfig.t)
  (height : Z) (chainLog : list Event.t) (fuel : nat) (w : World) (p : ScanProgress.t) :
  Reliable env height ->
  ConsistentChain env chainLog ->
  1 <= ScannerConfig.batchSize sc ->
  findProgress (chainName cc) (scanprogresses w) = Some p ->
  covered env chainLog (ScanProgress.lastScannedBlock p) height w ->
  feeevents (snd (scanForNewEvents env cc sc fuel w)) = feeevents w.
Proof.
  intros Hrel Hcons Hb Hp Hcov.
  apply (scanForNewEvents_rescan env cc sc height chainLog Hrel Hcons fuel w p Hb Hp Hcov).
Qed.

Lemma rescan_stores_nothing_witness :
  let chainLog := [Scenario.entry 70000003 "0xabc123" 0] in
  let env := Scenario.chain 70000005 chainLog Scenario.never in
  let stored := toFeeEvent Scenario.polygon (Scenario.parsedEvent 70000003 "0xabc123" 0) in
  let w := Scenario.world [stored] [Scenario.progressAt 70000000 1 5] in
  feeevents (snd (scanForNewEvents env Scenario.polygon (Scenario.config 2 3) 5 w))
  = [stored].
Proof.
  intros chainLog env stored w.
  apply (rescan_stores_nothing env Scenario.polygon (Scenario.config 2 3) 70000005
           chainLog 5 w (Scenario.progressAt 70000000 1 5)).
  - repeat split; intros; try reflexivity. simpl. discriminate.
  - intros n f t events H. simpl in H. injection H as <-. reflexivity.
  - simpl. lia.
  - reflexivity.
  - intros raw [<- | []] _ _. reflexivity.
Defined.

(** *** Starting the scanner *)

Lemma validateContract_deployed env w :
  Deployed env ->
  validateContract env w = (Returned true, record call_getCode true w).
Proof.
  intro Hd. destruct (Hd (calls w)) as [code [Hc Hne]].
  unfold validateContract, try_catch, bind, remote, ret. rewrite Hc, Hne. reflexivity.
Qed.

Lemma initializeScanProgress_fresh env cc w :
  (forall n, storage_down env n = false) ->
  chainName cc <> "" ->
  findProgress (chainName cc) (scanprogresses w) = None ->
  exists w' doc,
    initializeScanProgress env cc w = (Returned tt, w') /\
    findProgress (chainName cc) (scanprogresses w') = Some doc /\
    ScanProgress.lastScannedBlock doc = ChainConfig.startBlock cc - 1 /\
    ScanProgress.totalEventsFound doc = 0 /\
    ScanProgress.totalBlocksScanned doc = 0 /\
    isScanning w' = isScanning w /\
    feeevents w' = feeevents w /\
    fetchCalls (trace w') = fetchCalls (trace w).
Proof.
  intros Hup Hname Hnone. apply String.eqb_neq in Hname.
  unfold initializeScanProgress, bind, ScanProgressModel_findOne.
  rewrite Hup, Hnone. unfold now, ScanProgressModel_create, ScanProgress.valid.
  cbn [ScanProgress.chain]. rewrite Hname. cbn [negb].
  rewrite Hup. cbn [calls record scanprogresses ScanProgress.chain]. rewrite Hnone.
  eexists. eexists. split; [reflexivity |].
  cbn [record set_scanprogresses scanprogresses isScanning feeevents trace].
  rewrite findProgress_app_none by exact Hnone.
  split.
  { unfold findProgress. cbn [find ScanProgress.chain]. rewrite String.eqb_refl. reflexivity. }
  repeat split.
  rewrite !fetchCalls_app. simpl. rewrite !app_nil_r. reflexivity.
Qed.

(** X9. Starting an idle scanner, with a chain name that is not empty
    and a batch size of at least one block, on a chain that has no
    progress record yet, where the contract is deployed and nothing
    fails: [start] returns, the progress record of the chain exists and
    stands at the height of the chain (at [startBlock - 1] when the
    chain is shorter), the raw events were fetched exactly once for
    each batch of the blocks from [startBlock] to the height, the
    second of the two initial scans having fetched nothing, the
    periodic timer is installed with the configured interval and the
    scanner is idle. *)
Theorem start_scans_from_startBlock (env : Env) (cc : ChainConfig.t) (sc : ScannerConfig.t)
  (height : Z) (fuel : nat) (w : World) :
  Deployed env ->
  Reliable env height ->
  chainName cc <> "" ->
  1 <= ScannerConfig.batchSize sc ->
  isScanning w = false ->
  findProgress (chainName cc) (scanprogresses w) = None ->
  (Z.to_nat (height - (ChainConfig.startBlock cc - 1)) <= fuel)%nat ->
  exists w' batches p',
    start env cc sc fuel w = (Returned tt, w') /\
    fetchCalls (trace w') = fetchCalls (trace w) ++ batches /\
    Partition (ScannerConfig.batchSize sc) height (ChainConfig.startBlock cc) batches /\
    findProgress (chainName cc) (scanprogresses w') = Some p' /\
    ScanProgress.lastScannedBlock p' = Z.max (ChainConfig.startBlock cc - 1) height /\
    ScanProgress.totalBlocksScanned p'
    = Z.max 0 (height - (ChainConfig.startBlock cc - 1)) /\
    scanInterval w' = Some (ScannerConfig.intervalMs sc) /\
    isScanning w' = false.
Proof.
  intros Hd Hrel Hname Hb Hidle Hnone Hfuel.
  pose proof (validateContract_deployed env w Hd) as Hv.
  destruct Hrel as [Hh [Hq Hup]].
  destruct (initializeScanProgress_fresh env cc (record call_getCode true w) Hup Hname Hnone)
    as [w1 [doc [Hinit [Hdoc [Hl [_ [Hblocks [Hi1 [_ Hf1]]]]]]]]].
  assert (Hrel : Reliable env height) by (repeat split; assumption).
  destruct (scanForNewEvents_reliable_full env cc sc height Hrel fuel w1 doc Hb)
    as [w2 [batches [p2 [Hrun2 [Hf2 [Hpart2 [Hp2 [Hl2 [Hbl2 [_ Hi2]]]]]]]]]].
  { rewrite Hi1. exact Hidle. }
  { exact Hdoc. }
  { rewrite Hl. exact Hfuel. }
  destruct (scanForNewEvents_reliable_full env cc sc height Hrel fuel w2 p2 Hb Hi2 Hp2)
    as [w3 [batches3 [p3 [Hrun3 [Hf3 [Hpart3 [Hp3 [Hl3 [Hbl3 [_ Hi3]]]]]]]]]].
  { rewrite Hl2. lia. }
  assert (batches3 = []) as ->.
  { inversion Hpart3; subst; [reflexivity | lia]. }
  exists (set_scanInterval (Some (ScannerConfig.intervalMs sc)) w3), batches, p3.
  split.
  { unfold start, try_catch, bind. rewrite Hv. cbn [negb]. rewrite Hinit, Hrun2, Hrun3.
    reflexivity. }
  cbn [set_scanInterval trace scanprogresses scanInterval isScanning].
  repeat split.
  - rewrite Hf3, app_nil_r, Hf2, Hf1. cbn [record trace]. rewrite fetchCalls_app. simpl.
    rewrite app_nil_r. reflexivity.
  - replace (ChainConfig.startBlock cc) with (ScanProgress.lastScannedBlock doc + 1) by lia.
    exact Hpart2.
  - exact Hp3.
  - rewrite Hl3, Hl2, Hl. lia.
  - rewrite Hbl3, Hbl2, Hl2, Hblocks, Hl. lia.
  - exact Hi3.
Qed.

Lemma start_scans_from_startBlock_witness :
  exists w' p',
    start (Scenario.chain 70000004 [Scenario.entry 70000003 "0xabc123" 0] Scenario.never)
      Scenario.polygon (Scenario.config 2 3) 5 (Scenario.world [] []) = (Returned tt, w') /\
    fetchCalls (trace w') = [(70000000, 70000001); (70000002, 70000003); (70000004, 70000004)] /\
    findProgress "polygon" (scanprogresses w') = Some p' /\
    ScanProgress.lastScannedBlock p' = 70000004 /\
    ScanProgress.totalBlocksScanned p' = 5 /\
    scanInterval w' = Some 5000 /\
    isScanning w' = false.
Proof.
  destruct (start_scans_from_startBlock
              (Scenario.chain 70000004 [Scenario.entry 70000003 "0xabc123" 0] Scenario.never)
              Scenario.polygon (Scenario.config 2 3) 70000004 5 (Scenario.world [] []))
    as [w' [batches [p' [Hrun [Hf [Hpart [Hp [Hl [Hbl [Hint Hi]]]]]]]]]].
  - intro n. exists "0x6080". split; reflexivity.
  - repeat split; intros; try reflexivity. simpl. discriminate.
  - discriminate.
  - simpl. lia.
  - reflexivity.
  - reflexivity.
  - simpl. lia.
  - exists w', p'. repeat split; try assumption.
    rewrite Hf. simpl.
    apply (Partition_functional _ _ _ _ Hpart). simpl.
    repeat (constructor; simpl; try lia).
Defined.

(** *** The event collection is append-only *)

Lemma appended_refl w : appended w w.
Proof. exists []. symmetry. apply app_nil_r. Qed.

Lemma appended_trans a b c : appended a b -> appended b c -> appended a c.
Proof.
  intros [x Hx] [y Hy]. exists (x ++ y). rewrite Hy, Hx, app_assoc. reflexivity.
Qed.

Lemma keeps_appended w w' : keeps feeevents w w' -> appended w w'.
Proof. unfold keeps. intro H. exists []. rewrite H. symmetry. apply app_nil_r. Qed.

Lemma appended_grows w w' : appended w w' -> grows w w'.
Proof. intros [added H] k Hk. rewrite H, hasKey_app, Hk. reflexivity. Qed.

Lemma onWorld_refl (R : World -> World -> Prop) :
  (forall w, R w w) -> forall s, onWorld R s s.
Proof. intros H s. apply H. Qed.

Lemma onWorld_trans (R : World -> World -> Prop) :
  (forall a b c, R a b -> R b c -> R a c) ->
  forall a b c, onWorld R a b -> onWorld R b c -> onWorld R a c.
Proof. intros H a b c. apply H. Qed.

Lemma inWorld_onWorld {A} (R : World -> World -> Prop) (m : M World A) :
  along R m -> along (onWorld R) (inWorld m).
Proof.
  intros Hm [l w]. unfold onWorld, inWorld. simpl. specialize (Hm w).
  destruct (m w) as [r w1]. exact Hm.
Qed.

Section AppendOnly.

Variable env : Env.
Variable chainConfig : ChainConfig.t.
Variable scannerConfig : ScannerConfig.t.

Lemma onAppended_refl s : onWorld appended s s.
Proof. apply onWorld_refl, appended_refl. Qed.

Lemma onAppended_trans a b c :
  onWorld appended a b -> onWorld appended b c -> onWorld appended a c.
Proof. apply onWorld_trans, appended_trans. Qed.

Lemma feeevents_blind_all c : isFetch c = false -> blind feeevents c.
Proof. intros _ ok w. reflexivity. Qed.

Lemma keeps_along_appended {A} (m : M World A) :
  along (keeps feeevents) m -> along appended m.
Proof. intros H w. apply keeps_appended, H. Qed.

Lemma scanBatch_appended f t : along appended (scanBatch env chainConfig f t).
Proof.
  unfold scanBatch.
  apply along_bind; [exact appended_trans | | intro events].
  { apply keeps_along_appended. intro w.
    unfold loadFeeCollectorEvents, try_catch, remote, keeps.
    destruct (contract_queryFilter env (calls w) f t); reflexivity. }
  destruct (Nat.eqb (List.length events) 0);
    [apply along_ret; exact appended_refl |].
  apply along_bind; [exact appended_trans | | intro parsed].
  { apply keeps_along_appended, parseFeeCollectorEvents_keeps, feeevents_blind_all. }
  apply along_bind; [exact appended_trans | | intro].
  { intro w. apply storeEvents_appends. }
  apply along_ret; exact appended_refl.
Qed.

Lemma save_appended doc : along appended (save env doc).
Proof.
  apply keeps_along_appended. intro w. unfold save, keeps.
  destruct (storage_down env (calls w)); [reflexivity |].
  destruct (findProgress _ _); reflexivity.
Qed.

Lemma assign_appended f : along (onWorld appended) (assign f).
Proof. intros [l w]. apply appended_refl. Qed.

Lemma locals_appended : along (onWorld appended) locals.
Proof. intros [l w]. apply appended_refl. Qed.

Lemma delay_appended ms : along (onWorld appended) (inWorld (delay ms)).
Proof.
  apply inWorld_onWorld, keeps_along_appended. intro w. reflexivity.
Qed.

Ltac appended_step :=
  match goal with
  | |- along (onWorld appended) (bind _ _) => apply along_bind; [exact onAppended_trans | | intro]
  | |- along (onWorld appended) (try_catch _ _) =>
      apply along_try_catch; [exact onAppended_trans | | intro]
  | |- along (onWorld appended) (ret _) => apply along_ret; exact onAppended_refl
  | |- along (onWorld appended) (throw _) => apply along_throw; exact onAppended_refl
  | |- along (onWorld appended) (assign _) => apply assign_appended
  | |- along (onWorld appended) locals => apply locals_appended
  | |- along (onWorld appended) (inWorld (delay _)) => apply delay_appended
  | |- along (onWorld appended) (if ?b then _ else _) => destruct b
  end.

Lemma attemptBatch_appended toBlock : along (onWorld appended) (attemptBatch env chainConfig toBlock).
Proof.
  unfold attemptBatch. repeat appended_step.
  - apply inWorld_onWorld, scanBatch_appended.
  - apply inWorld_onWorld, keeps_along_appended. intro w. reflexivity.
  - apply inWorld_onWorld, save_appended.
Qed.

Lemma retryWithBackoff_loop_appended operation n : forall attempt,
  along (onWorld appended) operation ->
  along (onWorld appended) (retryWithBackoff_loop scannerConfig n attempt operation).
Proof.
  induction n as [| n IH]; intros attempt Hop; simpl.
  - appended_step.
  - appended_step; [exact Hop |]. repeat appended_step. apply IH, Hop.
Qed.

Lemma scanStep_appended currentBlock :
  along (onWorld appended) (scanStep env chainConfig scannerConfig currentBlock).
Proof.
  unfold scanStep. appended_step; [appended_step |].
  appended_step.
  - repeat appended_step. apply attemptBatch_appended.
  - repeat appended_step.
    apply retryWithBackoff_loop_appended, attemptBatch_appended.
Qed.

Lemma scanLoop_appended currentBlock fuel :
  along (onWorld appended) (scanLoop env chainConfig scannerConfig fuel currentBlock).
Proof.
  induction fuel as [| fuel IH]; intro s; simpl.
  - destruct (fromBlock (fst s) <=? currentBlock); apply onAppended_refl.
  - destruct (fromBlock (fst s) <=? currentBlock); [| apply onAppended_refl].
    revert s. change (along (onWorld appended) (scanStep env chainConfig scannerConfig currentBlock ;;
                               scanLoop env chainConfig scannerConfig fuel currentBlock)).
    appended_step; [apply scanStep_appended | exact IH].
Qed.

Lemma scanCycle_appended fuel :
  along appended (scanCycle env chainConfig scannerConfig fuel).
Proof.
  unfold scanCycle.
  apply along_bind; [exact appended_trans | | intro p].
  { apply keeps_along_appended, getScanProgress_keeps, feeevents_blind_all. }
  apply along_bind; [exact appended_trans | | intro h].
  { apply keeps_along_appended, getCurrentBlockNumber_keeps, feeevents_blind_all. }
  destruct (ScanProgress.lastScannedBlock p >=? h);
    [apply along_ret; exact appended_refl |].
  intro w. unfold withLocals.
  match goal with
  | |- context [scanLoop _ _ _ _ _ ?s0] =>
      pose proof (scanLoop_appended h fuel s0) as Hl;
      destruct (scanLoop env chainConfig scannerConfig fuel h s0) as [r s1]
  end. exact Hl.
Qed.

Lemma scanForNewEvents_appended fuel :
  along appended (scanForNewEvents env chainConfig scannerConfig fuel).
Proof.
  intro w. unfold scanForNewEvents.
  destruct (isScanning w); [apply appended_refl |].
  revert w.
  match goal with
  | |- forall w, appended w (snd (?m w)) => change (along appended m)
  end.
  apply along_bind; [exact appended_trans | | intro].
  { apply along_modify. intro w. apply keeps_appended. reflexivity. }
  apply along_try_finally; [exact appended_trans | |].
  - apply along_try_catch; [exact appended_trans | | intro].
    + apply scanCycle_appended.
    + apply along_throw. exact appended_refl.
  - apply along_modify. intro w. apply keeps_appended. reflexivity.
Qed.

Lemma scanCycles_appended fuels : forall w,
  appended w (scanCycles env chainConfig scannerConfig fuels w).
Proof.
  induction fuels as [| fuel rest IH]; intro w; simpl; [apply appended_refl |].
  eapply appended_trans; [apply scanForNewEvents_appended | apply IH].
Qed.

Lemma start_appended fuel : along appended (start env chainConfig scannerConfig fuel).
Proof.
  unfold start.
  apply along_try_catch; [exact appended_trans | | intro];
    [| apply along_ret; exact appended_refl].
  apply along_bind; [exact appended_trans | | intro isValid].
  { apply keeps_along_appended, validateContract_keeps, feeevents_blind_all. }
  destruct (negb isValid); [apply along_ret; exact appended_refl |].
  apply along_bind; [exact appended_trans | | intro].
  { apply keeps_along_appended. intro w.
    unfold initializeScanProgress, bind, ScanProgressModel_findOne, keeps.
    destruct (storage_down env (calls w)); [reflexivity |].
    destruct (findProgress _ _); [reflexivity |].
    unfold now, ScanProgressModel_create. simpl.
    destruct (negb (ScanProgress.valid _)); [reflexivity |].
    destruct (storage_down env _); [reflexivity |].
    destruct (findProgress _ _); reflexivity. }
  apply along_bind; [exact appended_trans | | intro].
  { apply along_try_catch; [exact appended_trans | | intro].
    - apply scanForNewEvents_appended.
    - apply along_ret. exact appended_refl. }
  apply along_bind; [exact appended_trans | | intro].
  { apply along_try_catch; [exact appended_trans | | intro].
    - apply scanForNewEvents_appended.
    - apply along_ret. exact appended_refl. }
  apply along_modify. intro w. apply keeps_appended. reflexivity.
Qed.

End AppendOnly.

(** X10. The scanner only ever adds to the event collection.  Whatever
    the chain and the database answer, whichever calls fail and however
    each run ends, after [start] and after any number of scan cycles
    the event collection is the one before with documents added at its
    end: no stored event is removed, changed or moved. *)
Theorem scanner_append_only (env : Env) (cc : ChainConfig.t) (sc : ScannerConfig.t)
  (w : World) :
  (forall fuel,
     exists added, feeevents (snd (start env cc sc fuel w)) = feeevents w ++ added) /\
  (forall fuels,
     exists added, feeevents (scanCycles env cc sc fuels w) = feeevents w ++ added).
Proof.
  split.
  - intro fuel. apply (start_appended env cc sc fuel w).
  - intro fuels. apply (scanCycles_appended env cc sc fuels w).
Qed.

(** *** No event is passed over, cycle after cycle *)

Lemma scanCycles_safe (env : Env) (cc : ChainConfig.t) (sc : ScannerConfig.t)
  (chainLog : list Event.t) (lo : Z) :
  ConsistentChain env chainLog ->
  1 <= ScannerConfig.maxRetries sc ->
  1 <= ScannerConfig.batchSize sc ->
  forall fuels w,
    safeFor env cc chainLog (chainName cc) lo w ->
    safeFor env cc chainLog (chainName cc) lo (scanCycles env cc sc fuels w).
Proof.
  intros Hcons Hmax Hb. induction fuels as [| fuel rest IH]; intros w Hs; simpl;
    [exact Hs |].
  apply IH. destruct Hs as [b [Hl Hc]].
  unfold lastScanned in Hl.
  destruct (findProgress (chainName cc) (scanprogresses w)) as [p |] eqn:Hp;
    [| discriminate].
  injection Hl as Hl.
  destruct (scanForNewEvents_safe env cc sc chainLog Hcons Hmax Hb fuel w p Hp)
    as [b1 [Hl1 Hc1]].
  exists b1. split; [exact Hl1 |].
  apply (secured_join env cc chainLog lo b b1).
  - apply (secured_grows env cc chainLog lo b w); [| exact Hc].
    apply appended_grows, scanForNewEvents_appended.
  - rewrite <- Hl. exact Hc1.
Qed.

(** X11. With at least one retry allowed and a batch of at least one
    block, on a chain that answers a fetch with the entries of its
    block range: over any run of scan cycles, whichever fetches and
    database calls fail and however each cycle ends, the stored
    progress of the chain never passes an event that can be stored and
    is not.  It stands at a block [b] at or after the block [P] where
    it stood before the run, and every entry of the chain in the blocks
    [P + 1 .. b] that is decoded into a document that passes the
    schema (addresses, transaction hash and chain name not empty) is
    in the event collection. *)
Theorem progress_never_passes_unstored_events (env : Env) (cc : ChainConfig.t)
  (sc : ScannerConfig.t) (chainLog : list Event.t) (fuels : list nat) (w : World)
  (p : ScanProgress.t) :
  ConsistentChain env chainLog ->
  1 <= ScannerConfig.maxRetries sc ->
  1 <= ScannerConfig.batchSize sc ->
  findProgress (chainName cc) (scanprogresses w) = Some p ->
  exists b,
    lastScanned (chainName cc) (scanCycles env cc sc fuels w) = Some b /\
    ScanProgress.lastScannedBlock p <= b /\
    forall raw,
      In raw chainLog ->
      ScanProgress.lastScannedBlock p < Event.blockNumber raw <= b ->
      storableEntry env cc raw ->
      hasKey (rawKey raw) (feeevents (scanCycles env cc sc fuels w)) = true.
Proof.
  intros Hcons Hmax Hb Hp.
  destruct (scanCycles_safe env cc sc chainLog (ScanProgress.lastScannedBlock p)
              Hcons Hmax Hb fuels w) as [b [Hl Hc]].
  { exists (ScanProgress.lastScannedBlock p). split.
    - unfold lastScanned. rewrite Hp. reflexivity.
    - intros raw _ Hr. lia. }
  exists b. split; [exact Hl | split; [| exact Hc]].
  assert (Hat : progressAtLeast (ScanProgress.lastScannedBlock p) (chainName cc) w).
  { exists p. split; [exact Hp | lia]. }
  apply (scanCycles_progressAtLeast env cc sc _ fuels) in Hat.
  destruct (atLeast_lastScanned _ _ _ Hat) as [b' [Hl' Hle]].
  rewrite Hl in Hl'. injection Hl' as <-. exact Hle.
Qed.

Lemma progress_never_passes_unstored_events_witness :
  let chainLog := [Scenario.entry 1 "0xaa" 0; Scenario.entry 3 "0xbb" 1] in
  let env := Scenario.chain 4 chainLog (fun n f _ => (f =? 3) && Nat.ltb n 30)%bool in
  let w' := scanCycles env Scenario.polygon (Scenario.config 2 3) [10%nat; 10%nat]
              (Scenario.world [] [Scenario.progressAt 0 0 0]) in
  exists b,
    lastScanned "polygon" w' = Some b /\
    0 <= b /\
    forall raw,
      In raw chainLog -> 0 < Event.blockNumber raw <= b ->
      storableEntry env Scenario.polygon raw ->
      hasKey (rawKey raw) (feeevents w') = true.
Proof.
  intros chainLog env w'.
  apply (progress_never_passes_unstored_events env Scenario.polygon (Scenario.config 2 3)
           chainLog [10%nat; 10%nat] (Scenario.world [] [Scenario.progressAt 0 0 0])
           (Scenario.progressAt 0 0 0)).
  - intros n f t events. simpl. destruct ((f =? 3) && Nat.ltb n 30)%bool; [discriminate |].
    intro H. injection H as <-. reflexivity.
  - simpl. lia.
  - simpl. lia.
  - reflexivity.
Defined.

(** *** A batch that is never answered *)

Lemma delays_record c ok w :
  delays (trace (record c ok w))
  = delays (trace w) ++ match c with call_setTimeout ms => [ms] | _ => [] end.
Proof. unfold record. simpl. rewrite delays_app. simpl. rewrite app_nil_r. reflexivity. Qed.

Lemma fetchCalls_record c ok w :
  fetchCalls (trace (record c ok w))
  = fetchCalls (trace w) ++ match c with call_queryFilter f t => [(f, t)] | _ => [] end.
Proof.
  unfold record. simpl. rewrite fetchCalls_app. simpl. rewrite app_nil_r. reflexivity.
Qed.

Section Unanswered.

Variable env : Env.
Variable chainConfig : ChainConfig.t.
Variable scannerConfig : ScannerConfig.t.
Variable height : Z.
Hypothesis height_known : forall n, provider_getBlockNumber env n = Some height.
Hypothesis never_answered : forall n f t, contract_queryFilter env n f t = None.
Hypothesis storage_up : forall n, storage_down env n = false.

Lemma attemptBatch_unanswered t s :
  attemptBatch env chainConfig t s
  = (Thrown (Error "Event loading failed"),
     (fst s, record (call_queryFilter (fromBlock (fst s)) t) false (snd s))).
Proof.
  destruct s as [l w].
  unfold attemptBatch, bind, locals, inWorld, scanBatch, bind, loadFeeCollectorEvents,
    try_catch, remote, throw.
  simpl. rewrite never_answered. reflexivity.
Qed.

Lemma retryWithBackoff_loop_unanswered t n : forall attempt s,
  (1 <= n)%nat ->
  attempt + Z.of_nat n - 1 = ScannerConfig.maxRetries scannerConfig ->
  let r := retryWithBackoff_loop scannerConfig n attempt (attemptBatch env chainConfig t) s in
  fst r = Thrown (Error "Event loading failed") /\
  fst (snd r) = fst s /\
  fetchCalls (trace (snd (snd r)))
  = fetchCalls (trace (snd s)) ++ repeat (fromBlock (fst s), t) n /\
  delays (trace (snd (snd r)))
  = delays (trace (snd s))
    ++ map (fun k => ScannerConfig.retryDelayMs scannerConfig * 2 ^ (attempt - 1 + Z.of_nat k))
         (seq 0 (n - 1)) /\
  collections (snd (snd r)) = collections (snd s) /\
  isScanning (snd (snd r)) = isScanning (snd s).
Proof.
  induction n as [| n IH]; intros attempt s Hn Hmax; [lia |].
  cbn [retryWithBackoff_loop]. unfold try_catch. rewrite attemptBatch_unanswered.
  destruct (attempt =? ScannerConfig.maxRetries scannerConfig) eqn:Hlast.
  - apply Z.eqb_eq in Hlast. assert (n = 0%nat) by lia. subst n.
    cbn [throw fst snd repeat seq map Nat.sub].
    rewrite fetchCalls_record, delays_record, !app_nil_r.
    repeat split; reflexivity.
  - apply Z.eqb_neq in Hlast. unfold bind, inWorld, delay. cbn [fst snd].
    match goal with
    | |- context [retryWithBackoff_loop _ n (attempt + 1) _ ?s1] =>
        destruct (IH (attempt + 1) s1) as [Hr [Hl [Hf [Hd [Hc Hi]]]]]; [lia | lia |];
        destruct (retryWithBackoff_loop scannerConfig n (attempt + 1)
                    (attemptBatch env chainConfig t) s1) as [c s2]
    end.
    cbn [fst snd] in *. subst c.
    repeat split.
    + exact Hl.
    + rewrite Hf, !fetchCalls_record, app_nil_r, <- app_assoc. reflexivity.
    + rewrite Hd, !delays_record, app_nil_r, <- app_assoc.
      destruct n as [| n]; [lia |].
      cbn [Nat.sub]. rewrite !Nat.sub_0_r. cbn [seq map app].
      f_equal. f_equal.
      * f_equal. f_equal. lia.
      * rewrite <- seq_shift, map_map. apply map_ext. intro k. f_equal. f_equal. lia.
    + exact Hc.
    + exact Hi.
Qed.

Lemma scanStep_unanswered s :
  1 <= ScannerConfig.maxRetries scannerConfig ->
  let t := Z.min (fromBlock (fst s) + ScannerConfig.batchSize scannerConfig - 1) height in
  let r := scanStep env chainConfig scannerConfig height s in
  fst r = Thrown (Error "Event loading failed") /\
  fetchCalls (trace (snd (snd r)))
  = fetchCalls (trace (snd s))
    ++ repeat (fromBlock (fst s), t) (S (Z.to_nat (ScannerConfig.maxRetries scannerConfig))) /\
  delays (trace (snd (snd r)))
  = delays (trace (snd s))
    ++ map (fun k => ScannerConfig.retryDelayMs scannerConfig * 2 ^ Z.of_nat k)
         (seq 0 (Z.to_nat (ScannerConfig.maxRetries scannerConfig) - 1)) /\
  collections (snd (snd r)) = collections (snd s) /\
  isScanning (snd (snd r)) = isScanning (snd s).
Proof.
  intros Hmax t.
  cbv beta iota zeta delta [scanStep bind locals try_catch retryWithBackoff].
  cbn [fst snd]. fold t.
  rewrite attemptBatch_unanswered.
  match goal with
  | |- context [retryWithBackoff_loop _ ?n 1 _ ?s1] =>
      destruct (retryWithBackoff_loop_unanswered t n 1 s1) as [Hr [Hl [Hf [Hd [Hc Hi]]]]];
        [lia | lia |];
      destruct (retryWithBackoff_loop scannerConfig n 1 (attemptBatch env chainConfig t) s1)
        as [c s2]
  end.
  cbn [fst snd] in *. subst c. cbn [fst snd].
  repeat split.
  - rewrite Hf, fetchCalls_record, <- app_assoc. reflexivity.
  - rewrite Hd, delays_record, app_nil_r. f_equal.
  - exact Hc.
  - exact Hi.
Qed.

Lemma getScanProgress_up w p :
  findProgress (chainName chainConfig) (scanprogresses w) = Some p ->
  getScanProgress env chainConfig w
  = (Returned p, record (call_findOne (chainName chainConfig)) true w).
Proof.
  intro Hp. unfold getScanProgress, bind, ScanProgressModel_findOne.
  rewrite storage_up, Hp. reflexivity.
Qed.

Lemma getCurrentBlockNumber_up w :
  FeeCollectorService_getCurrentBlockNumber env w
  = (Returned height, record call_getBlockNumber true w).
Proof.
  unfold FeeCollectorService_getCurrentBlockNumber, BlockchainUtils_getCurrentBlockNumber.
  change (Z.to_nat 3) with 3%nat. cbn [getCurrentBlockNumber_loop].
  unfold try_catch, remote. rewrite height_known. reflexivity.
Qed.

Lemma scanForNewEvents_unanswered fuel w p :
  1 <= ScannerConfig.maxRetries scannerConfig ->
  isScanning w = false ->
  findProgress (chainName chainConfig) (scanprogresses w) = Some p ->
  ScanProgress.lastScannedBlock p < height ->
  (1 <= fuel)%nat ->
  let t := Z.min (ScanProgress.lastScannedBlock p + 1
                  + ScannerConfig.batchSize scannerConfig - 1) height in
  let r := scanForNewEvents env chainConfig scannerConfig fuel w in
  fst r = Thrown (Error "Event loading failed") /\
  fetchCalls (trace (snd r))
  = fetchCalls (trace w)
    ++ repeat (ScanProgress.lastScannedBlock p + 1, t)
         (S (Z.to_nat (ScannerConfig.maxRetries scannerConfig))) /\
  delays (trace (snd r))
  = delays (trace w)
    ++ map (fun k => ScannerConfig.retryDelayMs scannerConfig * 2 ^ Z.of_nat k)
         (seq 0 (Z.to_nat (ScannerConfig.maxRetries scannerConfig) - 1)) /\
  collections (snd r) = collections w /\
  isScanning (snd r) = false.
Proof.
  intros Hmax Hidle Hp Hlt Hfuel t r. subst r.
  destruct fuel as [| fuel]; [lia |].
  assert (Hge : (ScanProgress.lastScannedBlock p >=? height) = false).
  { unfold Z.geb. destruct (ScanProgress.lastScannedBlock p ?= height) eqn:Hc;
      try reflexivity; [apply Z.compare_eq in Hc | apply Z.compare_gt_iff in Hc]; lia. }
  assert (Hle : (ScanProgress.lastScannedBlock p + 1 <=? height) = true)
    by (apply Z.leb_le; lia).
  set (w0 := set_isScanning true w).
  set (w2 := record call_getBlockNumber true
               (record (call_findOne (chainName chainConfig)) true w0)).
  set (s0 := ({| progress := p; fromBlock := ScanProgress.lastScannedBlock p + 1;
                 totalEventsFound := 0; totalBlocksScanned := 0 |}, w2)).
  destruct (scanStep_unanswered s0 Hmax) as [Hr [Hf [Hd [Hc Hi]]]].
  assert (Hcycle : scanCycle env chainConfig scannerConfig (S fuel) w0
                   = (Thrown (Error "Event loading failed"),
                      snd (snd (scanStep env chainConfig scannerConfig height s0)))).
  { unfold scanCycle, bind. rewrite (getScanProgress_up w0 p Hp).
    rewrite getCurrentBlockNumber_up. rewrite Hge. unfold withLocals.
    cbn [scanLoop fst fromBlock]. rewrite Hle. unfold bind. fold w2. fold s0.
    destruct (scanStep env chainConfig scannerConfig height s0) as [c s1].
    cbn [fst snd] in Hr |- *. subst c. reflexivity. }
  assert (Hrun : scanForNewEvents env chainConfig scannerConfig (S fuel) w
                 = (Thrown (Error "Event loading failed"),
                    set_isScanning false
                      (snd (snd (scanStep env chainConfig scannerConfig height s0))))).
  { unfold scanForNewEvents. rewrite Hidle.
    unfold bind, modify, try_finally, try_catch. fold w0. rewrite Hcycle. reflexivity. }
  rewrite Hrun. clear Hrun Hcycle.
  destruct (scanStep env chainConfig scannerConfig height s0) as [c [l1 w3]].
  cbn [fst snd set_isScanning trace isScanning] in *.
  repeat split.
  - rewrite Hf. unfold s0, w2. cbn [fst snd fromBlock].
    rewrite !fetchCalls_record, !app_nil_r. reflexivity.
  - rewrite Hd. unfold s0, w2. cbn [fst snd].
    rewrite !delays_record, !app_nil_r. reflexivity.
  - unfold collections in *. cbn [set_isScanning scanprogresses feeevents]. exact Hc.
Qed.

End Unanswered.

(** X12. With at least one retry allowed, a batch whose fetch is never
    answered is fetched once and then [maxRetries] times more, with
    waits of [retryDelayMs * 2^0], ..., [retryDelayMs * 2^(maxRetries - 2)]
    between the retries; then the load error leaves [scanForNewEvents],
    no later batch is fetched, both collections are as before the call
    and the scanner is idle. *)
Theorem unanswered_batch_is_retried_then_fails (env : Env) (cc : ChainConfig.t)
  (sc : ScannerConfig.t) (height : Z) (fuel : nat) (w : World) (p : ScanProgress.t) :
  (forall n, provider_getBlockNumber env n = Some height) ->
  (forall n f t, contract_queryFilter env n f t = None) ->
  (forall n, storage_down env n = false) ->
  1 <= ScannerConfig.maxRetries sc ->
  isScanning w = false ->
  findProgress (chainName cc) (scanprogresses w) = Some p ->
  ScanProgress.lastScannedBlock p < height ->
  (1 <= fuel)%nat ->
  let from := ScanProgress.lastScannedBlock p + 1 in
  let r := scanForNewEvents env cc sc fuel w in
  fst r = Thrown (Error "Event loading failed") /\
  fetchCalls (trace (snd r))
  = fetchCalls (trace w)
    ++ repeat (from, Z.min (from + ScannerConfig.batchSize sc - 1) height)
         (S (Z.to_nat (ScannerConfig.maxRetries sc))) /\
  delays (trace (snd r))
  = delays (trace w)
    ++ map (fun k => ScannerConfig.retryDelayMs sc * 2 ^ Z.of_nat k)
         (seq 0 (Z.to_nat (ScannerConfig.maxRetries sc) - 1)) /\
  collections (snd r) = collections w /\
  isScanning (snd r) = false.
Proof.
  intros Hh Hq Hup Hmax Hidle Hp Hlt Hfuel from r.
  apply (scanForNewEvents_unanswered env cc sc height Hh Hq Hup fuel w p
           Hmax Hidle Hp Hlt Hfuel).
Qed.

Lemma unanswered_batch_is_retried_then_fails_witness :
  let env := Scenario.chain 70000009 [Scenario.entry 70000001 "0xabc123" 0]
               (fun _ _ _ => true) in
  let w := Scenario.world [] [Scenario.progressAt 70000000 0 0] in
  let r := scanForNewEvents env Scenario.polygon (Scenario.config 2 3) 1 w in
  fst r = Thrown (Error "Event loading failed") /\
  fetchCalls (trace (snd r))
  = [(70000001, 70000002); (70000001, 70000002); (70000001, 70000002);
     (70000001, 70000002)] /\
  delays (trace (snd r)) = [1000; 2000] /\
  collections (snd r) = collections w /\
  isScanning (snd r) = false.
Proof.
  intros env w.
  apply (unanswered_batch_is_retried_then_fails env Scenario.polygon (Scenario.config 2 3)
           70000009 1 w (Scenario.progressAt 70000000 0 0)).
  - reflexivity.
  - reflexivity.
  - reflexivity.
  - simpl. lia.
  - reflexivity.
  - reflexivity.
  - simpl. lia.
  - lia.
Defined.

(** *** DatabaseConfig.connect *)

Lemma connect_loop_succeeds (answers : nat -> bool) : forall k n s,
  (k <= n)%nat ->
  (forall j, (j < k)%nat -> answers (Database.attempts s + j)%nat = false) ->
  answers (Database.attempts s + k)%nat = true ->
  Database.connect_loop answers n s
  = (Returned tt,
     {| Database.connection := true;
        Database.attempts := Database.attempts s + S k;
        Database.waits := Database.waits s ++ repeat 5000 k |}).
Proof.
  induction k as [| k IH]; intros n s Hk Hfail Hok.
  - rewrite Nat.add_0_r in Hok.
    destruct n; cbn [Database.connect_loop];
      unfold try_catch, bind, Database.mongoose_connect, Database.set_connection, modify;
      rewrite Hok; cbn [fst snd Database.attempts Database.waits repeat];
      rewrite app_nil_r, Nat.add_1_r; reflexivity.
  - destruct n as [| n]; [lia |]. cbn [Database.connect_loop].
    unfold try_catch, bind at 1. unfold Database.mongoose_connect at 1.
    rewrite <- (Nat.add_0_r (Database.attempts s)) at 1.
    rewrite (Hfail 0%nat) by lia.
    unfold bind, Database.wait, modify. cbn [fst snd].
    rewrite IH.
    + cbn [Database.attempts Database.waits]. f_equal. f_equal; [lia |].
      rewrite <- app_assoc. reflexivity.
    + lia.
    + intros j Hj. cbn [Database.attempts].
      replace (S (Database.attempts s) + j)%nat with (Database.attempts s + S j)%nat by lia.
      apply Hfail. lia.
    + cbn [Database.attempts].
      replace (S (Database.attempts s) + k)%nat with (Database.attempts s + S k)%nat by lia.
      exact Hok.
Qed.

Lemma connect_loop_gives_up (answers : nat -> bool) : forall n s,
  (forall j, (j <= n)%nat -> answers (Database.attempts s + j)%nat = false) ->
  Database.connect_loop answers n s
  = (Thrown (Error "connection failed"),
     {| Database.connection := Database.connection s;
        Database.attempts := Database.attempts s + S n;
        Database.waits := Database.waits s ++ repeat 5000 n |}).
Proof.
  induction n as [| n IH]; intros s Hfail.
  - cbn [Database.connect_loop].
    unfold try_catch, bind, Database.mongoose_connect, throw.
    rewrite <- (Nat.add_0_r (Database.attempts s)) at 1.
    rewrite (Hfail 0%nat) by lia.
    cbn [fst snd repeat]. rewrite app_nil_r, Nat.add_1_r. reflexivity.
  - cbn [Database.connect_loop].
    unfold try_catch, bind at 1. unfold Database.mongoose_connect at 1.
    rewrite <- (Nat.add_0_r (Database.attempts s)) at 1.
    rewrite (Hfail 0%nat) by lia.
    unfold bind, Database.wait, modify. cbn [fst snd].
    rewrite IH.
    + cbn [Database.attempts Database.waits Database.connection]. f_equal. f_equal; [lia |].
      rewrite <- app_assoc. reflexivity.
    + intros j Hj. cbn [Database.attempts].
      replace (S (Database.attempts s) + j)%nat with (Database.attempts s + S j)%nat by lia.
      apply Hfail. lia.
Qed.

(** X13. [connect] with [retries] retries, when the first [k] calls of
    [mongoose.connect] fail and the next one succeeds, [k] being at
    most [retries]: it returns with the connection set, after [k + 1]
    calls and [k] waits of 5000 ms. *)
Theorem connect_succeeds_after_failures (answers : nat -> bool) (retries : Z) (k : nat) :
  Z.of_nat k <= retries ->
  (forall j, (j < k)%nat -> answers j = false) ->
  answers k = true ->
  Database.connect answers retries Database.initial
  = (Returned tt,
     {| Database.connection := true;
        Database.attempts := S k;
        Database.waits := repeat 5000 k |}).
Proof.
  intros Hk Hfail Hok. unfold Database.connect.
  rewrite (connect_loop_succeeds answers k (Z.to_nat retries) Database.initial).
  - reflexivity.
  - lia.
  - exact Hfail.
  - exact Hok.
Qed.

Lemma connect_succeeds_after_failures_witness :
  Database.connect (fun j => Nat.leb 2 j) 5 Database.initial
  = (Returned tt,
     {| Database.connection := true; Database.attempts := 3;
        Database.waits := [5000; 5000] |}).
Proof.
  apply (connect_succeeds_after_failures (fun j => Nat.leb 2 j) 5 2).
  - lia.
  - intros j Hj. apply Nat.leb_gt. lia.
  - reflexivity.
Defined.

(** X14. [connect] with [retries] retries, when the first
    [retries + 1] calls of [mongoose.connect] fail (one call when
    [retries] is not positive): the error of the last call leaves
    [connect] after exactly that many calls, with a wait of 5000 ms
    before each retry, and the connection is not set. *)
Theorem connect_gives_up (answers : nat -> bool) (retries : Z) :
  (forall j, (j <= Z.to_nat retries)%nat -> answers j = false) ->
  Database.connect answers retries Database.initial
  = (Thrown (Error "connection failed"),
     {| Database.connection := false;
        Database.attempts := S (Z.to_nat retries);
        Database.waits := repeat 5000 (Z.to_nat retries) |}).
Proof.
  intro Hfail. unfold Database.connect.
  rewrite (connect_loop_gives_up answers (Z.to_nat retries) Database.initial Hfail).
  reflexivity.
Qed.

Lemma connect_gives_up_witness :
  Database.connect (fun j => Nat.leb 6 j) 5 Database.initial
  = (Thrown (Error "connection failed"),
     {| Database.connection := false; Database.attempts := 6;
        Database.waits := [5000; 5000; 5000; 5000; 5000] |}).
Proof.
  apply (connect_gives_up (fun j => Nat.leb 6 j) 5).
  intros j Hj. apply Nat.leb_gt. change (Z.to_nat 5) with 5%nat in Hj. lia.
Defined.

(** *** The rate limiter *)

Lemma get_set_same clientId client : forall clients,
  RateLimit.get clientId (RateLimit.set clientId client clients) = Some client.
Proof.
  induction clients as [| [k c] rest IH]; simpl.
  - rewrite String.eqb_refl. reflexivity.
  - destruct (String.eqb k clientId) eqn:Hk; simpl; rewrite Hk; [reflexivity | exact IH].
Qed.

Lemma get_set_other clientId other client : forall clients,
  String.eqb other clientId = false ->
  RateLimit.get clientId (RateLimit.set other client clients)
  = RateLimit.get clientId clients.
Proof.
  intros clients Hne. induction clients as [| [k c] rest IH]; simpl.
  - rewrite Hne. reflexivity.
  - destruct (String.eqb k other) eqn:Hk; simpl.
    + apply String.eqb_eq in Hk. subst k. rewrite Hne. reflexivity.
    + destruct (String.eqb k clientId); [reflexivity | exact IH].
Qed.

(** The middleware reads and writes the entry of the requesting client
    only. *)
Lemma handle_local maxRequests ip now clients clients' :
  RateLimit.get (RateLimit.clientIdOf ip) clients
  = RateLimit.get (RateLimit.clientIdOf ip) clients' ->
  fst (RateLimit.handle maxRequests ip now clients)
  = fst (RateLimit.handle maxRequests ip now clients') /\
  RateLimit.get (RateLimit.clientIdOf ip) (snd (RateLimit.handle maxRequests ip now clients))
  = RateLimit.get (RateLimit.clientIdOf ip)
      (snd (RateLimit.handle maxRequests ip now clients')).
Proof.
  intro H. unfold RateLimit.handle. cbn [fst snd]. rewrite H, !get_set_same.
  split; reflexivity.
Qed.

Lemma handle_other maxRequests ip now clients clientId :
  String.eqb (RateLimit.clientIdOf ip) clientId = false ->
  RateLimit.get clientId (snd (RateLimit.handle maxRequests ip now clients))
  = RateLimit.get clientId clients.
Proof.
  intro H. unfold RateLimit.handle. cbn [snd]. apply get_set_other. exact H.
Qed.

Lemma serve_isolated maxRequests clientId : forall reqs clients clients',
  RateLimit.get clientId clients = RateLimit.get clientId clients' ->
  RateLimit.answersTo clientId reqs (fst (RateLimit.serve maxRequests reqs clients))
  = fst (RateLimit.serve maxRequests (RateLimit.mine clientId reqs) clients') /\
  RateLimit.get clientId (snd (RateLimit.serve maxRequests reqs clients))
  = RateLimit.get clientId
      (snd (RateLimit.serve maxRequests (RateLimit.mine clientId reqs) clients')).
Proof.
  induction reqs as [| [ip now] rest IH]; intros clients clients' H.
  - split; [reflexivity | exact H].
  - cbn [RateLimit.serve RateLimit.mine filter fst].
    destruct (String.eqb (RateLimit.clientIdOf ip) clientId) eqn:Hid.
    + apply String.eqb_eq in Hid. subst clientId.
      destruct (handle_local maxRequests ip now clients clients' H) as [Ho Hg].
      cbn [RateLimit.serve].
      destruct (RateLimit.handle maxRequests ip now clients) as [o c1].
      destruct (RateLimit.handle maxRequests ip now clients') as [o' c1'].
      cbn [fst snd] in Ho, Hg. subst o'.
      specialize (IH c1 c1' Hg). fold (RateLimit.mine (RateLimit.clientIdOf ip) rest).
      destruct (RateLimit.serve maxRequests rest c1) as [os c2].
      destruct (RateLimit.serve maxRequests
                  (RateLimit.mine (RateLimit.clientIdOf ip) rest) c1') as [os' c2'].
      cbn [fst snd] in IH |- *. destruct IH as [IHo IHg].
      split; [| exact IHg].
      unfold RateLimit.answersTo in *. cbn [combine filter fst].
      rewrite String.eqb_refl. cbn [map snd]. f_equal. exact IHo.
    + pose proof (handle_other maxRequests ip now clients clientId Hid) as Hg.
      destruct (RateLimit.handle maxRequests ip now clients) as [o c1].
      cbn [snd] in Hg.
      assert (H1 : RateLimit.get clientId c1 = RateLimit.get clientId clients')
        by (rewrite Hg; exact H).
      specialize (IH c1 clients' H1). fold (RateLimit.mine clientId rest).
      destruct (RateLimit.serve maxRequests rest c1) as [os c2].
      cbn [fst snd] in IH |- *. destruct IH as [IHo IHg].
      split; [| exact IHg].
      unfold RateLimit.answersTo in *. cbn [combine filter fst].
      rewrite Hid. exact IHo.
Qed.

(** X15. Clients of the rate limiter do not affect one another.  In any
    sequence of requests, the outcomes of the requests of one client,
    and the entry kept for that client at the end, are what they are
    when the requests of all other clients are left out. *)
Theorem rate_limit_isolates_clients (maxRequests : option Z) (clientId : string)
  (reqs : list (option string * Z)) (clients : list (string * RateLimit.Client)) :
  RateLimit.answersTo clientId reqs (fst (RateLimit.serve maxRequests reqs clients))
  = fst (RateLimit.serve maxRequests (RateLimit.mine clientId reqs) clients) /\
  RateLimit.get clientId (snd (RateLimit.serve maxRequests reqs clients))
  = RateLimit.get clientId
      (snd (RateLimit.serve maxRequests (RateLimit.mine clientId reqs) clients)).
Proof. apply serve_isolated. reflexivity. Qed.

Lemma exceeds_verdict maxRequests requests i :
  requests = Z.of_nat i ->
  (if RateLimit.exceeds requests (Some maxRequests)
   then RateLimit.TooManyRequests else RateLimit.Next)
  = RateLimit.verdict maxRequests i.
Proof.
  intros ->. unfold RateLimit.exceeds, RateLimit.verdict, Z.gtb, Z.leb.
  destruct (Z.of_nat i ?= maxRequests); reflexivity.
Qed.

Lemma serve_in_window maxRequests ip : forall times clients r reset,
  RateLimit.get (RateLimit.clientIdOf ip) clients
  = Some {| RateLimit.requests := Z.of_nat r; RateLimit.resetTime := reset |} ->
  Forall (fun t => t <= reset) times ->
  fst (RateLimit.serve (Some maxRequests) (map (fun t => (ip, t)) times) clients)
  = map (fun i => RateLimit.verdict maxRequests (r + i)) (seq 1 (List.length times)) /\
  RateLimit.get (RateLimit.clientIdOf ip)
    (snd (RateLimit.serve (Some maxRequests) (map (fun t => (ip, t)) times) clients))
  = Some {| RateLimit.requests := Z.of_nat (r + List.length times);
            RateLimit.resetTime := reset |}.
Proof.
  induction times as [| t rest IH]; intros clients r reset Hget Hall.
  - cbn [map RateLimit.serve fst snd List.length seq]. rewrite Nat.add_0_r.
    split; [reflexivity | exact Hget].
  - inversion Hall as [| t0 l0 Ht Hrest]; subst.
    cbn [map RateLimit.serve List.length seq].
    unfold RateLimit.handle. rewrite Hget. cbn [RateLimit.resetTime RateLimit.requests].
    assert (Hnot : (t >? reset) = false).
    { unfold Z.gtb. destruct (t ?= reset) eqn:Hc; try reflexivity.
      apply Z.compare_gt_iff in Hc. lia. }
    rewrite Hnot. cbn [RateLimit.resetTime RateLimit.requests].
    match goal with
    | |- context [RateLimit.serve _ _ ?c1] =>
        destruct (IH c1 (S r) reset) as [IHo IHg];
          [rewrite get_set_same; f_equal; f_equal; lia | exact Hrest |];
        destruct (RateLimit.serve (Some maxRequests) (map (fun t => (ip, t)) rest) c1)
          as [os c2]
    end.
    cbn [fst snd] in *. split.
    + f_equal.
      * apply exceeds_verdict. lia.
      * rewrite IHo, <- (seq_shift (List.length rest) 1), map_map. apply map_ext. intro i.
        f_equal. lia.
    + rewrite IHg. f_equal. f_equal. lia.
Qed.

(** X16. The quota of a window.  A request of a client that has no
    entry, or whose window has ended (the time of the request is after
    its [resetTime]), opens a window of 60 seconds; of the requests of
    that client up to the end of the window, that one included, the
    first [maxRequests] are passed on and every later one is answered
    with 429, and each of them, rejected or not, is counted. *)
Theorem rate_limit_window_quota (maxRequests : Z) (ip : option string) (t0 : Z)
  (times : list Z) (clients : list (string * RateLimit.Client)) :
  (forall c, RateLimit.get (RateLimit.clientIdOf ip) clients = Some c ->
             RateLimit.resetTime c < t0) ->
  Forall (fun t => t <= t0 + RateLimit.windowMs) times ->
  let r := RateLimit.serve (Some maxRequests) (map (fun t => (ip, t)) (t0 :: times)) clients in
  fst r = map (RateLimit.verdict maxRequests) (seq 1 (S (List.length times))) /\
  RateLimit.get (RateLimit.clientIdOf ip) (snd r)
  = Some {| RateLimit.requests := Z.of_nat (S (List.length times));
            RateLimit.resetTime := t0 + RateLimit.windowMs |}.
Proof.
  intros Hnew Hall r. subst r.
  cbn [map RateLimit.serve List.length seq].
  assert (Hfirst : RateLimit.handle (Some maxRequests) ip t0 clients
                   = (RateLimit.verdict maxRequests 1,
                      RateLimit.set (RateLimit.clientIdOf ip)
                        {| RateLimit.requests := Z.of_nat 1;
                           RateLimit.resetTime := t0 + RateLimit.windowMs |} clients)).
  { unfold RateLimit.handle.
    destruct (RateLimit.get (RateLimit.clientIdOf ip) clients) as [c |] eqn:Hget.
    - assert (Hgt : (t0 >? RateLimit.resetTime c) = true).
      { apply Z.gtb_lt. apply Hnew. reflexivity. }
      rewrite Hgt. cbn [RateLimit.requests RateLimit.resetTime].
      f_equal. apply exceeds_verdict. reflexivity.
    - cbn [RateLimit.requests RateLimit.resetTime].
      f_equal. apply exceeds_verdict. reflexivity. }
  rewrite Hfirst.
  match goal with
  | |- context [RateLimit.serve _ _ ?c1] =>
      destruct (serve_in_window maxRequests ip times c1 1 (t0 + RateLimit.windowMs))
        as [Ho Hg]; [apply get_set_same | exact Hall |];
      destruct (RateLimit.serve (Some maxRequests) (map (fun t => (ip, t)) times) c1)
        as [os c2]
  end.
  cbn [fst snd] in *. split.
  - f_equal. rewrite Ho, <- (seq_shift (List.length times) 1), map_map. reflexivity.
  - rewrite Hg. reflexivity.
Qed.

Lemma rate_limit_window_quota_witness :
  let r := RateLimit.serve (Some 2)
             (map (fun t => (Some "10.0.0.1", t)) [70000; 70001; 80000; 130000])
             [("10.0.0.1", {| RateLimit.requests := 100; RateLimit.resetTime := 60000 |})] in
  fst r = [RateLimit.Next; RateLimit.Next; RateLimit.TooManyRequests;
           RateLimit.TooManyRequests] /\
  RateLimit.get "10.0.0.1" (snd r)
  = Some {| RateLimit.requests := 4; RateLimit.resetTime := 130000 |}.
Proof.
  apply (rate_limit_window_quota 2 (Some "10.0.0.1") 70000 [70001; 80000; 130000]
           [("10.0.0.1", {| RateLimit.requests := 100; RateLimit.resetTime := 60000 |})]).
  - intros c H. simpl in H. injection H as <-. simpl. lia.
  - repeat constructor; unfold RateLimit.windowMs; lia.
Defined.

(** *** EventController.getEvents *)

Lemma firstn_incl {A} n (l : list A) e : In e (firstn n l) -> In e l.
Proof.
  intro H. rewrite <- (firstn_skipn n l). apply in_or_app. left. exact H.
Qed.

Lemma skipn_incl {A} n (l : list A) e : In e (skipn n l) -> In e l.
Proof.
  intro H. rewrite <- (firstn_skipn n l). apply in_or_app. right. exact H.
Qed.

Lemma StronglySorted_skipn {A} (R : A -> A -> Prop) n : forall l,
  StronglySorted R l -> StronglySorted R (skipn n l).
Proof.
  induction n as [| n IH]; intros l H; [exact H |].
  destruct l as [| a l]; [exact H |]. simpl. apply IH.
  inversion H; assumption.
Qed.

Lemma StronglySorted_firstn {A} (R : A -> A -> Prop) n : forall l,
  StronglySorted R l -> StronglySorted R (firstn n l).
Proof.
  induction n as [| n IH]; intros l H; [constructor |].
  destruct l as [| a l]; [constructor |]. simpl.
  inversion H as [| a0 l0 Hl Ha]; subst. constructor; [apply IH; exact Hl |].
  apply Forall_forall. intros x Hx. apply firstn_incl in Hx.
  revert x Hx. apply Forall_forall. exact Ha.
Qed.

Lemma firstn_add_skipn {A} a b : forall l : list A,
  firstn (a + b) l = firstn a l ++ firstn b (skipn a l).
Proof.
  induction a as [| a IH]; intro l; [reflexivity |].
  destruct l as [| x l]; simpl.
  - rewrite firstn_nil. reflexivity.
  - rewrite IH. reflexivity.
Qed.

(** Cutting a list into consecutive pieces of [L] elements and putting
    the first [m] of them together gives its first [m * L] elements. *)
Lemma concat_chunks {A} (L : nat) (l : list A) (m : nat) :
  List.concat (map (fun j => firstn L (skipn (j * L) l)) (seq 0 m)) = firstn (m * L) l.
Proof.
  induction m as [| m IH]; [reflexivity |].
  rewrite seq_S, map_app, concat_app, IH. simpl. rewrite app_nil_r.
  rewrite <- firstn_add_skipn. f_equal. lia.
Qed.

Lemma ceilDiv_bounds total limit :
  1 <= limit ->
  limit * (EventController.ceilDiv total limit - 1) < total
  <= limit * EventController.ceilDiv total limit.
Proof.
  intro H. unfold EventController.ceilDiv.
  pose proof (Z.div_mod (- total) limit ltac:(lia)) as Hd.
  pose proof (Z.mod_pos_bound (- total) limit ltac:(lia)) as Hm.
  nia.
Qed.

Lemma orDefault_some v d : v <> 0 -> EventController.orDefault (Some v) d = v.
Proof.
  intro H. unfold EventController.orDefault.
  destruct (v =? 0) eqn:E; [apply Z.eqb_eq in E; contradiction | reflexivity].
Qed.

(** The handler on validated parameters: the page is a window on the
    sorted matches. *)
Lemma getEvents_validated sort params coll :
  EventController.Validated params ->
  exists p l,
    EventController.page params = Some p /\ 1 <= p /\
    EventController.limit params = Some l /\ 1 <= l <= 100 /\
    EventController.getEvents sort (inr params) coll
    = EventController.Success
        (firstn (Z.to_nat l)
           (skipn ((Z.to_nat p - 1) * Z.to_nat l)
              (sort (filter (EventController.matches (EventController.buildQuery params))
                       coll))))
        {| EventController.p_page := p;
           EventController.p_limit := l;
           EventController.total :=
             Z.of_nat (List.length
                         (filter (EventController.matches
                                    (EventController.buildQuery params)) coll));
           EventController.pages :=
             EventController.ceilDiv
               (Z.of_nat (List.length
                            (filter (EventController.matches
                                       (EventController.buildQuery params)) coll))) l |}.
Proof.
  intros [_ [_ [[p [Hp Hp1]] [l [Hl Hl1]]]]].
  exists p, l. repeat split; try assumption; try lia.
  unfold EventController.getEvents. rewrite Hp, Hl.
  rewrite !orDefault_some by lia.
  unfold EventController.skipLimit, EventController.limitTo.
  assert (Hs : ((p - 1) * l <? 0) = false) by (apply Z.ltb_ge; nia).
  assert (Hz : (l =? 0) = false) by (apply Z.eqb_neq; lia).
  rewrite Hs, Hz. f_equal. f_equal; [lia |]. f_equal. nia.
Qed.

(** The filter that the handler builds is what the request asks for. *)
Lemma matches_buildQuery params e :
  EventController.matches (EventController.buildQuery params) e
  = EventController.requestedb params e.
Proof.
  unfold EventController.matches, EventController.buildQuery, EventController.requestedb,
    EventController.truthyString, EventController.truthyNumber.
  cbn [EventController.q_integrator EventController.q_token EventController.q_gte
       EventController.q_lte].
  destruct (EventController.integrator params) as [a |];
    [destruct (String.eqb a "") |];
    (destruct (EventController.token params) as [t |];
     [destruct (String.eqb t "") |]);
    (destruct (EventController.fromBlock params) as [f |];
     [destruct (f =? 0) |]);
    (destruct (EventController.toBlock params) as [u |];
     [destruct (u =? 0) |]);
    cbn [negb option_map orb andb]; rewrite ?andb_true_r; reflexivity.
Qed.

Lemma requestedb_requested params e :
  EventController.requestedb params e = true <-> EventController.requested params e.
Proof.
  unfold EventController.requestedb, EventController.requested. split.
  - intro H.
    apply andb_true_iff in H. destruct H as [H Hu].
    apply andb_true_iff in H. destruct H as [H Hf].
    apply andb_true_iff in H. destruct H as [Hi Ht].
    split; [| split; [| split]].
    + intros a Ha Hne. rewrite Ha in Hi. apply orb_true_iff in Hi.
      destruct Hi as [Hi | Hi]; apply String.eqb_eq in Hi; [contradiction | exact Hi].
    + intros a Ha Hne. rewrite Ha in Ht. apply orb_true_iff in Ht.
      destruct Ht as [Ht | Ht]; apply String.eqb_eq in Ht; [contradiction | exact Ht].
    + intros b Hb Hne. rewrite Hb in Hf. apply orb_true_iff in Hf.
      destruct Hf as [Hf | Hf]; [apply Z.eqb_eq in Hf; contradiction |].
      apply Z.leb_le. exact Hf.
    + intros b Hb Hne. rewrite Hb in Hu. apply orb_true_iff in Hu.
      destruct Hu as [Hu | Hu]; [apply Z.eqb_eq in Hu; contradiction |].
      apply Z.leb_le. exact Hu.
  - intros [Hi [Ht [Hf Hu]]].
    repeat (apply andb_true_iff; split).
    + destruct (EventController.integrator params) as [a |]; [| reflexivity].
      destruct (String.eqb a "") eqn:E; [reflexivity |].
      apply String.eqb_neq in E. simpl. apply String.eqb_eq. apply Hi; auto.
    + destruct (EventController.token params) as [a |]; [| reflexivity].
      destruct (String.eqb a "") eqn:E; [reflexivity |].
      apply String.eqb_neq in E. simpl. apply String.eqb_eq. apply Ht; auto.
    + destruct (EventController.fromBlock params) as [b |]; [| reflexivity].
      destruct (b =? 0) eqn:E; [reflexivity |].
      apply Z.eqb_neq in E. simpl. apply Z.leb_le. apply Hf; auto.
    + destruct (EventController.toBlock params) as [b |]; [| reflexivity].
      destruct (b =? 0) eqn:E; [reflexivity |].
      apply Z.eqb_neq in E. simpl. apply Z.leb_le. apply Hu; auto.
Qed.

Lemma filter_matches params coll :
  filter (EventController.matches (EventController.buildQuery params)) coll
  = filter (EventController.requestedb params) coll.
Proof. apply filter_ext. intro e. apply matches_buildQuery. Qed.

(** X17. A page of [getEvents].  On validated parameters, with a
    database that returns the matching documents in the order asked
    for, the handler answers with success.  Every event of the page is
    a stored event that the request asks for: its integrator and its
    token are the lower-cased parameters, when these are given and not
    empty, and its block number is within [fromBlock] and [toBlock],
    when these are given and not 0 (a bound of 0 is not applied).  The
    page has at most [limit] events and is ordered most recent first;
    [total] is the number of stored events that the request asks for,
    and [pages] is the least number of pages of [limit] events that
    hold [total] events. *)
Theorem getEvents_page (sort : list FeeEvent.t -> list FeeEvent.t)
  (params : EventController.Params) (coll : list FeeEvent.t) :
  (forall l, Permutation (sort l) l) ->
  (forall l, StronglySorted EventController.before (sort l)) ->
  EventController.Validated params ->
  exists data pagination,
    EventController.getEvents sort (inr params) coll
    = EventController.Success data pagination /\
    (forall e, In e data ->
       In e coll /\
       (forall a, EventController.integrator params = Some a -> a <> "" ->
          FeeEvent.integrator e = toLowerCase a) /\
       (forall a, EventController.token params = Some a -> a <> "" ->
          FeeEvent.token e = toLowerCase a) /\
       (forall b, EventController.fromBlock params = Some b -> b <> 0 ->
          b <= FeeEvent.blockNumber e) /\
       (forall b, EventController.toBlock params = Some b -> b <> 0 ->
          FeeEvent.blockNumber e <= b)) /\
    Z.of_nat (List.length data) <= EventController.p_limit pagination /\
    StronglySorted EventController.before data /\
    EventController.total pagination
    = Z.of_nat (List.length (filter (EventController.requestedb params) coll)) /\
    (forall e, EventController.requestedb params e = true
               <-> EventController.requested params e) /\
    EventController.p_limit pagination * (EventController.pages pagination - 1)
    < EventController.total pagination
    <= EventController.p_limit pagination * EventController.pages pagination.
Proof.
  intros Hperm Hsorted Hv.
  destruct (getEvents_validated sort params coll Hv) as [p [l [Hp [Hp1 [Hl [Hl1 Hrun]]]]]].
  eexists. eexists. split; [exact Hrun |].
  cbn [EventController.p_limit EventController.total EventController.pages].
  split; [| split; [| split; [| split; [| split; [| split]]]]].
  - intros e H. apply firstn_incl, skipn_incl in H.
    apply (Permutation_in _ (Hperm _)) in H. apply filter_In in H.
    destruct H as [Hin Hm]. split; [exact Hin |].
    rewrite matches_buildQuery in Hm. apply requestedb_requested in Hm. exact Hm.
  - pose proof (firstn_le_length (Z.to_nat l)
                  (skipn ((Z.to_nat p - 1) * Z.to_nat l)
                     (sort (filter (EventController.matches
                                      (EventController.buildQuery params)) coll)))).
    lia.
  - apply StronglySorted_firstn, StronglySorted_skipn, Hsorted.
  - rewrite filter_matches. reflexivity.
  - intro e. apply requestedb_requested.
  - apply ceilDiv_bounds. lia.
  - apply ceilDiv_bounds. lia.
Qed.

Lemma beforeb_before a b : EventController.beforeb a b = true -> EventController.before a b.
Proof.
  unfold EventController.beforeb, EventController.before. intro H.
  apply orb_true_iff in H. destruct H as [H | H].
  - left. apply Z.ltb_lt. exact H.
  - right. apply andb_true_iff in H. destruct H as [H1 H2].
    split; [apply Z.eqb_eq; exact H1 | apply Z.leb_le; exact H2].
Qed.

Lemma beforeb_false_before a b :
  EventController.beforeb a b = false -> EventController.before b a.
Proof.
  unfold EventController.beforeb, EventController.before. intro H.
  apply orb_false_iff in H. destruct H as [H1 H2].
  apply Z.ltb_ge in H1. apply andb_false_iff in H2.
  destruct H2 as [H2 | H2]; [apply Z.eqb_neq in H2 | apply Z.leb_gt in H2]; lia.
Qed.

Lemma before_trans a b c :
  EventController.before a b -> EventController.before b c -> EventController.before a c.
Proof. unfold EventController.before. lia. Qed.

Lemma insertDesc_perm e : forall l, Permutation (EventController.insertDesc e l) (e :: l).
Proof.
  induction l as [| x l IH]; simpl; [apply Permutation_refl |].
  destruct (EventController.beforeb e x); [apply Permutation_refl |].
  eapply Permutation_trans; [apply perm_skip, IH | apply perm_swap].
Qed.

Lemma sortDesc_perm : forall l, Permutation (EventController.sortDesc l) l.
Proof.
  induction l as [| e l IH]; simpl; [apply Permutation_refl |].
  eapply Permutation_trans; [apply insertDesc_perm | apply perm_skip, IH].
Qed.

Lemma insertDesc_sorted e : forall l,
  StronglySorted EventController.before l ->
  StronglySorted EventController.before (EventController.insertDesc e l).
Proof.
  induction l as [| x l IH]; intro H; simpl.
  - constructor; constructor.
  - inversion H as [| x0 l0 Hl Hx]; subst.
    destruct (EventController.beforeb e x) eqn:Hb.
    + constructor; [exact H |]. constructor; [apply beforeb_before; exact Hb |].
      eapply Forall_impl; [| exact Hx]. intros y Hy.
      eapply before_trans; [apply beforeb_before; exact Hb | exact Hy].
    + constructor; [apply IH; exact Hl |].
      apply Forall_forall. intros y Hy.
      apply (Permutation_in _ (insertDesc_perm e l)) in Hy.
      destruct Hy as [<- | Hy]; [apply beforeb_false_before; exact Hb |].
      revert y Hy. apply Forall_forall. exact Hx.
Qed.

Lemma sortDesc_sorted : forall l,
  StronglySorted EventController.before (EventController.sortDesc l).
Proof.
  induction l as [| e l IH]; simpl; [constructor | apply insertDesc_sorted, IH].
Qed.

Lemma getEvents_page_witness :
  let params := ApiScenario.request None (Some 70000002) 1 2 in
  exists data pagination,
    EventController.getEvents EventController.sortDesc (inr params) ApiScenario.stored
    = EventController.Success data pagination /\
    (forall e, In e data ->
       In e ApiScenario.stored /\
       (forall a, EventController.integrator params = Some a -> a <> "" ->
          FeeEvent.integrator e = toLowerCase a) /\
       (forall a, EventController.token params = Some a -> a <> "" ->
          FeeEvent.token e = toLowerCase a) /\
       (forall b, EventController.fromBlock params = Some b -> b <> 0 ->
          b <= FeeEvent.blockNumber e) /\
       (forall b, EventController.toBlock params = Some b -> b <> 0 ->
          FeeEvent.blockNumber e <= b)) /\
    Z.of_nat (List.length data) <= EventController.p_limit pagination /\
    StronglySorted EventController.before data /\
    EventController.total pagination
    = Z.of_nat (List.length (filter (EventController.requestedb params)
                               ApiScenario.stored)) /\
    (forall e, EventController.requestedb params e = true
               <-> EventController.requested params e) /\
    EventController.p_limit pagination * (EventController.pages pagination - 1)
    < EventController.total pagination
    <= EventController.p_limit pagination * EventController.pages pagination.
Proof.
  intro params.
  apply (getEvents_page EventController.sortDesc params ApiScenario.stored
           sortDesc_perm sortDesc_sorted).
  repeat split; simpl.
  - intros b H. injection H as <-. lia.
  - intros b H. discriminate.
  - exists 1. split; [reflexivity | lia].
  - exists 2. split; [reflexivity | lia].
Defined.

(** X18. The pages of [getEvents] cut the matches into consecutive
    pieces.  On validated parameters, the pages 1, 2, ..., [pages] for
    the same filters and the same [limit], put one after the other, are
    exactly the stored events that the request asks for (an empty
    address and a bound of 0 ask for nothing), in the order of the
    database: every such event is on one page, none is repeated and
    none is left out. *)
Theorem getEvents_pages_partition (sort : list FeeEvent.t -> list FeeEvent.t)
  (params : EventController.Params) (coll : list FeeEvent.t) (limit : Z) :
  (forall l, Permutation (sort l) l) ->
  EventController.Validated params ->
  EventController.limit params = Some limit ->
  let matching := filter (EventController.requestedb params) coll in
  let pages := EventController.ceilDiv (Z.of_nat (List.length matching)) limit in
  List.concat
    (map (fun k =>
            EventController.dataOf
              (EventController.getEvents sort
                 (inr (EventController.withPage (Z.of_nat k) params)) coll))
       (seq 1 (Z.to_nat pages)))
  = sort matching.
Proof.
  intros Hperm Hv Hlimit. rewrite <- filter_matches. intros matching pages.
  assert (Hl1 : 1 <= limit <= 100).
  { destruct Hv as [_ [_ [_ [l [Hl Hb]]]]]. rewrite Hlimit in Hl. injection Hl as <-.
    exact Hb. }
  rewrite <- seq_shift, map_map.
  rewrite (map_ext _ (fun j => firstn (Z.to_nat limit)
                                 (skipn (j * Z.to_nat limit) (sort matching)))).
  - rewrite concat_chunks. apply firstn_all2.
    rewrite (Permutation_length (Hperm matching)).
    pose proof (ceilDiv_bounds (Z.of_nat (List.length matching)) limit ltac:(lia)) as Hb.
    fold pages in Hb. nia.
  - intro j. remember (Z.of_nat (S j)) as k eqn:Hk.
    assert (Hvj : EventController.Validated (EventController.withPage k params)).
    { destruct Hv as [Hf [Ht [_ Hl]]]. repeat split; try assumption.
      exists k. split; [reflexivity | lia]. }
    destruct (getEvents_validated sort _ coll Hvj) as [p [l [Hp [_ [Hl [_ Hrun]]]]]].
    rewrite Hrun. cbn [EventController.dataOf].
    cbn [EventController.withPage EventController.page EventController.limit] in Hp, Hl.
    injection Hp as <-. rewrite Hlimit in Hl. injection Hl as <-.
    replace (Z.to_nat k - 1)%nat with j by lia.
    reflexivity.
Qed.

Lemma getEvents_pages_partition_witness :
  let params := ApiScenario.request None (Some 70000002) 1 2 in
  List.concat
    (map (fun k =>
            EventController.dataOf
              (EventController.getEvents EventController.sortDesc
                 (inr (EventController.withPage (Z.of_nat k) params)) ApiScenario.stored))
       [1%nat; 2%nat])
  = [ApiScenario.event 70000005 2 "0xE0a1556ef66873d965A2F4caD06F051646BE6707";
     ApiScenario.event 70000003 4 "0x1234567890123456789012345678901234567890";
     ApiScenario.event 70000003 1 "0xe0a1556ef66873d965a2f4cad06f051646be6707";
     ApiScenario.event 70000002 0 "0x1234567890123456789012345678901234567890"].
Proof.
  intro params.
  apply (getEvents_pages_partition EventController.sortDesc params ApiScenario.stored 2
           sortDesc_perm).
  - repeat split; simpl.
    + intros b H. injection H as <-. lia.
    + intros b H. discriminate.
    + exists 1. split; [reflexivity | lia].
    + exists 2. split; [reflexivity | lia].
  - reflexivity.
Defined.

Lemma lowerAscii_not_upper c : isUpper (lowerAscii c) = false.
Proof. destruct c as [[] [] [] [] [] [] [] []]; reflexivity. Qed.

Lemma toLowerCase_no_upper s : hasUpper (toLowerCase s) = false.
Proof.
  induction s as [| c r IH]; [reflexivity |].
  simpl. rewrite lowerAscii_not_upper, IH. reflexivity.
Qed.

Lemma getEvents_data_matches sort params coll e :
  (forall l, Permutation (sort l) l) ->
  In e (EventController.dataOf (EventController.getEvents sort (inr params) coll)) ->
  In e coll /\ EventController.matches (EventController.buildQuery params) e = true.
Proof.
  intros Hperm. unfold EventController.getEvents, EventController.skipLimit.
  destruct (_ <? 0); [intros [] |].
  cbn [EventController.dataOf]. unfold EventController.limitTo. intro H.
  assert (Hin : In e (sort (filter (EventController.matches
                                      (EventController.buildQuery params)) coll))).
  { destruct (_ =? 0); [| apply firstn_incl in H]; apply skipn_incl in H; exact H. }
  apply (Permutation_in _ (Hperm _)) in Hin. apply filter_In in Hin. exact Hin.
Qed.

(** X19. The address filters of [getEvents] compare with the
    lower-cased parameter.  When the request carries an [integrator]
    (a [token]), every event in the answer has exactly the lower-cased
    parameter in that field; so a stored event whose field holds a
    capital letter, as the checksum form of an address does, is in no
    answer to a request that filters on that field, whatever the case
    of the parameter. *)
Theorem getEvents_address_filter_is_lowercase (sort : list FeeEvent.t -> list FeeEvent.t)
  (params : EventController.Params) (coll : list FeeEvent.t) :
  (forall l, Permutation (sort l) l) ->
  (forall a e,
     EventController.integrator params = Some a -> a <> "" ->
     In e (EventController.dataOf (EventController.getEvents sort (inr params) coll)) ->
     FeeEvent.integrator e = toLowerCase a /\ hasUpper (FeeEvent.integrator e) = false) /\
  (forall a e,
     EventController.token params = Some a -> a <> "" ->
     In e (EventController.dataOf (EventController.getEvents sort (inr params) coll)) ->
     FeeEvent.token e = toLowerCase a /\ hasUpper (FeeEvent.token e) = false).
Proof.
  intro Hperm. split; intros a e Ha Hne Hin;
    destruct (getEvents_data_matches sort params coll e Hperm Hin) as [_ Hm];
    unfold EventController.matches, EventController.buildQuery in Hm;
    cbn [EventController.q_integrator EventController.q_token] in Hm;
    rewrite Ha in Hm; unfold EventController.truthyString in Hm;
    (assert (Hnz : String.eqb a "" = false) by (apply String.eqb_neq; exact Hne));
    rewrite Hnz in Hm; cbn [negb option_map] in Hm;
    repeat (apply andb_true_iff in Hm; destruct Hm as [Hm ?]).
  - apply String.eqb_eq in Hm. rewrite Hm. split; [reflexivity | apply toLowerCase_no_upper].
  - match goal with
    | H : String.eqb (FeeEvent.token e) _ = true |- _ =>
        apply String.eqb_eq in H; rewrite H
    end.
    split; [reflexivity | apply toLowerCase_no_upper].
Qed.

Lemma getEvents_address_filter_is_lowercase_witness :
  let params := ApiScenario.request (Some "0xE0a1556ef66873d965A2F4caD06F051646BE6707")
                  None 1 50 in
  let data := EventController.dataOf
                (EventController.getEvents EventController.sortDesc (inr params)
                   ApiScenario.stored) in
  data = [ApiScenario.event 70000003 1 "0xe0a1556ef66873d965a2f4cad06f051646be6707"] /\
  (forall a e,
     EventController.integrator params = Some a -> a <> "" -> In e data ->
     FeeEvent.integrator e = toLowerCase a /\ hasUpper (FeeEvent.integrator e) = false) /\
  (forall a e,
     EventController.token params = Some a -> a <> "" -> In e data ->
     FeeEvent.token e = toLowerCase a /\ hasUpper (FeeEvent.token e) = false).
Proof.
  intros params data. split; [reflexivity |].
  apply (getEvents_address_filter_is_lowercase EventController.sortDesc params
           ApiScenario.stored sortDesc_perm).
Defined.

(** *** FeeEvent.getTotalFee and FeeEvent.isHighValue *)

(** Reading the decimal text of an integer gives the integer back. *)
Lemma decimalBigInt_roundtrip z :
  FeeEventMethods.decimalBigInt (bigNumberToString z) = Some z.
Proof.
  unfold FeeEventMethods.decimalBigInt, bigNumberToString.
  rewrite NilZero.isi.
  - simpl. rewrite DecimalZ.of_to. reflexivity.
  - destruct z as [| p | p]; simpl; try discriminate.
    intro H. injection H as H. exact (Unsigned.to_uint_nonnil p H).
  - destruct z as [| p | p]; simpl; try discriminate.
    intro H. injection H as H. exact (Unsigned.to_uint_nonnil p H).
Qed.

(** X20. The fee methods on an event as the scanner stores it.  With a
    [BigInt] that reads the decimal text of an integer back as that
    integer, for the document that [storeEvents] builds from a decoded
    event: [getTotalFee] does not throw and gives the decimal text of
    the sum of the two fees of the event, and [isHighValue] does not
    throw and is true exactly when that sum is greater than the
    threshold, a sum equal to the threshold not being high. *)
Theorem fee_methods_on_stored_event (BigInt : string -> option Z) (cc : ChainConfig.t)
  (pe : ParsedFeeCollectedEvent.t) (threshold : string) (limit : Z) :
  (forall z, BigInt (bigNumberToString z) = Some z) ->
  BigInt threshold = Some limit ->
  let sum := ParsedFeeCollectedEvent.integratorFee pe + ParsedFeeCollectedEvent.lifiFee pe in
  FeeEventMethods.getTotalFee BigInt (toFeeEvent cc pe) = Some (bigNumberToString sum) /\
  FeeEventMethods.isHighValue BigInt threshold (toFeeEvent cc pe) = Some (limit <? sum).
Proof.
  intros Hround Hlimit sum.
  assert (Ht : FeeEventMethods.getTotalFee BigInt (toFeeEvent cc pe)
               = Some (bigNumberToString sum)).
  { unfold FeeEventMethods.getTotalFee, toFeeEvent.
    cbn [FeeEvent.integratorFee FeeEvent.lifiFee]. rewrite !Hround. reflexivity. }
  split; [exact Ht |].
  unfold FeeEventMethods.isHighValue. rewrite Ht, Hround, Hlimit.
  f_equal. apply Z.gtb_ltb.
Qed.

Lemma fee_methods_on_stored_event_witness :
  let pe := Scenario.parsedEvent 70000001 "0xabc123" 0 in
  FeeEventMethods.getTotalFee FeeEventMethods.decimalBigInt (toFeeEvent Scenario.polygon pe)
  = Some "1500000" /\
  FeeEventMethods.isHighValue FeeEventMethods.decimalBigInt "1500000"
    (toFeeEvent Scenario.polygon pe)
  = Some false.
Proof.
  intro pe.
  apply (fee_methods_on_stored_event FeeEventMethods.decimalBigInt Scenario.polygon pe
           "1500000" 1500000).
  - exact decimalBigInt_roundtrip.
  - reflexivity.
Defined.

(** *** EventScanner.getStats *)

(** X21. The statistics after a scan cycle.  After a cycle in which
    nothing fails, [getStats] returns, with the database answering,
    the chain name, the height of the chain as [lastScannedBlock] (the
    block stored before when the chain is not beyond it), the total of
    blocks grown by the number of blocks in between, and
    [isScanning = false]; it changes neither collection. *)
Theorem getStats_after_cycle (env : Env) (cc : ChainConfig.t) (sc : ScannerConfig.t)
  (height : Z) (w : World) (p : ScanProgress.t) (fuel : nat) :
  Reliable env height ->
  1 <= ScannerConfig.batchSize sc ->
  isScanning w = false ->
  findProgress (chainName cc) (scanprogresses w) = Some p ->
  (Z.to_nat (height - ScanProgress.lastScannedBlock p) <= fuel)%nat ->
  let w' := snd (scanForNewEvents env cc sc fuel w) in
  exists stats,
    fst (getStats env cc w') = Returned (stats, false) /\
    ScanProgress.stats_chain stats = chainName cc /\
    ScanProgress.stats_lastScannedBlock stats
    = Z.max (ScanProgress.lastScannedBlock p) height /\
    ScanProgress.totalBlocks stats
    = ScanProgress.totalBlocksScanned p
      + Z.max 0 (height - ScanProgress.lastScannedBlock p) /\
    ScanProgress.totalEventsFound p <= ScanProgress.totalEvents stats /\
    collections (snd (getStats env cc w')) = collections w'.
Proof.
  intros Hrel Hb Hidle Hp Hfuel w'.
  destruct (scanForNewEvents_reliable_full env cc sc height Hrel fuel w p Hb Hidle Hp Hfuel)
    as [w1 [batches [p' [Hrun [_ [_ [Hp' [Hl [Hbl [Hev Hi]]]]]]]]]].
  subst w'. rewrite Hrun. cbn [snd].
  destruct Hrel as [_ [_ Hup]].
  exists (ScanProgress.getStats p').
  unfold getStats, bind. rewrite (getScanProgress_up env cc Hup w1 p' Hp').
  unfold get, ret. cbn [fst snd record isScanning]. rewrite Hi.
  repeat split; try assumption.
  cbn [ScanProgress.getStats ScanProgress.stats_chain].
  apply (findProgress_chain _ _ _ Hp').
Qed.

Lemma getStats_after_cycle_witness :
  let env := Scenario.chain 70000010 [Scenario.entry 70000003 "0xabc123" 0] Scenario.never in
  let w' := snd (scanForNewEvents env Scenario.polygon (Scenario.config 1000 3) 10
                   (Scenario.world [] [Scenario.progressAt 70000000 5 10])) in
  exists stats,
    fst (getStats env Scenario.polygon w') = Returned (stats, false) /\
    ScanProgress.stats_chain stats = "polygon" /\
    ScanProgress.stats_lastScannedBlock stats = 70000010 /\
    ScanProgress.totalBlocks stats = 20 /\
    5 <= ScanProgress.totalEvents stats /\
    collections (snd (getStats env Scenario.polygon w')) = collections w'.
Proof.
  intros env w'.
  apply (getStats_after_cycle env Scenario.polygon (Scenario.config 1000 3) 70000010
           (Scenario.world [] [Scenario.progressAt 70000000 5 10])
           (Scenario.progressAt 70000000 5 10) 10).
  - repeat split; intros; try reflexivity. simpl. discriminate.
  - simpl. lia.
  - reflexivity.
  - reflexivity.
  - simpl. lia.
Defined.
